(** * MTFSS: the Multi-Tenant Folder Sorting Sieve

    A shallow embedding of [mtfss.py] (class [MTFSSProcessor] and the
    entry point [main]) and the properties its specification states
    about it, followed by further properties of the program.

    Text is modelled by [string]; the characters are 7-bit ASCII code
    points, which is what the address pattern of [extract_recipients]
    admits and what the header parser hands out as [str].  The mail store
    is an environment answering each call from the history of the session
    so far; a call returns a response or raises.  Every method of the
    processor is a computation in a state-and-exception monad over the
    processor's attributes and that history.  Logging has no effect on
    what is stated here and is left out. *)

From Stdlib Require Import String Ascii List Bool Arith Lia.
Import ListNotations.

Local Open Scope string_scope.
Local Open Scope list_scope.
Local Open Scope nat_scope.

(* ================================================================== *)
(** * Text *)
(* ================================================================== *)

Module Text.

Definition code (c : ascii) : nat := nat_of_ascii c.

(** The line feed. *)
Definition LF : ascii := "010"%char.

Definition between (lo hi : nat) (c : ascii) : bool :=
  (lo <=? code c) && (code c <=? hi).

Definition is_upper : ascii -> bool := between 65 90.
Definition is_lower : ascii -> bool := between 97 122.
Definition is_digit : ascii -> bool := between 48 57.
Definition is_alpha (c : ascii) : bool := is_upper c || is_lower c.
Definition is_alnum (c : ascii) : bool := is_alpha c || is_digit c.

(** [str.isspace] on ASCII: TAB, LF, VT, FF, CR, FS, GS, RS, US, SPACE. *)
Definition is_space (c : ascii) : bool := between 9 13 c || between 28 32 c.

(** Whitespace of [bytes.split()]: TAB, LF, VT, FF, CR, SPACE. *)
Definition is_bytes_space (c : ascii) : bool :=
  between 9 13 c || Ascii.eqb c " ".

(** [\w] of the [re] module on ASCII text. *)
Definition is_word (c : ascii) : bool := is_alnum c || Ascii.eqb c "_".

Definition upper_char (c : ascii) : ascii :=
  if is_lower c then ascii_of_nat (code c - 32) else c.

Definition lower_char (c : ascii) : ascii :=
  if is_upper c then ascii_of_nat (code c + 32) else c.

Fixpoint map_str (f : ascii -> ascii) (s : string) : string :=
  match s with
  | EmptyString => EmptyString
  | String c r => String (f c) (map_str f r)
  end.

(** [str.lower]. *)
Definition lower (s : string) : string := map_str lower_char s.

(** [str.capitalize]: the first character upper-cased, the others
    lower-cased. *)
Definition capitalize (s : string) : string :=
  match s with
  | EmptyString => EmptyString
  | String c r => String (upper_char c) (lower r)
  end.

(** [s.replace(old, new)] for one-character [old] and [new]. *)
Definition replace_char (old new : ascii) (s : string) : string :=
  map_str (fun c => if Ascii.eqb c old then new else c) s.

Fixpoint lstrip (s : string) : string :=
  match s with
  | EmptyString => EmptyString
  | String c r => if is_space c then lstrip r else s
  end.

Fixpoint rstrip (s : string) : string :=
  match s with
  | EmptyString => EmptyString
  | String c r =>
      match rstrip r with
      | EmptyString => if is_space c then EmptyString else String c EmptyString
      | r' => String c r'
      end
  end.

(** [str.strip()]. *)
Definition strip (s : string) : string := rstrip (lstrip s).

Fixpoint take (n : nat) (s : string) : string :=
  match n, s with
  | S k, String c r => String c (take k r)
  | _, _ => EmptyString
  end.

Fixpoint drop (n : nat) (s : string) : string :=
  match n, s with
  | S k, String _ r => drop k r
  | _, _ => s
  end.

Fixpoint last_char (prev : option ascii) (s : string) : option ascii :=
  match s with
  | EmptyString => prev
  | String c r => last_char (Some c) r
  end.

Definition first_char (s : string) : option ascii :=
  match s with
  | EmptyString => None
  | String c _ => Some c
  end.

Fixpoint contains (c : ascii) (s : string) : bool :=
  match s with
  | EmptyString => false
  | String d r => Ascii.eqb c d || contains c r
  end.

Fixpoint all_chars (p : ascii -> bool) (s : string) : bool :=
  match s with
  | EmptyString => true
  | String c r => p c && all_chars p r
  end.

(** [b.split()] of a bytes object: the maximal runs of non-whitespace.
    [cur] is the run being read, in reverse. *)
Fixpoint rev_str (acc s : string) : string :=
  match s with
  | EmptyString => acc
  | String c r => rev_str (String c acc) r
  end.

Definition flush (cur : string) : list string :=
  match cur with
  | EmptyString => []
  | _ => [rev_str EmptyString cur]
  end.

Fixpoint split_from (cur s : string) : list string :=
  match s with
  | EmptyString => flush cur
  | String c r =>
      if is_bytes_space c then flush cur ++ split_from EmptyString r
      else split_from (String c cur) r
  end.

Definition split (s : string) : list string := split_from EmptyString s.

End Text.

(* ================================================================== *)
(** * The two regular expressions, with the matcher of [re] *)
(* ================================================================== *)

Module Re.
Import Text.

(** The pattern syntax the program uses: anchors, a literal, and a
    greedy repetition [cls{lo,}] of a character class. *)
Inductive atom : Type :=
| Bol                                      (* ^ *)
| Eol                                      (* $ *)
| WordBoundary                             (* \b *)
| Lit (c : ascii)
| Many (cls : ascii -> bool) (lo : nat).   (* cls+ is Many cls 1 *)

Definition pattern : Type := list atom.

Fixpoint span (cls : ascii -> bool) (s : string) : nat :=
  match s with
  | String c r => if cls c then S (span cls r) else 0
  | EmptyString => 0
  end.

Definition is_word_at (c : option ascii) : bool :=
  match c with
  | Some a => is_word a
  | None => false
  end.

(** The greedy repetition tries the longest run first and gives back one
    character at a time, down to [lo]. *)
Fixpoint greedy {A : Type} (attempt : nat -> option A) (lo k : nat) : option A :=
  if lo <=? k then
    match attempt k with
    | Some r => Some r
    | None =>
        match k with
        | 0 => None
        | S k' => greedy attempt lo k'
        end
    end
  else None.

(** [$] matches at the very end and before a line feed that ends the
    subject. *)
Definition at_end (s : string) : bool :=
  String.eqb s EmptyString || String.eqb s (String LF EmptyString).

Definition emit (piece : string) (r : option (list string * string))
  : option (list string * string) :=
  match r with
  | Some (pieces, rest) => Some (piece :: pieces, rest)
  | None => None
  end.

(** [match_here p prev s] matches [p] at the position whose preceding
    character is [prev] ([None] at the start of the subject) and whose
    remaining text is [s]; it returns the text matched by each atom and
    the rest of the subject. *)
Fixpoint match_here (p : pattern) (prev : option ascii) (s : string)
  : option (list string * string) :=
  match p with
  | [] => Some ([], s)
  | a :: p' =>
      match a with
      | Bol =>
          match prev with
          | None => emit EmptyString (match_here p' prev s)
          | Some _ => None
          end
      | Eol =>
          if at_end s
          then emit EmptyString (match_here p' prev s)
          else None
      | WordBoundary =>
          if xorb (is_word_at prev) (is_word_at (first_char s))
          then emit EmptyString (match_here p' prev s)
          else None
      | Lit c =>
          match s with
          | String d r =>
              if Ascii.eqb c d
              then emit (String d EmptyString) (match_here p' (Some d) r)
              else None
          | EmptyString => None
          end
      | Many cls lo =>
          greedy
            (fun k => emit (take k s)
                        (match_here p' (last_char prev (take k s)) (drop k s)))
            lo (span cls s)
      end
  end.

(** [re.match(p, s)]: the groups are read off the pieces. *)
Definition rmatch (p : pattern) (s : string) : option (list string) :=
  match match_here p None s with
  | Some (pieces, _) => Some pieces
  | None => None
  end.

Definition whole (pieces : list string) : string :=
  fold_right append EmptyString pieces.

(** [re.findall(p, s)] for a pattern without groups: scan from left to
    right, and resume after each match.  [skip] counts the characters
    of the last match that are still to be passed over. *)
Fixpoint findall_from (p : pattern) (prev : option ascii) (s : string)
                      (skip : nat) : list string :=
  let here :=
    match skip with
    | 0 => match_here p prev s
    | S _ => None
    end in
  let found :=
    match here with
    | Some (pieces, _) => [whole pieces]
    | None => []
    end in
  let skip' :=
    match here with
    | Some (pieces, _) => String.length (whole pieces)
    | None => skip
    end in
  found ++
  match s with
  | EmptyString => []
  | String c r => findall_from p (Some c) r (Nat.pred skip')
  end.

Definition findall (p : pattern) (s : string) : list string :=
  findall_from p None s 0.

End Re.

(* ================================================================== *)
(** * The processor *)
(* ================================================================== *)

Module Mtfss.
Import Text Re.

Definition ARCHIVE_FOLDER : string := "archived".

(** ** Messages and addresses *)

(** A parsed message, as far as the program looks at it: its header
    fields in order of appearance, each value a [str].  A recipient header
    that holds raw 8-bit bytes, which the parser hands out as a [Header]
    object and on which [re.findall] raises [TypeError], is outside this
    type. *)
Definition Message : Type := list (string * string).

(** [msg.get(name)]: the first field of that name, compared without
    regard to case. *)
Definition get (msg : Message) (name : string) : option string :=
  match find (fun kv => String.eqb (lower (fst kv)) (lower name)) msg with
  | Some (_, v) => Some v
  | None => None
  end.

Definition local_char (c : ascii) : bool := is_alnum c || contains c "._%+-".
Definition domain_char (c : ascii) : bool := is_alnum c || contains c ".-".
(** The class [[A-Z|a-z]] of the source: the bar is a member. *)
Definition tld_char (c : ascii) : bool :=
  is_upper c || Ascii.eqb c "|" || is_lower c.

(** [\b[A-Za-z0-9._%+-]+@[A-Za-z0-9.-]+\.[A-Z|a-z]{2,}\b] *)
Definition ADDRESS : pattern :=
  [WordBoundary; Many local_char 1; Lit "@"; Many domain_char 1; Lit ".";
   Many tld_char 2; WordBoundary].

Definition extract_recipients (msg : Message) : list string :=
  fold_left
    (fun recipients header =>
       match get msg header with
       | Some header_value =>
           if String.eqb header_value EmptyString then recipients
           else recipients ++ findall ADDRESS header_value
       | None => recipients
       end)
    ["To"; "Cc"; "Bcc"] [].

Definition not_at (c : ascii) : bool := negb (Ascii.eqb c "@").
(** The dot of a pattern matches everything but a line feed. *)
Definition not_newline (c : ascii) : bool := negb (Ascii.eqb c LF).

(** [^([^@]+)@(.+)$] *)
Definition SPLIT : pattern :=
  [Bol; Many not_at 1; Lit "@"; Many not_newline 1; Eol].

Definition parse_email_address (email_addr : string) : string * string :=
  match rmatch SPLIT (strip email_addr) with
  | Some pieces => (nth 1 pieces EmptyString, nth 3 pieces EmptyString)
  | None => (EmptyString, EmptyString)
  end.

(** ** The mail store and the other blocking calls *)

Inductive exn : Type :=
| IMAP4_error | KeyboardInterrupt | ValueError | TypeError | IndexError
| AttributeError | OSError.

Definition is_IMAP4_error (e : exn) : bool :=
  match e with IMAP4_error => true | _ => false end.

Definition is_KeyboardInterrupt (e : exn) : bool :=
  match e with KeyboardInterrupt => true | _ => false end.

(** The calls the processor makes on its collaborators: the constructor
    [IMAP4_SSL(host)], the methods of the session object, and
    [time.sleep]. *)
Inductive command : Type :=
| OPEN (host : string)
| LOGIN (user pass : string)
| CLOSE
| LOGOUT
| LIST (directory pat : string)
| CREATE (mailbox : string)
| SELECT (mailbox : string)
| SEARCH (charset : option string) (criterion : string)
| FETCH (message_set parts : string)
| COPY (message_set new_mailbox : string)
| STORE (message_set cmd flags : string)
| EXPUNGE
| SLEEP (secs : nat).

(** One element of the data list of a response: [None], a bytes object,
    or a pair whose components are bytes or [None]. *)
Inductive elem : Type :=
| ENone
| EBytes (b : string)
| ETuple (a b : option string).

Definition data : Type := option (list elem).

(** A call either returns a pair [(typ, dat)] or raises. *)
Inductive reply : Type :=
| Resp (typ : string) (dat : data)
| Raise (e : exn).

Definition event : Type := command * reply.

(** The environment answers a call from what has happened so far. *)
Definition environment : Type := list event -> command -> reply.

(** ** State *)

Record MTFSSProcessor : Type := mkProcessor {
  imap_server : string;
  username : string;
  password : string;
  primary_domain : string;
  connection : option string;      (* the session object, if any *)
  first_pass : bool
}.

(** [MTFSSProcessor.__init__] *)
Definition init (server user pass domain : string) : MTFSSProcessor :=
  mkProcessor server user pass domain None true.

Record state : Type := mkState {
  self : MTFSSProcessor;
  log : list event
}.

Definition with_connection (c : option string) (p : MTFSSProcessor) : MTFSSProcessor :=
  mkProcessor (imap_server p) (username p) (password p) (primary_domain p)
              c (first_pass p).

Definition with_first_pass (b : bool) (p : MTFSSProcessor) : MTFSSProcessor :=
  mkProcessor (imap_server p) (username p) (password p) (primary_domain p)
              (connection p) b.

(** ** The monad of methods *)

Inductive result (A : Type) : Type :=
| Ret (a : A)
| Exc (e : exn).
Arguments Ret {A} a.
Arguments Exc {A} e.

Definition M (A : Type) : Type := state -> result A * state.

Definition ret {A : Type} (a : A) : M A := fun st => (Ret a, st).

Definition raise {A : Type} (e : exn) : M A := fun st => (Exc e, st).

Definition bind {A B : Type} (m : M A) (k : A -> M B) : M B :=
  fun st =>
    match m st with
    | (Ret a, st') => k a st'
    | (Exc e, st') => (Exc e, st')
    end.

Notation "x <- m ;; k" := (bind m (fun x => k))
  (at level 61, m at next level, right associativity).
Notation "m ;; k" := (bind m (fun _ => k))
  (at level 61, right associativity).

(** [try: m except E: handler] for the exceptions selected by [catches]. *)
Definition try_except {A : Type} (m : M A) (catches : exn -> bool)
                      (handler : M A) : M A :=
  fun st =>
    match m st with
    | (Exc e, st') => if catches e then handler st' else (Exc e, st')
    | r => r
    end.

(** [try: m finally: f] for a clean-up that cannot fail. *)
Definition try_finally {A : Type} (m : M A) (f : MTFSSProcessor -> MTFSSProcessor)
  : M A :=
  fun st =>
    match m st with
    | (r, st') => (r, mkState (f (self st')) (log st'))
    end.

Definition get_self : M MTFSSProcessor := fun st => (Ret (self st), st).

Definition update (f : MTFSSProcessor -> MTFSSProcessor) : M unit :=
  fun st => (Ret tt, mkState (f (self st)) (log st)).

Definition lift {A : Type} (r : result A) : M A := fun st => (r, st).

Fixpoint for_each {A : Type} (xs : list A) (body : A -> M unit) : M unit :=
  match xs with
  | [] => ret tt
  | x :: rest => body x ;; for_each rest body
  end.

Definition OK (status : string) : bool := String.eqb status "OK".
Arguments OK status : simpl never.

(** The argument [""] (two double quotes) of [list]. *)
Definition QUOTES : string := String "034" (String "034" EmptyString).

(** [messages[0].split()] *)
Definition message_ids_of (messages : data) : result (list string) :=
  match messages with
  | None => Exc TypeError
  | Some [] => Exc IndexError
  | Some (EBytes b :: _) => Ret (split b)
  | Some (_ :: _) => Exc AttributeError
  end.

(** [msg_data[0][1]]; [Ret None] is a value that is not a bytes object. *)
Definition raw_email_of (msg_data : data) : result (option string) :=
  match msg_data with
  | None => Exc TypeError
  | Some [] => Exc IndexError
  | Some (ENone :: _) => Exc TypeError
  | Some (EBytes b :: _) =>
      if 2 <=? String.length b then Ret None else Exc IndexError
  | Some (ETuple _ body :: _) => Ret body
  end.

Arguments message_ids_of messages : simpl never.
Arguments raw_email_of msg_data : simpl never.
Arguments extract_recipients msg : simpl never.
Arguments parse_email_address email_addr : simpl never.

(** How the while loop of [run_continuous] was left after a number of
    iterations. *)
Inductive loop : Type :=
| Broken      (* left through [break] *)
| Running.    (* still going round *)

Section Methods.

Variable env : environment.
Variable message_from_bytes : string -> Message.

Definition call (c : command) : M (string * data) :=
  fun st =>
    let r := env (log st) c in
    let st' := mkState (self st) (log st ++ [(c, r)]) in
    match r with
    | Resp typ dat => (Ret (typ, dat), st')
    | Raise e => (Exc e, st')
    end.

(** A method call on [self.connection]; on [None] the attribute lookup
    fails. *)
Definition session (c : command) : M (string * data) :=
  p <- get_self ;;
  match connection p with
  | None => raise AttributeError
  | Some _ => call c
  end.

Definition connect : M bool :=
  try_except
    (p <- get_self ;;
     call (OPEN (imap_server p)) ;;
     update (with_connection (Some (imap_server p))) ;;
     session (LOGIN (username p) (password p)) ;;
     ret true)
    is_IMAP4_error
    (ret false).

Definition disconnect : M unit :=
  p <- get_self ;;
  match connection p with
  | Some _ =>
      try_finally
        (session CLOSE ;; session LOGOUT ;; ret tt)
        (with_connection None)
  | None => ret tt
  end.

Definition folder_exists (folder_name : string) : M bool :=
  p <- get_self ;;
  match connection p with
  | None => raise ValueError
  | Some _ =>
      r <- session (LIST QUOTES folder_name) ;;
      let '(status, folders) := r in
      ret (OK status &&
           match folders with
           | Some (first :: _) =>
               match first with ENone => false | _ => true end
           | _ => false
           end)
  end.

Definition create_folder (folder_name : string) : M bool :=
  p <- get_self ;;
  match connection p with
  | None => ret false
  | Some _ =>
      r <- session (CREATE folder_name) ;;
      if OK (fst r) then ret true else ret false
  end.

Definition determine_folder (user domain : string) : M string :=
  if String.eqb user EmptyString || String.eqb domain EmptyString
  then ret "unmatched"
  else
    let user_folder := capitalize user in
    let domain_folder := replace_char "." "_" (lower domain) in
    let ignore_folder := (ARCHIVE_FOLDER ++ "." ++ user_folder)%string in
    ignored <- folder_exists ignore_folder ;;
    if ignored then ret ignore_folder
    else
      p <- get_self ;;
      if String.eqb domain (primary_domain p)
      then ret ("Inbox." ++ user_folder)%string
      else ret ("Inbox." ++ user_folder ++ "@" ++ domain_folder)%string.

Definition move_email (msg_id target_folder : string) : M bool :=
  p <- get_self ;;
  match connection p with
  | None => raise ValueError
  | Some _ =>
      present <- folder_exists target_folder ;;
      (if present then ret false else create_folder target_folder) ;;
      r <- session (COPY msg_id target_folder) ;;
      if OK (fst r)
      then session (STORE msg_id "+FLAGS" "\Deleted") ;; ret true
      else ret false
  end.

(** The body of the [for] loop of [process_inbox], without its
    [try ... except]; [continue] is the early [ret tt]. *)
Definition process_message (msg_id : string) : M unit :=
  r <- session (FETCH msg_id "(RFC822)") ;;
  let '(status, msg_data) := r in
  if negb (OK status) then ret tt
  else
    raw_email <- lift (raw_email_of msg_data) ;;
    match raw_email with
    | None => ret tt
    | Some raw =>
        let msg := message_from_bytes raw in
        let recipients := extract_recipients msg in
        match recipients with
        | [] => move_email msg_id "unmatched" ;; ret tt
        | recipient :: _ =>
            let '(user, domain) := parse_email_address recipient in
            target_folder <- determine_folder user domain ;;
            move_email msg_id target_folder ;;
            ret tt
        end
    end.

(** One pass of the [for] loop: the body under its
    [try ... except IMAP4.error: continue]. *)
Definition handler (msg_id : string) : M unit :=
  try_except (process_message msg_id) is_IMAP4_error (ret tt).

Definition process_inbox : M unit :=
  p <- get_self ;;
  match connection p with
  | None => ret tt
  | Some _ =>
      session (SELECT "INBOX") ;;
      present <- folder_exists ARCHIVE_FOLDER ;;
      (if present then ret false else create_folder ARCHIVE_FOLDER) ;;
      p <- get_self ;;
      let search_type := if negb (first_pass p) then "UNSEEN" else "ALL" in
      r <- session (SEARCH None search_type) ;;
      let '(status, messages) := r in
      update (with_first_pass false) ;;
      if negb (OK status) then ret tt
      else
        message_ids <- lift (message_ids_of messages) ;;
        for_each message_ids handler ;;
        session EXPUNGE ;;
        ret tt
  end.

Definition try_connect : M bool :=
  p <- get_self ;;
  match connection p with
  | None =>
      connected <- connect ;;
      if connected then ret true else ret false
  | Some _ => ret true
  end.

(** What the loop of [run_continuous] puts under its [try]. *)
Definition attempt : M unit :=
  connected <- try_connect ;;
  if connected then process_inbox else ret tt.

(** One turn of the [while True] loop: [true] when the loop goes on,
    [false] when it is left through [break]. *)
Definition iteration (check_interval : nat) : M bool :=
  interrupted <-
    try_except (attempt ;; ret false) is_KeyboardInterrupt (ret true) ;;
  if interrupted then ret false
  else call (SLEEP check_interval) ;; ret true.

(** [run_continuous], for at most [turns] turns of its loop. *)
Fixpoint run_continuous (turns check_interval : nat) : M loop :=
  match turns with
  | 0 => ret Running
  | S n =>
      go_on <- iteration check_interval ;;
      if go_on then run_continuous n check_interval else ret Broken
  end.

(** The public methods, and a process lifetime as a sequence of calls
    on one processor by a caller that carries on after an exception. *)
Inductive method : Type :=
| Connect
| Disconnect
| ProcessInbox
| RunContinuous (turns check_interval : nat).

Definition invoke (m : method) : M unit :=
  match m with
  | Connect => connect ;; ret tt
  | Disconnect => disconnect
  | ProcessInbox => process_inbox
  | RunContinuous turns check_interval =>
      run_continuous turns check_interval ;; ret tt
  end.

Fixpoint lifetime (ms : list method) (st : state) : state :=
  match ms with
  | [] => st
  | m :: rest => lifetime rest (snd (invoke m st))
  end.

End Methods.

End Mtfss.

(* ================================================================== *)
(** * What a run leaves in the log *)
(* ================================================================== *)

Module Trace.
Import Text Re Mtfss.

Definition raised (e : event) : bool :=
  match snd e with Raise _ => true | Resp _ _ => false end.

Definition is_search (e : event) : bool :=
  match fst e with SEARCH _ _ => true | _ => false end.

Definition is_expunge (e : event) : bool :=
  match fst e with EXPUNGE => true | _ => false end.

Definition is_store (e : event) : bool :=
  match fst e with STORE _ _ _ => true | _ => false end.

Definition is_sleep (e : event) : bool :=
  match fst e with SLEEP _ => true | _ => false end.

(** A search call that came back with a response, whatever its status. *)
Definition search_returned (e : event) : bool :=
  is_search e && negb (raised e).

(** A search call that came back with status OK. *)
Definition search_succeeded (e : event) : bool :=
  is_search e && match snd e with Resp typ _ => OK typ | Raise _ => false end.

(** The scopes of the searches issued, in order. *)
Definition criteria (t : list event) : list string :=
  flat_map (fun e => match fst e with SEARCH _ c => [c] | _ => [] end) t.

(** The calls of a sweep before its search. *)
Definition setup_event (e : event) : bool :=
  match fst e with
  | SELECT _ | LIST _ _ | CREATE _ => true
  | _ => false
  end.

(** The calls that route and relocate the message [msg_id]. *)
Definition relocation_event (msg_id : string) (e : event) : bool :=
  match fst e with
  | LIST _ _ | CREATE _ => true
  | COPY m _ => String.eqb m msg_id
  | STORE m _ _ => String.eqb m msg_id
  | _ => false
  end.

Definition copies (msg_id : string) (e : event) : bool :=
  match fst e with
  | COPY m _ => String.eqb m msg_id
  | _ => false
  end.

Definition copied_ok (msg_id : string) (e : event) : bool :=
  copies msg_id e && match snd e with Resp typ _ => OK typ | Raise _ => false end.

Definition flags_deleted (msg_id : string) (e : event) : bool :=
  match fst e with
  | STORE m c f =>
      String.eqb m msg_id && String.eqb c "+FLAGS" && String.eqb f "\Deleted"
  | _ => false
  end.

(** The fetch came back with status OK and a bytes body. *)
Definition fetched_bytes (r : reply) : bool :=
  match r with
  | Resp typ dat =>
      OK typ && match raw_email_of dat with Ret (Some _) => true | _ => false end
  | Raise _ => false
  end.

(** The part of a sweep's log that belongs to one message: its fetch,
    then only calls that relocate it.  A message that could not be
    fetched as bytes is left alone; one that was, and met no error on the
    way, is copied; a copy that succeeded is followed by the deletion
    flag. *)
Definition handled (msg_id : string) (seg : list event) : Prop :=
  exists rep tl,
    seg = (FETCH msg_id "(RFC822)", rep) :: tl /\
    forallb (relocation_event msg_id) tl = true /\
    (fetched_bytes rep = false -> tl = []) /\
    (fetched_bytes rep = true -> existsb raised tl = false ->
     existsb (copies msg_id) tl = true) /\
    (existsb (copied_ok msg_id) tl = true ->
     existsb (flags_deleted msg_id) tl = true).

(** The environment raises nothing but protocol errors. *)
Definition only_protocol_errors (env : environment) : Prop :=
  forall h c e, env h c = Raise e -> e = IMAP4_error.

(** Every fetch that comes back OK carries a payload with a body slot
    (bytes or not). *)
Definition fetch_has_body (env : environment) : Prop :=
  forall h m parts typ dat,
    env h (FETCH m parts) = Resp typ dat -> OK typ = true ->
    exists body, raw_email_of dat = Ret body.

(** The calls made for one message of a sweep. *)
Definition message_event (e : event) : bool :=
  match fst e with
  | FETCH _ _ | LIST _ _ | CREATE _ | COPY _ _ | STORE _ _ _ => true
  | _ => false
  end.

(** Where an exception that leaves a sweep comes from: a call raised it,
    or a fetched payload has no body slot, or the search response holds
    no list of message numbers. *)
Definition escapes (env : environment) (e : exn) : Prop :=
  (exists h c, env h c = Raise e) \/
  (exists h m parts typ dat,
     env h (FETCH m parts) = Resp typ dat /\ OK typ = true /\
     raw_email_of dat = Exc e).

(** The sweeps of a connected processor, as a relation between the
    scope searched, the calls made, the outcome, and whether the search
    came back with a response. *)
Inductive sweep (env : environment) (scope : string)
  : list event -> result unit -> bool -> Prop :=
| sweep_setup_raised pre e :
    forallb setup_event pre = true ->
    escapes env e ->
    sweep env scope pre (Exc e) false
| sweep_search_raised pre e :
    forallb setup_event pre = true ->
    sweep env scope (pre ++ [(SEARCH None scope, Raise e)]) (Exc e) false
| sweep_search_refused pre typ dat :
    forallb setup_event pre = true ->
    OK typ = false ->
    sweep env scope (pre ++ [(SEARCH None scope, Resp typ dat)]) (Ret tt) true
| sweep_search_unreadable pre typ dat e :
    forallb setup_event pre = true ->
    OK typ = true ->
    message_ids_of dat = Exc e ->
    sweep env scope (pre ++ [(SEARCH None scope, Resp typ dat)]) (Exc e) true
| sweep_escaped pre typ dat ids segs e :
    forallb setup_event pre = true ->
    OK typ = true ->
    message_ids_of dat = Ret ids ->
    Forall2 handled (firstn (length segs) ids) segs ->
    escapes env e ->
    e <> IMAP4_error ->
    sweep env scope
      (pre ++ (SEARCH None scope, Resp typ dat) :: concat segs) (Exc e) true
| sweep_completed pre typ dat ids segs rep :
    forallb setup_event pre = true ->
    OK typ = true ->
    message_ids_of dat = Ret ids ->
    Forall2 handled ids segs ->
    sweep env scope
      (pre ++ (SEARCH None scope, Resp typ dat) :: concat segs ++ [(EXPUNGE, rep)])
      (match rep with Raise e => Exc e | Resp _ _ => Ret tt end) true.

(** Every search in the log asks for ALL as long as no search has come
    back, and for UNSEEN from then on; [seen] tells whether one has. *)
Fixpoint scopes_follow (seen : bool) (t : list event) : bool :=
  match t with
  | [] => true
  | e :: rest =>
      match fst e with
      | SEARCH _ c =>
          String.eqb c (if seen then "UNSEEN" else "ALL") &&
          scopes_follow (seen || negb (raised e)) rest
      | _ => scopes_follow seen rest
      end
  end.

(** From [st] to [st'] the log grew, the flag fell exactly if a search
    came back in between, and the searches in between followed the
    flag. *)
Definition tracks (st st' : state) : Prop :=
  exists t,
    log st' = log st ++ t /\
    first_pass (self st') = first_pass (self st) && negb (existsb search_returned t) /\
    scopes_follow (negb (first_pass (self st))) t = true.

(** The scope a sweep of this processor will search. *)
Definition scope_of (p : MTFSSProcessor) : string :=
  if negb (first_pass p) then "UNSEEN" else "ALL".

End Trace.

(* ================================================================== *)
(** * Concrete stores *)
(* ================================================================== *)

Module Scenario.
Import Text Re Mtfss.

(** The processor of the test suite, before and after it connected. *)
Definition fresh : state :=
  mkState (init "imap.example.com" "test@example.com" "password" "example.com") [].

Definition connected : state :=
  mkState (with_connection (Some "imap.example.com") (self fresh)) [].

(** A parser for the scenarios: the payload is the value of [To]. *)
Definition to_header (raw : string) : Message := [("To", raw)].

(** A store that accepts every command, has no folder and no message. *)
Definition empty_store : environment :=
  fun _ c =>
    match c with
    | LIST _ _ => Resp "OK" (Some [ENone])
    | SEARCH _ _ => Resp "OK" (Some [EBytes ""])
    | _ => Resp "OK" (Some [])
    end.

(** A store in which the folder [archived.John] exists. *)
Definition john_archived : environment :=
  fun h c =>
    match c with
    | LIST _ "archived.John" => Resp "OK" (Some [EBytes "() . archived.John"])
    | _ => empty_store h c
    end.

(** A store that refuses every copy. *)
Definition copy_refused : environment :=
  fun h c =>
    match c with
    | COPY _ _ => Resp "NO" (Some [EBytes "copy failed"])
    | _ => empty_store h c
    end.

(** A store on which the create command raises a protocol error. *)
Definition create_raises : environment :=
  fun h c =>
    match c with
    | CREATE _ => Raise IMAP4_error
    | _ => empty_store h c
    end.

(** A store on which the select raises a protocol error. *)
Definition select_raises : environment :=
  fun h c =>
    match c with
    | SELECT _ => Raise IMAP4_error
    | _ => empty_store h c
    end.

(** A store that refuses the first search it is asked and accepts the
    later ones. *)
Definition search_refused_once : environment :=
  fun h c =>
    match c with
    | SEARCH _ _ =>
        if existsb Trace.is_search h then Resp "OK" (Some [EBytes ""])
        else Resp "NO" (Some [EBytes "try again"])
    | _ => empty_store h c
    end.

(** Four messages: the second cannot be fetched, the fetch of the fourth
    raises a protocol error. *)
Definition flaky_store : environment :=
  fun h c =>
    match c with
    | SEARCH _ _ => Resp "OK" (Some [EBytes "1 2 3 4"])
    | FETCH m _ =>
        if String.eqb m "2" then Resp "NO" (Some [ENone])
        else if String.eqb m "4" then Raise IMAP4_error
        else Resp "OK" (Some [ETuple (Some "RFC822") (Some "john@example.com"); EBytes ")"])
    | _ => empty_store h c
    end.

(** An interrupt arrives while the loop sleeps. *)
Definition interrupt_in_sleep : environment :=
  fun h c =>
    match c with
    | SLEEP _ => Raise KeyboardInterrupt
    | _ => empty_store h c
    end.

(** An interrupt arrives while the sweep searches. *)
Definition interrupt_in_sweep : environment :=
  fun h c =>
    match c with
    | SEARCH _ _ => Raise KeyboardInterrupt
    | _ => empty_store h c
    end.

End Scenario.

(* ================================================================== *)
(** * The specification's wording, where it is compared with the code *)
(* ================================================================== *)

Module Wording.
Import Text Mtfss.

(** "first character uppercased, rest unchanged" *)
Definition capitalize_first (s : string) : string :=
  match s with
  | EmptyString => EmptyString
  | String c r => String (upper_char c) r
  end.

(** "local-part of one or more of [A-Za-z0-9._%+-], an @, a domain of one
    or more of [A-Za-z0-9.-], a dot, and a top-level label of at least two
    alphabetic characters" *)
Definition valid_address (s : string) : Prop :=
  exists local domain label,
    s = (local ++ "@" ++ domain ++ "." ++ label)%string /\
    1 <= String.length local /\ all_chars local_char local = true /\
    1 <= String.length domain /\ all_chars domain_char domain = true /\
    2 <= String.length label /\ all_chars is_alpha label = true.

(** The address pattern with that top-level label. *)
Definition ADDRESS_AS_SPECIFIED : Re.pattern :=
  [Re.WordBoundary; Re.Many local_char 1; Re.Lit "@"; Re.Many domain_char 1;
   Re.Lit "."; Re.Many is_alpha 2; Re.WordBoundary].

(** A character that can occur in a valid address at all. *)
Definition address_char (c : ascii) : bool :=
  local_char c || domain_char c || is_alpha c ||
  Ascii.eqb c "@" || Ascii.eqb c ".".

End Wording.

(* ================================================================== *)
(** * Invariants of the log *)
(* ================================================================== *)

Module Invariant.
Import Text Mtfss Trace.

(** Whatever state [m] starts from, the calls it adds satisfy [P], and
    the value it returns, if it returns one, satisfies [Q]. *)
Definition emits {A : Type} (m : M A) (P : list event -> Prop) (Q : A -> Prop)
  : Prop :=
  forall st r st',
    m st = (r, st') ->
    (exists t, log st' = log st ++ t /\ P t) /\
    (forall a, r = Ret a -> Q a).

Definition anything {A : Type} (a : A) : Prop := True.

(** A store command sets the deletion flag, and comes directly after a
    copy of the same message that the store answered with OK. *)
Definition flag_follows_copy (prev : option event) (e : event) : bool :=
  match fst e with
  | STORE m c f =>
      String.eqb c "+FLAGS" && String.eqb f "\Deleted" &&
      match prev with
      | Some p => copied_ok m p
      | None => false
      end
  | _ => true
  end.

Fixpoint flags_follow_copies (prev : option event) (t : list event) : bool :=
  match t with
  | [] => true
  | e :: rest => flag_follows_copy prev e && flags_follow_copies (Some e) rest
  end.

(** The folders the program has to do with: those [determine_folder]
    answers, and the archive root. *)
Definition routed (name : string) : bool :=
  String.eqb name "unmatched" ||
  String.prefix "archived." name || String.prefix "Inbox." name.

Definition known_folder (name : string) : bool :=
  String.eqb name ARCHIVE_FOLDER || routed name.

Definition touches_known (e : event) : bool :=
  match fst e with
  | SELECT mailbox => String.eqb mailbox "INBOX"
  | LIST directory name => String.eqb directory QUOTES && known_folder name
  | CREATE name => known_folder name
  | COPY _ name => routed name
  | _ => true
  end.

(** The sleeps of a log, in order. *)
Definition sleeps (t : list event) : list nat :=
  flat_map (fun e => match fst e with SLEEP n => [n] | _ => [] end) t.

(** A command that names a message names one of [ids]. *)
Definition about_message (ids : list string) (e : event) : bool :=
  match fst e with
  | FETCH m _ | COPY m _ | STORE m _ _ => existsb (String.eqb m) ids
  | _ => true
  end.

End Invariant.

Module Visits.
Import Text Mtfss Trace.

(** The message numbers a search of the log came back with, status OK. *)
Definition listed (t : list event) : list string :=
  flat_map
    (fun e =>
       match e with
       | (SEARCH _ _, Resp typ dat) =>
           if OK typ then
             match message_ids_of dat with Ret ids => ids | Exc _ => [] end
           else []
       | _ => []
       end) t.

(** The message numbers fetched, in order. *)
Definition fetched (t : list event) : list string :=
  flat_map (fun e => match fst e with FETCH m _ => [m] | _ => [] end) t.

End Visits.

(* ================================================================== *)
(** * The session object of [imaplib] *)
(* ================================================================== *)

Module Session.
Import Text Mtfss.

(** An [IMAP4_SSL] object keeps the state of its session in the
    attribute [state]: [LOGOUT] while it is being constructed, [NONAUTH]
    after the greeting ([AUTH] after a [PREAUTH] greeting), [AUTH] once
    [login] has come back, [SELECTED] after a [select] answered OK and
    [AUTH] after one answered otherwise, [AUTH] after [close] however it
    ends, [LOGOUT] from the start of [logout].  A call that raises
    leaves the state as it was, these two apart. *)
Definition next_state (s : string) (e : event) : string :=
  match e with
  | (OPEN _, Resp typ _) => if String.eqb typ "PREAUTH" then "AUTH" else "NONAUTH"
  | (LOGIN _ _, Resp _ _) => "AUTH"
  | (SELECT _, Resp typ _) => if OK typ then "SELECTED" else "AUTH"
  | (CLOSE, _) => "AUTH"
  | (LOGOUT, _) => "LOGOUT"
  | _ => s
  end.

(** The attribute [state] after the calls of [h]. *)
Definition imaplib_state (h : list event) : string :=
  fold_left next_state h "LOGOUT".

(** The table [Commands]: the states in which a command may be given.
    The constructor and the sleep are no commands of a session. *)
Definition allowed (s : string) (c : command) : bool :=
  match c with
  | OPEN _ | SLEEP _ | LOGOUT => true
  | LOGIN _ _ => String.eqb s "NONAUTH"
  | LIST _ _ | CREATE _ | SELECT _ =>
      String.eqb s "AUTH" || String.eqb s "SELECTED"
  | CLOSE | SEARCH _ _ | FETCH _ _ | COPY _ _ | STORE _ _ _ | EXPUNGE =>
      String.eqb s "SELECTED"
  end.

(** [_command] raises [IMAP4.error], before anything is sent, for a
    command that is not allowed in the state of the session. *)
Definition imaplib_session (env : environment) : Prop :=
  forall h c, allowed (imaplib_state h) c = false -> env h c = Raise IMAP4_error.

(** The calls of a sweep between its select and its first message. *)
Definition before_messages (e : event) : bool :=
  match fst e with
  | LIST _ _ | CREATE _ | SEARCH _ _ => true
  | _ => false
  end.

(** The server [server] seen through a session object. *)
Definition behind_session (server : environment) : environment :=
  fun h c =>
    if allowed (imaplib_state h) c then server h c else Raise IMAP4_error.

End Session.

(* ================================================================== *)
(** * Further stores *)
(* ================================================================== *)

Module Cases.
Import Text Mtfss.

(** A server that accepts the connection and rejects the credentials. *)
Definition login_refused : environment :=
  fun h c =>
    match c with
    | LOGIN _ _ => Raise IMAP4_error
    | _ => Scenario.empty_store h c
    end.

(** A store that refuses to set flags. *)
Definition store_refused : environment :=
  fun h c =>
    match c with
    | STORE _ _ _ => Resp "NO" (Some [EBytes "read-only mailbox"])
    | _ => Scenario.empty_store h c
    end.

(** A store that refuses to create folders. *)
Definition create_refused : environment :=
  fun h c =>
    match c with
    | CREATE _ => Resp "NO" (Some [EBytes "quota exceeded"])
    | _ => Scenario.empty_store h c
    end.

(** A server whose greeting the constructor rejects, so that
    [IMAP4_SSL(...)] raises [IMAP4.error].  (A host that cannot be
    reached at all makes it raise [OSError], which [connect] does not
    catch.) *)
Definition unreachable : environment :=
  fun h c =>
    match c with
    | OPEN _ => Raise IMAP4_error
    | _ => Scenario.empty_store h c
    end.

(** The processor of the test suite after [connect], with the handshake
    in its log. *)
Definition logged_in : state :=
  mkState (with_connection (Some "imap.example.com") (self Scenario.fresh))
    [(OPEN "imap.example.com", Resp "OK" (Some []));
     (LOGIN "test@example.com" "password", Resp "OK" (Some []))].

(** A server without the mailbox INBOX: it answers the select with NO. *)
Definition inbox_missing : environment :=
  fun h c =>
    match c with
    | SELECT _ => Resp "NO" (Some [EBytes "Mailbox does not exist"])
    | _ => Scenario.empty_store h c
    end.

(** Three messages, the first and the third addressed to
    john@example.com; the fetch of the second comes back OK without any
    data, which [imaplib] hands out as [[None]]. *)
Definition missing_payload : environment :=
  fun h c =>
    match c with
    | SEARCH _ _ => Resp "OK" (Some [EBytes "1 2 3"])
    | FETCH m _ =>
        if String.eqb m "2" then Resp "OK" (Some [ENone])
        else Resp "OK" (Some [ETuple (Some "RFC822") (Some "john@example.com");
                              EBytes ")"])
    | _ => Scenario.empty_store h c
    end.

(** What [folder_exists] makes of a response to [list]. *)
Definition lists_folder (r : reply) : bool :=
  match r with
  | Resp status (Some (first :: _)) =>
      OK status && match first with ENone => false | _ => true end
  | _ => false
  end.

End Cases.

(* ================================================================== *)
(** * The entry point *)
(* ================================================================== *)

Module Main.
Import Text Mtfss.

(** The namespace [parser.parse_args()] returns.  The options [--server],
    [--username] and [--domain] are required, so they are strings
    (possibly empty); [--password] is [None] when not given.  The
    interval is taken to be non-negative. *)
Record Args : Type := mkArgs {
  arg_server : string;
  arg_username : string;
  arg_password : option string;
  arg_domain : string;
  arg_interval : nat;
  arg_once : bool
}.

(** What [parser.parse_args()] does with the command line: it returns
    the namespace, or it exits, with status 2 after a usage error (a
    required option is missing, the interval is no integer, an option is
    unknown) and with status 0 after printing the help. *)
Inductive parse_result : Type :=
| Namespace (args : Args)
| UsageError
| Help.

(** A value, or [sys.exit(code)]. *)
Inductive exit_or (A : Type) : Type :=
| Value (a : A)
| SysExit (code : nat).
Arguments Value {A} a.
Arguments SysExit {A} code.

(** How a run of [main] ends: it returns, it exits with a status, an
    exception leaves it, or its loop is still going round. *)
Inductive outcome : Type :=
| Returned
| Exit (code : nat)
| Raised (e : exn)
| Looping.

(** The truth value of an optional string. *)
Definition truthy (s : option string) : bool :=
  match s with
  | Some (String _ _) => true
  | _ => false
  end.

Definition is_close (e : event) : bool :=
  match fst e with CLOSE | LOGOUT => true | _ => false end.

Definition is_handshake (e : event) : bool :=
  match fst e with OPEN _ | LOGIN _ _ => true | _ => false end.

Section Program.

(** [os.getenv], the store with its parser, and the attribute [state] of
    the session object as a function of what has happened on it.  The
    command line enters through what [parse_args] made of it. *)
Variable getenv : string -> option string.
Variable env : environment.
Variable message_from_bytes : string -> Message.
Variable state_of : list event -> string.

Definition process_arg (arg_value : option string) (env_var arg_name : string)
  : exit_or string :=
  match arg_value with
  | Some (String c r) => Value (String c r)
  | _ =>
      match getenv env_var with
      | Some (String c r) => Value (String c r)
      | _ => SysExit 1
      end
  end.

(** The [try] block of [main]: one sweep, or the loop for [turns]
    turns. *)
Definition serve (args : Args) (turns : nat) : M (option loop) :=
  if arg_once args
  then process_inbox env message_from_bytes ;; ret None
  else l <- run_continuous env message_from_bytes turns (arg_interval args) ;;
       ret (Some l).

(** The [finally] block of [main]. *)
Definition cleanup : M unit :=
  fun st =>
    match connection (self st) with
    | Some _ =>
        if String.eqb (state_of (log st)) "LOGOUT" then disconnect env st
        else (Ret tt, st)
    | None => (Ret tt, st)
    end.

Definition main (parsed : parse_result) (turns : nat) : outcome * option state :=
  match parsed with
  | UsageError => (Exit 2, None)
  | Help => (Exit 0, None)
  | Namespace args =>
  match process_arg (Some (arg_username args)) "IMAP_USERNAME" "username" with
  | SysExit code => (Exit code, None)
  | Value username =>
  match process_arg (arg_password args) "IMAP_PASSWORD" "password" with
  | SysExit code => (Exit code, None)
  | Value password =>
  match process_arg (Some (arg_domain args)) "PRIMARY_DOMAIN" "domain" with
  | SysExit code => (Exit code, None)
  | Value domain =>
  match process_arg (Some (arg_server args)) "IMAP_SERVER" "server" with
  | SysExit code => (Exit code, None)
  | Value server =>
      let processor := mkState (init server username password domain) [] in
      match connect env processor with
      | (Exc e, st) => (Raised e, Some st)
      | (Ret false, st) => (Exit 1, Some st)
      | (Ret true, st) =>
          match serve args turns st with
          | (Ret (Some Running), st1) => (Looping, Some st1)
          | (r, st1) =>
              match cleanup st1, r with
              | (Exc e, st2), _ => (Raised e, Some st2)
              | (Ret _, st2), Exc e => (Raised e, Some st2)
              | (Ret _, st2), Ret _ => (Returned, Some st2)
              end
          end
      end
  end end end end
  end.

End Program.

End Main.

(* ================================================================== *)
(** * The configuration of a processor *)
(* ================================================================== *)

Module Config.
Import Text Mtfss.

(** The four attributes set from the arguments of [__init__]. *)
Definition same_config (p q : MTFSSProcessor) : Prop :=
  imap_server q = imap_server p /\ username q = username p /\
  password q = password p /\ primary_domain q = primary_domain p.

(** [m] leaves them as they are. *)
Definition keeps {A : Type} (m : M A) : Prop :=
  forall st r st', m st = (r, st') -> same_config (self st) (self st').

(** The value [process_arg] settles on when it does not exit. *)
Definition chosen (getenv : string -> option string) (arg_value : option string)
           (env_var : string) : string :=
  match arg_value with
  | Some (String c r) => String c r
  | _ => match getenv env_var with Some v => v | None => EmptyString end
  end.

End Config.

(* ================================================================== *)
(** * Command lines and session objects for concrete runs *)
(* ================================================================== *)

Module Runs.
Import Text Mtfss Main.

(** An environment without variables, and one that holds the password. *)
Definition no_variables : string -> option string := fun _ => None.

Definition password_variable : string -> option string :=
  fun name => if String.eqb name "IMAP_PASSWORD" then Some "secret" else None.

(** [-s imap.example.com -u test@example.com -d example.com --once] *)
Definition once_without_password : Args :=
  mkArgs "imap.example.com" "test@example.com" None "example.com" 300 true.

End Runs.

(* ================================================================== *)
(** * Properties *)
(* ================================================================== *)

Import Text Re Mtfss Trace Scenario Wording.

(** ** Runs of a character class *)

Lemma take_drop (n : nat) (s : string) : (take n s ++ drop n s)%string = s.
Proof.
  revert s. induction n as [|n IH]; intros [|c r]; cbn; try reflexivity.
  rewrite IH. reflexivity.
Qed.

Lemma span_all (cls : ascii -> bool) (s : string) :
  all_chars cls (take (span cls s) s) = true.
Proof.
  induction s as [|c r IH]; cbn; [reflexivity|].
  destruct (cls c) eqn:E; cbn; [rewrite E, IH|]; reflexivity.
Qed.

Lemma inside_span (cls : ascii -> bool) (s : string) :
  forall k, k < span cls s ->
            exists d r, drop k s = String d r /\ cls d = true.
Proof.
  induction s as [|c r IH]; cbn; intros k Hk; [lia|].
  destruct (cls c) eqn:E; [|lia].
  destruct k as [|k]; cbn.
  - exists c, r. auto.
  - apply IH. lia.
Qed.

Lemma span_app (cls : ascii -> bool) (a rest : string) :
  all_chars cls a = true ->
  match rest with EmptyString => True | String c _ => cls c = false end ->
  span cls (a ++ rest) = String.length a /\
  take (String.length a) (a ++ rest) = a /\
  drop (String.length a) (a ++ rest) = rest.
Proof.
  intros Ha Hrest. induction a as [|c a IH]; cbn.
  - destruct rest as [|d r]; cbn; [auto|]. rewrite Hrest. auto.
  - cbn in Ha. apply andb_true_iff in Ha. destruct Ha as [Hc Ha].
    rewrite Hc. destruct (IH Ha) as (I1 & I2 & I3). rewrite I1, I2, I3. auto.
Qed.

(** ** The greedy repetition *)

Lemma greedy_last {A : Type} (attempt : nat -> option A) (lo : nat) :
  forall n, (forall k, k < n -> attempt k = None) ->
            greedy attempt lo n = if lo <=? n then attempt n else None.
Proof.
  intros n. induction n as [|n IH]; intros Hk; cbn [greedy].
  - destruct (lo <=? 0); [|reflexivity]. destruct (attempt 0); reflexivity.
  - destruct (lo <=? S n); [|reflexivity].
    destruct (attempt (S n)) as [r|] eqn:E; [reflexivity|].
    rewrite IH by (intros k Hlt; apply Hk; lia).
    rewrite (Hk n) by lia. destruct (lo <=? n); reflexivity.
Qed.

(** A repetition followed by a literal outside its class can only end
    where the run ends. *)
Lemma many_then_lit (cls : ascii -> bool) (lo : nat) (c : ascii) (p : pattern)
      (prev : option ascii) (s : string) :
  cls c = false ->
  match_here (Many cls lo :: Lit c :: p) prev s =
    if lo <=? span cls s
    then emit (take (span cls s) s)
              (match_here (Lit c :: p) (last_char prev (take (span cls s) s))
                          (drop (span cls s) s))
    else None.
Proof.
  intros Hc. cbn [match_here]. rewrite greedy_last; [reflexivity|].
  intros k Hk. destruct (inside_span cls s k Hk) as (d & r & -> & Hd).
  destruct (Ascii.eqb_spec c d) as [->|_]; [congruence|reflexivity].
Qed.

(** A repetition that excludes the line feed, followed by [$], takes the
    whole run. *)
Lemma many_then_eol (cls : ascii -> bool) (lo : nat) (prev : option ascii)
      (s : string) :
  cls LF = false ->
  match_here [Many cls lo; Eol] prev s =
    if (lo <=? span cls s) && at_end (drop (span cls s) s)
    then Some ([take (span cls s) s; EmptyString], drop (span cls s) s)
    else None.
Proof.
  intros Hc. cbn [match_here]. rewrite greedy_last.
  - destruct (lo <=? span cls s); [|reflexivity]. cbn [andb].
    destruct (at_end _); reflexivity.
  - intros k Hk. destruct (inside_span cls s k Hk) as (d & r & -> & Hd).
    unfold at_end. cbn.
    destruct (Ascii.eqb_spec d LF) as [->|_]; [congruence|].
    reflexivity.
Qed.

(** ** [parse_email_address] *)

Lemma span_whole (cls : ascii -> bool) (b : string) :
  all_chars cls b = true ->
  span cls b = String.length b /\ take (String.length b) b = b /\
  drop (String.length b) b = EmptyString.
Proof.
  induction b as [|c b IH]; cbn; [auto|].
  intros H. apply andb_true_iff in H. destruct H as [Hc Hb].
  rewrite Hc. destruct (IH Hb) as (I1 & I2 & I3). rewrite I1, I2, I3. auto.
Qed.

Lemma span_positive (cls : ascii -> bool) (s : string) :
  1 <= span cls s -> take (span cls s) s <> EmptyString.
Proof.
  destruct s as [|c r]; cbn; [lia|].
  destruct (cls c); cbn; [discriminate|lia].
Qed.

Lemma contains_none (c : ascii) (s : string) :
  contains c s = false <-> all_chars (fun d => negb (Ascii.eqb d c)) s = true.
Proof.
  induction s as [|d r IH]; cbn; [tauto|].
  rewrite (Ascii.eqb_sym c d). destruct (Ascii.eqb d c); cbn; [split; discriminate|exact IH].
Qed.

Lemma rmatch_SPLIT (t : string) :
  rmatch SPLIT t =
    if 1 <=? span not_at t then
      match drop (span not_at t) t with
      | String c t2 =>
          if Ascii.eqb "@" c then
            if (1 <=? span not_newline t2) && at_end (drop (span not_newline t2) t2)
            then Some [EmptyString; take (span not_at t) t; String c EmptyString;
                       take (span not_newline t2) t2; EmptyString]
            else None
          else None
      | EmptyString => None
      end
    else None.
Proof.
  unfold rmatch, SPLIT.
  change (match_here (Bol :: ?p) None t) with (emit EmptyString (match_here p None t)).
  rewrite many_then_lit by reflexivity.
  destruct (1 <=? span not_at t); [|reflexivity].
  destruct (drop (span not_at t) t) as [|c t2]; [reflexivity|].
  change (match_here (Lit ?a :: ?p) ?prev (String c t2))
    with (if Ascii.eqb a c then emit (String c EmptyString) (match_here p (Some c) t2)
          else None).
  destruct (Ascii.eqb "@" c); [|reflexivity].
  rewrite many_then_eol by reflexivity.
  destruct (_ && _); reflexivity.
Qed.

Lemma append_empty (s : string) : (s ++ EmptyString)%string = s.
Proof. induction s as [|c s IH]; cbn; [|rewrite IH]; reflexivity. Qed.

Lemma append_assoc (a b c : string) :
  ((a ++ b) ++ c)%string = (a ++ b ++ c)%string.
Proof. induction a as [|d a IH]; cbn; [|rewrite IH]; reflexivity. Qed.

Lemma split_matches (a b : string) :
  a <> EmptyString -> b <> EmptyString ->
  contains "@" a = false -> contains LF b = false ->
  rmatch SPLIT (a ++ "@" ++ b) =
    Some [EmptyString; a; String "@" EmptyString; b; EmptyString].
Proof.
  intros Ha Hb Hat Hlf.
  apply contains_none in Hat. apply contains_none in Hlf.
  rewrite rmatch_SPLIT.
  destruct (span_app not_at a ("@" ++ b) Hat eq_refl) as (S1 & S2 & S3).
  destruct (span_whole not_newline b Hlf) as (T1 & T2 & T3).
  rewrite S1, S2, S3. cbn [append].
  destruct a as [|c a]; [congruence|]. cbn [String.length Nat.leb].
  change (Ascii.eqb "@" "@") with true. cbv iota.
  rewrite T1, T2, T3.
  destruct b as [|d b]; [congruence|]. reflexivity.
Qed.

Lemma split_matched (t : string) (pieces : list string) :
  rmatch SPLIT t = Some pieces ->
  exists a b,
    pieces = [EmptyString; a; String "@" EmptyString; b; EmptyString] /\
    a <> EmptyString /\ b <> EmptyString /\
    contains "@" a = false /\ contains LF b = false /\
    (t = (a ++ "@" ++ b)%string \/
     t = (a ++ "@" ++ b ++ String LF EmptyString)%string).
Proof.
  rewrite rmatch_SPLIT.
  destruct (1 <=? span not_at t) eqn:Hn; [|discriminate].
  pose proof (take_drop (span not_at t) t) as Ht.
  destruct (drop (span not_at t) t) as [|c t2]; [discriminate|].
  destruct (Ascii.eqb_spec "@"%char c) as [<-|_]; [|discriminate].
  destruct (1 <=? span not_newline t2) eqn:Hm; [|discriminate]. cbn [andb].
  destruct (at_end (drop (span not_newline t2) t2)) eqn:He; [|discriminate].
  intros H. inversion H. subst pieces. clear H.
  apply Nat.leb_le in Hn, Hm.
  exists (take (span not_at t) t), (take (span not_newline t2) t2).
  split; [reflexivity|].
  split; [apply span_positive; exact Hn|].
  split; [apply span_positive; exact Hm|].
  split; [apply contains_none; apply (span_all not_at)|].
  split; [apply contains_none; apply (span_all not_newline)|].
  pose proof (take_drop (span not_newline t2) t2) as Ht2.
  unfold at_end in He. apply orb_true_iff in He.
  destruct He as [He|He]; apply String.eqb_eq in He; rewrite He in Ht2.
  - left. rewrite append_empty in Ht2. rewrite Ht2. symmetry. exact Ht.
  - right. rewrite Ht2. symmetry. exact Ht.
Qed.

(** ** [strip] leaves no white space at the end *)

Lemma rstrip_last (s : string) (c : ascii) :
  last_char None (rstrip s) = Some c -> is_space c = false.
Proof.
  induction s as [|d r IH]; cbn [rstrip]; [discriminate|].
  destruct (rstrip r) as [|e r'] eqn:E.
  - destruct (is_space d) eqn:Hd; cbn; [discriminate|].
    intros H. inversion H. subst. exact Hd.
  - cbn [last_char]. intros H. apply IH. exact H.
Qed.

Lemma last_char_append (p : option ascii) (x : string) (c : ascii) :
  last_char p (x ++ String c EmptyString) = Some c.
Proof.
  revert p. induction x as [|d x IH]; intros p; cbn; [reflexivity|apply IH].
Qed.

Lemma strip_not_before_newline (s x : string) :
  strip s <> (x ++ String LF EmptyString)%string.
Proof.
  intros H. pose proof (rstrip_last (lstrip s) LF) as Hl.
  unfold strip in H. rewrite H, last_char_append in Hl.
  specialize (Hl eq_refl). discriminate Hl.
Qed.

(** C5, as the code has it.  Let [t] be the argument without its leading
    and trailing white space.  If [t] is [a@b] with [a] and [b] non-empty,
    no ["@"] in [a] and no line feed in [b], the result is [(a, b)]; in
    every other case it is the pair of empty strings.  So the result has
    both fields non-empty or both empty, and the split is on the first
    ["@"]. *)
Theorem parse_email_address_splits (email_addr : string) :
  (forall a b,
     a <> EmptyString -> b <> EmptyString ->
     contains "@" a = false -> contains LF b = false ->
     strip email_addr = (a ++ "@" ++ b)%string ->
     parse_email_address email_addr = (a, b)) /\
  (parse_email_address email_addr = (EmptyString, EmptyString) \/
   exists a b,
     parse_email_address email_addr = (a, b) /\
     a <> EmptyString /\ b <> EmptyString /\
     contains "@" a = false /\ contains LF b = false /\
     strip email_addr = (a ++ "@" ++ b)%string).
Proof.
  split.
  - intros a b Ha Hb Hat Hlf Hs. unfold parse_email_address.
    rewrite Hs, (split_matches a b Ha Hb Hat Hlf). reflexivity.
  - unfold parse_email_address.
    destruct (rmatch SPLIT (strip email_addr)) as [pieces|] eqn:E; [|left; reflexivity].
    right. destruct (split_matched _ _ E) as (a & b & -> & Ha & Hb & Hat & Hlf & Ht).
    exists a, b. cbn [nth]. repeat split; auto.
    destruct Ht as [Ht|Ht]; [exact Ht|].
    exfalso. apply (strip_not_before_newline email_addr (a ++ "@" ++ b)).
    rewrite Ht. rewrite <- !append_assoc. reflexivity.
Qed.

Lemma parse_email_address_splits_witness :
  parse_email_address " john@example.com " = ("john", "example.com").
Proof.
  exact (proj1 (parse_email_address_splits " john@example.com ")
           "john" "example.com" ltac:(discriminate) ltac:(discriminate)
           eq_refl eq_refl eq_refl).
Defined.

Lemma parse_email_address_splits_counterexample :
  parse_email_address (" john" ++ "@" ++ "example.com")
    <> (" john", "example.com") /\
  parse_email_address ("john" ++ "@" ++ String "a" (String LF "b"))
    <> ("john", String "a" (String LF "b")).
Proof. split; discriminate. Qed.


(** ** [extract_recipients] *)

Lemma all_chars_append (p : ascii -> bool) (x y : string) :
  all_chars p (x ++ y) = all_chars p x && all_chars p y.
Proof.
  induction x as [|c x IH]; cbn; [reflexivity|].
  rewrite IH, andb_assoc. reflexivity.
Qed.

Lemma all_chars_weaken (p q : ascii -> bool) (x : string) :
  (forall c, p c = true -> q c = true) ->
  all_chars p x = true -> all_chars q x = true.
Proof.
  intros Hpq. induction x as [|c x IH]; cbn; [reflexivity|].
  intros H. apply andb_true_iff in H. destruct H as [Hc Hx].
  rewrite (Hpq _ Hc), (IH Hx). reflexivity.
Qed.

Lemma valid_address_chars (s : string) :
  valid_address s -> all_chars address_char s = true.
Proof.
  intros (l & d & t & -> & _ & Hl & _ & Hd & _ & Ht).
  rewrite !all_chars_append. cbn [all_chars].
  rewrite (all_chars_weaken local_char address_char l), 
          (all_chars_weaken domain_char address_char d),
          (all_chars_weaken is_alpha address_char t); auto.
  all: unfold address_char; intros c Hc; rewrite Hc;
    rewrite ?orb_true_r; reflexivity.
Qed.

Lemma greedy_some {A : Type} (attempt : nat -> option A) (lo : nat) (r : A) :
  forall k, greedy attempt lo k = Some r ->
            exists j, lo <= j /\ j <= k /\ attempt j = Some r.
Proof.
  induction k as [|k IH]; cbn [greedy].
  - destruct (lo <=? 0) eqn:E; [|discriminate]. apply Nat.leb_le in E.
    destruct (attempt 0) eqn:E0; [|discriminate].
    intros H. inversion H. subst. exists 0. auto.
  - destruct (lo <=? S k) eqn:E; [|discriminate]. apply Nat.leb_le in E.
    destruct (attempt (S k)) eqn:E0.
    + intros H. inversion H. subst. exists (S k). auto.
    + intros H. destruct (IH H) as (j & H1 & H2 & H3). exists j. auto.
Qed.

Lemma take_within_span (cls : ascii -> bool) (s : string) :
  forall j, j <= span cls s ->
            all_chars cls (take j s) = true /\ String.length (take j s) = j.
Proof.
  induction s as [|c s IH]; cbn [span]; intros j Hj.
  - assert (j = 0) by lia. subst. auto.
  - destruct j as [|j]; [auto|]. destruct (cls c) eqn:E; [|lia].
    cbn. rewrite E. destruct (IH j) as [I1 I2]; [lia|]. rewrite I1, I2. auto.
Qed.

Lemma emit_some (piece : string) (r : option (list string * string))
      (pieces : list string) (rest : string) :
  emit piece r = Some (pieces, rest) ->
  exists tl, pieces = piece :: tl /\ r = Some (tl, rest).
Proof.
  destruct r as [[tl rest']|]; cbn; [|discriminate].
  intros H. inversion H. subst. eauto.
Qed.

(** What the address pattern matches, wherever it matches. *)
Lemma address_matched (prev : option ascii) (s rest : string) (pieces : list string) :
  match_here ADDRESS prev s = Some (pieces, rest) ->
  exists l d t,
    whole pieces = (l ++ "@" ++ d ++ "." ++ t)%string /\
    1 <= String.length l /\ all_chars local_char l = true /\
    1 <= String.length d /\ all_chars domain_char d = true /\
    2 <= String.length t /\ all_chars tld_char t = true.
Proof.
  unfold ADDRESS. cbn [match_here].
  destruct (xorb _ _); [|discriminate].
  intros H. apply emit_some in H. destruct H as (tl0 & -> & H).
  apply greedy_some in H. destruct H as (j1 & L1 & U1 & H).
  apply emit_some in H. destruct H as (tl1 & -> & H).
  destruct (drop j1 s) as [|c1 s1]; [discriminate|].
  destruct (Ascii.eqb_spec "@"%char c1) as [<-|]; [|discriminate].
  apply emit_some in H. destruct H as (tl2 & -> & H).
  apply greedy_some in H. destruct H as (j2 & L2 & U2 & H).
  apply emit_some in H. destruct H as (tl3 & -> & H).
  destruct (drop j2 s1) as [|c2 s2]; [discriminate|].
  destruct (Ascii.eqb_spec "."%char c2) as [<-|]; [|discriminate].
  apply emit_some in H. destruct H as (tl4 & -> & H).
  apply greedy_some in H. destruct H as (j3 & L3 & U3 & H).
  apply emit_some in H. destruct H as (tl5 & -> & H).
  destruct (xorb _ _); [|discriminate].
  apply emit_some in H. destruct H as (tl6 & -> & H).
  inversion H. subst.
  destruct (take_within_span _ _ _ U1) as [A1 B1].
  destruct (take_within_span _ _ _ U2) as [A2 B2].
  destruct (take_within_span _ _ _ U3) as [A3 B3].
  exists (take j1 s), (take j2 s1), (take j3 s2).
  rewrite B1, B2, B3. repeat split; auto.
  cbn. rewrite append_empty. reflexivity.
Qed.

Lemma findall_from_matches (p : pattern) (m : string) :
  forall s prev skip,
    In m (findall_from p prev s skip) ->
    exists prev' s' pieces rest,
      match_here p prev' s' = Some (pieces, rest) /\ m = whole pieces.
Proof.
  induction s as [|c s IH]; intros prev skip; cbn [findall_from].
  - destruct skip; [|intros []].
    destruct (match_here p prev EmptyString) as [[pieces rest]|] eqn:E;
      [|intros []].
    rewrite app_nil_r. intros [<-|[]]. eauto 6.
  - intros H. apply in_app_or in H. destruct H as [H|H]; [|exact (IH _ _ H)].
    destruct skip; [|destruct H].
    destruct (match_here p prev (String c s)) as [[pieces rest]|] eqn:E;
      [|destruct H].
    destruct H as [<-|[]]. eauto 6.
Qed.

(** The recipients are the matches of the three headers, in the order
    To, Cc, Bcc. *)
Lemma extract_recipients_order (msg : Message) :
  let found header :=
    match get msg header with
    | Some header_value =>
        if String.eqb header_value EmptyString then []
        else findall ADDRESS header_value
    | None => []
    end in
  extract_recipients msg = found "To" ++ found "Cc" ++ found "Bcc".
Proof.
  intros found. subst found. unfold extract_recipients. cbn [fold_left].
  destruct (get msg "To") as [v1|]; [destruct (String.eqb v1 EmptyString)|];
  destruct (get msg "Cc") as [v2|]; try destruct (String.eqb v2 EmptyString);
  destruct (get msg "Bcc") as [v3|]; try destruct (String.eqb v3 EmptyString);
  cbn [app]; rewrite ?app_nil_r, <- ?app_assoc; reflexivity.
Qed.

(** X1.  Every recipient extracted has the shape the pattern describes:
    a local part of one or more of [[A-Za-z0-9._%+-]], an [@], a domain of
    one or more of [[A-Za-z0-9.-]], a dot, and a top-level label of two or
    more characters drawn from the class as written (letters and the
    bar). *)
Lemma extract_recipients_syntax (msg : Message) (m : string) :
  In m (extract_recipients msg) ->
  exists l d t,
    m = (l ++ "@" ++ d ++ "." ++ t)%string /\
    1 <= String.length l /\ all_chars local_char l = true /\
    1 <= String.length d /\ all_chars domain_char d = true /\
    2 <= String.length t /\ all_chars tld_char t = true.
Proof.
  rewrite extract_recipients_order. cbv zeta. intros H.
  assert (Hm : exists v, In m (findall ADDRESS v)).
  { repeat (apply in_app_or in H; destruct H as [H|H]).
    all: match type of H with
         | In _ (match get ?mm ?h with _ => _ end) =>
             destruct (get mm h) as [v|]; [|destruct H];
             destruct (String.eqb v EmptyString); [destruct H|eauto]
         end. }
  destruct Hm as [v Hv]. unfold findall in Hv.
  destruct (findall_from_matches _ _ _ _ _ Hv) as (prev & s & pieces & rest & Hp & ->).
  exact (address_matched _ _ _ _ Hp).
Qed.

(** C4 at the input that separates the code from the specification.
    From the header [To: alice@example.com|bob@example.org] the code
    extracts the single string ["alice@example.com|bob"], which is not an
    address of the stated syntax; with a top-level label of alphabetic
    characters only, the same scan yields the two addresses. *)
Theorem address_pattern_admits_bar :
  let msg := [("To", "alice@example.com|bob@example.org")] in
  extract_recipients msg = ["alice@example.com|bob"] /\
  ~ valid_address "alice@example.com|bob" /\
  findall ADDRESS_AS_SPECIFIED "alice@example.com|bob@example.org"
    = ["alice@example.com"; "bob@example.org"].
Proof.
  split; [reflexivity|]. split; [|reflexivity].
  intros H. apply valid_address_chars in H. discriminate H.
Qed.

Lemma extract_recipients_example :
  extract_recipients
    [("To", "John Doe <john@example.com>, Jane <jane@test.org>");
     ("Cc", "support@company.com")]
  = ["john@example.com"; "jane@test.org"; "support@company.com"].
Proof. reflexivity. Qed.

Lemma extract_recipients_no_headers (msg : Message) :
  get msg "To" = None -> get msg "Cc" = None -> get msg "Bcc" = None ->
  extract_recipients msg = [].
Proof.
  intros H1 H2 H3. unfold extract_recipients. cbn [fold_left].
  rewrite H1, H2, H3. reflexivity.
Qed.

(** ** The gateway, the sweep and the loop *)

Section Processor.

Variable env : environment.
Variable message_from_bytes : string -> Message.

Lemma session_run (c : command) (st : state) (x : string) :
  connection (self st) = Some x ->
  session env c st =
    (match env (log st) c with
     | Resp typ dat => Ret (typ, dat)
     | Raise e => Exc e
     end,
     mkState (self st) (log st ++ [(c, env (log st) c)])).
Proof.
  intros Hc. unfold session, bind, get_self, call. rewrite Hc.
  destruct (env (log st) c); reflexivity.
Qed.

Lemma folder_exists_run (n : string) (st : state) (x : string) :
  connection (self st) = Some x ->
  folder_exists env n st =
    (match env (log st) (LIST QUOTES n) with
     | Resp status folders =>
         Ret (OK status &&
              match folders with
              | Some (ENone :: _) => false
              | Some (_ :: _) => true
              | _ => false
              end)
     | Raise e => Exc e
     end,
     mkState (self st) (log st ++ [(LIST QUOTES n, env (log st) (LIST QUOTES n))])).
Proof.
  intros Hc. unfold folder_exists, bind, get_self. rewrite Hc.
  rewrite (session_run _ _ _ Hc).
  destruct (env (log st) (LIST QUOTES n)) as [typ [[|[] ?]|]|]; reflexivity.
Qed.

Lemma create_folder_run (n : string) (st : state) (x : string) :
  connection (self st) = Some x ->
  create_folder env n st =
    (match env (log st) (CREATE n) with
     | Resp status _ => Ret (OK status)
     | Raise e => Exc e
     end,
     mkState (self st) (log st ++ [(CREATE n, env (log st) (CREATE n))])).
Proof.
  intros Hc. unfold create_folder, bind, get_self. rewrite Hc.
  rewrite (session_run _ _ _ Hc).
  destruct (env (log st) (CREATE n)) as [typ dat|]; simpl; [|reflexivity].
  destruct (OK typ); reflexivity.
Qed.


Lemma folder_exists_self (n : string) (st st' : state) (r : result bool) :
  folder_exists env n st = (r, st') -> self st' = self st.
Proof.
  destruct (connection (self st)) as [x|] eqn:Hc.
  - rewrite (folder_exists_run _ _ _ Hc). intros H. inversion H. reflexivity.
  - unfold folder_exists, bind, get_self, raise. rewrite Hc.
    intros H. inversion H. reflexivity.
Qed.

(** From [l ++ a = l ++ new], read [new] off. *)
Ltac read_log H :=
  repeat rewrite <- app_assoc in H;
  lazymatch type of H with
  | ?l = ?l ++ _ => rewrite <- (app_nil_r l) in H at 1
  | _ => idtac
  end;
  apply app_inv_head in H; simpl in H.

(** C3.  For a non-empty user and a non-empty domain, when the existence
    check reports the ignore folder ["archived.<User>"] present,
    [determine_folder] answers that folder, whatever the domain, and makes
    no other call. *)
Theorem ignore_folder_precedes_domain (user domain : string) (st st1 : state) :
  user <> EmptyString -> domain <> EmptyString ->
  folder_exists env (ARCHIVE_FOLDER ++ "." ++ capitalize user) st = (Ret true, st1) ->
  determine_folder env user domain st =
    (Ret (ARCHIVE_FOLDER ++ "." ++ capitalize user)%string, st1).
Proof.
  intros Hu Hd Hex. unfold determine_folder.
  apply String.eqb_neq in Hu. apply String.eqb_neq in Hd.
  rewrite Hu, Hd. cbn [orb]. cbv zeta. unfold bind at 1.
  rewrite Hex. reflexivity.
Qed.

(** C2, as the code has it.  For a non-empty user [c :: rest] and a
    non-empty domain, when the ignore folder is reported absent,
    [determine_folder] answers ["Inbox."] followed by the user with its
    first character upper-cased and the others lower-cased, and, unless
    the domain is the primary one, by ["@"] and the lower-cased domain with
    each dot replaced by an underscore. *)
Theorem determine_folder_normalizes (c : ascii) (rest domain : string)
        (st st1 : state) :
  domain <> EmptyString ->
  folder_exists env (ARCHIVE_FOLDER ++ "." ++ capitalize (String c rest)) st
    = (Ret false, st1) ->
  determine_folder env (String c rest) domain st =
    (Ret (if String.eqb domain (primary_domain (self st))
          then "Inbox." ++ String (upper_char c) (lower rest)
          else "Inbox." ++ String (upper_char c) (lower rest) ++ "@" ++
               replace_char "." "_" (lower domain))%string,
     st1).
Proof.
  intros Hd Hex. unfold determine_folder.
  apply String.eqb_neq in Hd. rewrite Hd.
  change (String.eqb (String c rest) EmptyString) with false.
  cbn [orb]. cbv zeta. unfold bind at 1. rewrite Hex.
  unfold bind, get_self. rewrite (folder_exists_self _ _ _ _ Hex).
  destruct (String.eqb domain (primary_domain (self st))); reflexivity.
Qed.



(** Symbolic execution: with the processor's attributes laid open a run
    computes up to the answers of the environment, which are then
    analysed one call at a time. *)
Ltac open_state st :=
  let l := fresh "l" in
  destruct st as [[? ? ? ? [?|] ?] l].

Ltac expose :=
  unfold process_message, move_email, determine_folder, folder_exists,
    create_folder, session, call, bind, get_self, ret, raise, lift, update,
    try_except;
  cbn.

Ltac answers :=
  repeat (first
    [ match goal with
      | |- context [match env ?h ?c with _ => _ end] =>
          let E := fresh "E" in destruct (env h c) as [? ?|?] eqn:E
      end
    | match goal with
      | |- context [OK ?t] =>
          let E := fresh "E" in destruct (OK t) eqn:E
      end
    | match goal with
      | |- context [raw_email_of ?d] =>
          let E := fresh "E" in destruct (raw_email_of d) as [[?|]|?] eqn:E
      end
    | match goal with
      | |- context [extract_recipients ?m] =>
          destruct (extract_recipients m) as [|? ?]
      end
    | match goal with
      | |- context [parse_email_address ?a] =>
          destruct (parse_email_address a) as [? ?]
      end
    | match goal with
      | |- context [if ?b then _ else _] =>
          let E := fresh "E" in destruct b eqn:E
      end ]; cbn).

Ltac finish_run :=
  let H := fresh "Hrun" in
  intros H; inversion H; subst; clear H; cbn.

(** C10.  If, in a call of [move_email], the copy command comes back
    with a status other than OK, the call answers false and issues no
    store command. *)
Theorem move_email_copy_failure (msg_id target : string) (st st' : state)
        (r : result bool) (new : list event) (typ : string) (dat : data) :
  move_email env msg_id target st = (r, st') ->
  log st' = log st ++ new ->
  In (COPY msg_id target, Resp typ dat) new ->
  OK typ = false ->
  r = Ret false /\ existsb is_store new = false.
Proof.
  open_state st; expose; answers; finish_run; intros Hlog; read_log Hlog;
    subst new; cbn; intros Hin Hno.
  all: repeat (destruct Hin as [Hin|Hin]; try discriminate Hin);
    try contradiction.
  all: inversion Hin; subst; unfold OK in *; try congruence.
  all: split; reflexivity.
Qed.

(** When the copy command raises instead, the exception is raised to the
    caller, and again no store command is issued. *)
Lemma move_email_copy_raises (msg_id target : string) (st st' : state)
      (r : result bool) (new : list event) (e : exn) :
  move_email env msg_id target st = (r, st') ->
  log st' = log st ++ new ->
  In (COPY msg_id target, Raise e) new ->
  r = Exc e /\ existsb is_store new = false.
Proof.
  open_state st; expose; answers; finish_run; intros Hlog; read_log Hlog;
    subst new; cbn; intros Hin.
  all: repeat (destruct Hin as [Hin|Hin]; try discriminate Hin);
    try contradiction.
  all: inversion Hin; subst; split; reflexivity.
Qed.

(** C8, as the code has it.  Without a connection [create_folder]
    answers false and makes no call.  With one, it issues the create
    command: it answers true if the store answers OK and false if the
    store answers anything else, and an exception raised by the command is
    raised to the caller.  [connect] too answers false when opening the
    session raises a protocol error. *)
Theorem create_folder_reports (folder_name : string) (st : state) :
  (connection (self st) = None ->
   create_folder env folder_name st = (Ret false, st)) /\
  (forall x, connection (self st) = Some x ->
     let answer := env (log st) (CREATE folder_name) in
     let st' := mkState (self st) (log st ++ [(CREATE folder_name, answer)]) in
     (forall typ dat, answer = Resp typ dat ->
        create_folder env folder_name st = (Ret (OK typ), st')) /\
     (forall e, answer = Raise e ->
        create_folder env folder_name st = (Exc e, st'))) /\
  (env (log st) (OPEN (imap_server (self st))) = Raise IMAP4_error ->
   fst (connect env st) = Ret false).
Proof.
  split; [|split].
  - intros Hc. unfold create_folder, bind, get_self. rewrite Hc. reflexivity.
  - intros x Hc answer st'. subst answer st'.
    rewrite (create_folder_run _ _ _ Hc).
    split; intros; rewrite H; reflexivity.
  - intros H. unfold connect, try_except, bind, get_self, call. cbn.
    rewrite H. reflexivity.
Qed.

Lemma process_message_shape (msg_id : string) (st st' : state) (r : result unit) :
  connection (self st) <> None ->
  process_message env message_from_bytes msg_id st = (r, st') ->
  self st' = self st /\
  (match r with Ret _ => True | Exc e => escapes env e end) /\
  exists rep tl,
    log st' = log st ++ (FETCH msg_id "(RFC822)", rep) :: tl /\
    forallb (relocation_event msg_id) tl = true /\
    (fetched_bytes rep = false -> tl = []) /\
    (fetched_bytes rep = true -> existsb raised tl = false ->
     existsb (copies msg_id) tl = true) /\
    (existsb (copied_ok msg_id) tl = true ->
     existsb (flags_deleted msg_id) tl = true).
Proof.
  open_state st; cbn; [intros _|congruence].
  expose; answers; finish_run.
  all: split; [reflexivity|]; split;
    [ first [ exact I
            | left; do 2 eexists; eassumption
            | right; do 5 eexists; repeat split; eassumption ]
    | do 2 eexists; split; [repeat rewrite <- app_assoc; reflexivity|];
      unfold fetched_bytes, copied_ok, copies, flags_deleted, relocation_event, raised;
      cbn; rewrite ?String.eqb_refl;
      repeat match goal with
        | H : OK _ = _ |- _ => rewrite H; clear H
        | H : raw_email_of _ = _ |- _ => rewrite H; clear H
        end;
      cbn; repeat split; intros; try reflexivity; try discriminate ].
Qed.


Lemma handler_shape (msg_id : string) (st st' : state) (r : result unit) :
  connection (self st) <> None ->
  handler env message_from_bytes msg_id st = (r, st') ->
  self st' = self st /\
  (match r with Ret _ => True | Exc e => escapes env e /\ e <> IMAP4_error end) /\
  exists seg, log st' = log st ++ seg /\ handled msg_id seg.
Proof.
  intros Hc. unfold handler, try_except.
  destruct (process_message env message_from_bytes msg_id st) as [r0 st0] eqn:H0.
  destruct (process_message_shape _ _ _ _ Hc H0) as (Hself & Hesc & rep & tl & Hlog & Hev).
  assert (Hseg : exists seg, log st0 = log st ++ seg /\ handled msg_id seg).
  { exists ((FETCH msg_id "(RFC822)", rep) :: tl). split; [exact Hlog|].
    exists rep, tl. split; [reflexivity|exact Hev]. }
  destruct r0 as [[]|e].
  - intros H; inversion H; subst. auto.
  - destruct (is_IMAP4_error e) eqn:He.
    + unfold ret. intros H; inversion H; subst. auto.
    + intros H; inversion H; subst. repeat split; auto.
      intros ->. discriminate He.
Qed.

Lemma for_each_handled (ids : list string) :
  forall (st st' : state) (r : result unit),
    connection (self st) <> None ->
    for_each ids (handler env message_from_bytes) st = (r, st') ->
    self st' = self st /\
    exists segs,
      log st' = log st ++ concat segs /\
      match r with
      | Ret _ => Forall2 handled ids segs
      | Exc e => Forall2 handled (firstn (length segs) ids) segs /\
                 escapes env e /\ e <> IMAP4_error
      end.
Proof.
  induction ids as [|msg_id rest IH]; intros st st' r Hc.
  - cbn. unfold ret. intros H; inversion H; subst. split; [reflexivity|].
    exists []. cbn. rewrite app_nil_r. split; [reflexivity|constructor].
  - cbn [for_each]. unfold bind.
    destruct (handler env message_from_bytes msg_id st) as [r1 st1] eqn:H1.
    destruct (handler_shape _ _ _ _ Hc H1) as (Hself & Hesc & seg & Hlog & Hseg).
    destruct r1 as [[]|e].
    + intros Hrest.
      assert (Hc1 : connection (self st1) <> None) by (rewrite Hself; exact Hc).
      destruct (IH _ _ _ Hc1 Hrest) as (Hself' & segs & Hlog' & Hr).
      split; [congruence|].
      exists (seg :: segs). cbn [concat].
      split; [rewrite Hlog', Hlog, app_assoc; reflexivity|].
      destruct r as [[]|e].
      * constructor; assumption.
      * destruct Hr as (Hd & He1 & He2). cbn [length firstn].
        repeat split; auto.
    + intros H; inversion H; subst. split; [exact Hself|].
      exists [seg]. cbn. rewrite app_nil_r.
      destruct Hesc. repeat split; auto.
Qed.


(** Split a log at its search. *)
Ltac cut_at_search :=
  lazymatch goal with
  | |- sweep _ _ ?new _ _ =>
      let rec go acc l :=
        lazymatch l with
        | (SEARCH ?a ?b, ?r) :: ?post =>
            change new with (rev acc ++ (SEARCH a b, r) :: post)
        | ?x :: ?rest => go constr:(x :: acc) rest
        | _ => idtac
        end in
      go constr:(@nil event) new
  end.

Ltac solve_sweep :=
  cbn; cut_at_search;
  lazymatch goal with
  | |- sweep _ _ (?pre ++ (SEARCH _ _, Resp ?typ ?dat) :: concat ?segs ++ [(EXPUNGE, ?rep)]) _ _ =>
      eapply (sweep_completed env _ pre typ dat _ segs rep);
      solve [reflexivity | eassumption]
  | |- sweep _ _ (?pre ++ (SEARCH _ _, Resp ?typ ?dat) :: concat ?segs) (Exc ?e) _ =>
      eapply (sweep_escaped env _ pre typ dat _ segs e);
      solve [reflexivity | eassumption | tauto]
  | |- sweep _ _ (?pre ++ [(SEARCH _ _, Raise ?e)]) _ _ =>
      apply sweep_search_raised; reflexivity
  | |- sweep _ _ (?pre ++ [(SEARCH _ _, Resp _ _)]) (Ret _) _ =>
      apply sweep_search_refused; solve [reflexivity | assumption]
  | |- sweep _ _ (?pre ++ [(SEARCH _ _, Resp _ _)]) (Exc _) _ =>
      apply sweep_search_unreadable; solve [reflexivity | assumption]
  | |- sweep _ _ _ (Exc _) _ =>
      apply sweep_setup_raised; [reflexivity | left; do 2 eexists; eassumption]
  end.

Lemma process_inbox_sweep (st st' : state) (r : result unit) :
  connection (self st) <> None ->
  process_inbox env message_from_bytes st = (r, st') ->
  exists new b,
    sweep env (scope_of (self st)) new r b /\
    st' = mkState (if b then with_first_pass false (self st) else self st)
                  (log st ++ new).
Proof.
  open_state st; cbn; [intros _|congruence].
  unfold process_inbox, folder_exists, create_folder, session, call, bind,
    get_self, ret, raise, lift, update; cbn.
  destruct first_pass0; cbn.
  all: answers.
  all: try match goal with
    | |- context [message_ids_of ?d] =>
        let E := fresh "E" in
        destruct (message_ids_of d) as [ids|?] eqn:E
    end.
  all: try match goal with
    | |- context [for_each ?ids (handler env message_from_bytes) ?s0] =>
        let Hloop := fresh "Hloop" in
        destruct (for_each ids (handler env message_from_bytes) s0)
            as [r0 [p0 l0]] eqn:Hloop;
        apply for_each_handled in Hloop; [|cbn; congruence];
        cbn [self log] in Hloop;
        destruct Hloop as (Hself & segs & Hlog & Hr);
        subst p0 l0; destruct r0 as [[]|?]; cbn; answers
    end.
  all: finish_run.
  all: eexists;
    first
      [ exists false; split;
        [|apply (f_equal (mkState _)); repeat rewrite <- app_assoc; cbn;
          reflexivity]; solve_sweep
      | exists true; split;
        [|apply (f_equal (mkState _)); repeat rewrite <- app_assoc; cbn;
          reflexivity]; solve_sweep
      ].
Qed.

(** *** Which calls a sweep is made of *)

Lemma setup_event_kind (e : event) :
  setup_event e = true -> is_search e = false /\ is_expunge e = false.
Proof. destruct e as [[] ?]; cbn; intros; try discriminate; auto. Qed.

Lemma message_event_kind (e : event) :
  message_event e = true -> is_search e = false /\ is_expunge e = false.
Proof. destruct e as [[] ?]; cbn; intros; try discriminate; auto. Qed.

Lemma relocation_is_message (msg_id : string) (e : event) :
  relocation_event msg_id e = true -> message_event e = true.
Proof. destruct e as [[] ?]; cbn; intros; try discriminate; auto. Qed.

Lemma handled_events (msg_id : string) (seg : list event) :
  handled msg_id seg -> forallb message_event seg = true.
Proof.
  intros (rep & tl & -> & Hev & _). cbn.
  apply forallb_forall. intros e He.
  apply (relocation_is_message msg_id).
  exact (proj1 (forallb_forall _ _) Hev e He).
Qed.

Lemma segments_events (ids : list string) (segs : list (list event)) :
  Forall2 handled ids segs -> forallb message_event (concat segs) = true.
Proof.
  induction 1 as [|msg_id seg ids segs Hseg _ IH]; cbn; [reflexivity|].
  rewrite forallb_app, IH, (handled_events _ _ Hseg). reflexivity.
Qed.

Lemma filter_nothing {A : Type} (p q : A -> bool) (l : list A) :
  (forall a, q a = true -> p a = false) ->
  forallb q l = true -> filter p l = [].
Proof.
  intros Hpq. induction l as [|a l IH]; cbn; [reflexivity|].
  intros H. apply andb_true_iff in H. destruct H as [Ha Hl].
  rewrite (Hpq _ Ha). auto.
Qed.

(** The only search of a sweep sits between its setup and its messages. *)
Lemma the_search (pre post : list event) (s e : event) :
  forallb setup_event pre = true ->
  (forall x, In x post -> is_search x = false) ->
  is_search e = true ->
  In e (pre ++ s :: post) -> e = s.
Proof.
  intros Hpre Hpost He Hin. apply in_app_or in Hin. destruct Hin as [Hin|[Hin|Hin]].
  - apply (proj1 (forallb_forall _ _) Hpre) in Hin.
    apply setup_event_kind in Hin. destruct Hin; congruence.
  - auto.
  - apply Hpost in Hin. congruence.
Qed.

Lemma no_escape (e : exn) :
  only_protocol_errors env -> fetch_has_body env ->
  escapes env e -> e = IMAP4_error.
Proof.
  intros Hproto Hbody [(h & c & H)|(h & m & parts & typ & dat & H & Hok & Hraw)].
  - exact (Hproto _ _ _ H).
  - destruct (Hbody _ _ _ _ _ H Hok) as [body Hb]. congruence.
Qed.

(** The failures a sweep does get over.  The store raises nothing but
    protocol errors and every fetch that comes back OK carries a body
    slot.  Then in a sweep whose search
    succeeded with the message numbers [ids], the log of the sweep is: the
    setup calls, the search, one segment per message of [ids] in order,
    and one expunge at the end, the only one of the sweep.  Each segment
    is the fetch of its message followed only by calls that relocate that
    message: nothing more if the fetch failed or gave no bytes, a copy if
    it gave bytes and no call raised, and the deletion flag after a copy
    that succeeded. *)
Theorem sweep_resilience (st st' : state) (r : result unit) (new : list event)
        (charset : option string) (scope typ ids : string) (more : list elem) :
  only_protocol_errors env ->
  fetch_has_body env ->
  process_inbox env message_from_bytes st = (r, st') ->
  log st' = log st ++ new ->
  In (SEARCH charset scope, Resp typ (Some (EBytes ids :: more))) new ->
  OK typ = true ->
  exists pre segs rep,
    new = pre ++ (SEARCH charset scope, Resp typ (Some (EBytes ids :: more)))
              :: concat segs ++ [(EXPUNGE, rep)] /\
    forallb setup_event pre = true /\
    Forall2 handled (split ids) segs /\
    length (filter is_expunge new) = 1.
Proof.
  intros Hproto Hbody Hrun Hlog Hin Hok.
  destruct (connection (self st)) as [x|] eqn:Hc.
  2:{ unfold process_inbox, bind, get_self in Hrun. rewrite Hc in Hrun.
      inversion Hrun; subst. read_log Hlog. subst new. contradiction. }
  assert (Hc' : connection (self st) <> None) by congruence.
  destruct (process_inbox_sweep _ _ _ Hc' Hrun) as (new' & b & Hsweep & ->).
  cbn [log] in Hlog. apply app_inv_head in Hlog. subst new'.
  set (s := (SEARCH charset scope, Resp typ (Some (EBytes ids :: more)))) in *.
  assert (Hs : is_search s = true) by reflexivity.
  inversion Hsweep
    as [pre e Hpre Hesc
       |pre e Hpre
       |pre typ' dat Hpre Hno
       |pre typ' dat e Hpre Hyes Hids
       |pre typ' dat ids' segs e Hpre Hyes Hids Hsegs Hesc Hne
       |pre typ' dat ids' segs rep Hpre Hyes Hids Hsegs];
    subst.
  - (* a setup call raised: there is no search in the log *)
    apply (proj1 (forallb_forall _ _) Hpre) in Hin.
    apply setup_event_kind in Hin. destruct Hin; congruence.
  - (* the search raised *)
    apply (the_search _ [] _ _ Hpre) in Hin; [discriminate Hin| |exact Hs].
    intros ? [].
  - (* the search was refused *)
    apply (the_search _ [] _ _ Hpre) in Hin; [| |exact Hs].
    + inversion Hin; subst. congruence.
    + intros ? [].
  - (* the response held no message numbers *)
    apply (the_search _ [] _ _ Hpre) in Hin; [| |exact Hs].
    + inversion Hin; subst. discriminate Hids.
    + intros ? [].
  - (* an exception other than a protocol error left the loop *)
    pose proof (no_escape _ Hproto Hbody Hesc). contradiction.
  - (* the sweep ran to its expunge *)
    assert (Hpost : forall x, In x (concat segs ++ [(EXPUNGE, rep)]) ->
                              is_search x = false).
    { intros y Hy. apply in_app_or in Hy. destruct Hy as [Hy|[<-|[]]]; [|reflexivity].
      apply (proj1 (forallb_forall _ _) (segments_events _ _ Hsegs)) in Hy.
      apply message_event_kind in Hy. tauto. }
    apply (the_search _ _ _ _ Hpre Hpost Hs) in Hin.
    inversion Hin; subst.
    assert (ids' = split ids) by (cbv [message_ids_of] in Hids; congruence).
    subst ids'.
    exists pre, segs, rep. repeat split; auto.
    rewrite filter_app. cbn [filter is_expunge fst]. rewrite filter_app.
    rewrite (filter_nothing is_expunge setup_event pre
               (fun a Ha => proj2 (setup_event_kind a Ha)) Hpre).
    rewrite (filter_nothing is_expunge message_event (concat segs)
               (fun a Ha => proj2 (message_event_kind a Ha))
               (segments_events _ _ Hsegs)).
    reflexivity.
Qed.

(** *** The first-pass flag along the log *)

Lemma quiet_criteria (t : list event) :
  existsb is_search t = false ->
  criteria t = [] /\ existsb search_returned t = false /\
  forall seen, scopes_follow seen t = true.
Proof.
  induction t as [|[c rep] t IH]; cbn; [auto|].
  intros H. apply orb_false_iff in H. destruct H as [Hc Ht].
  destruct (IH Ht) as (IH1 & IH2 & IH3).
  unfold search_returned. rewrite Hc. cbn.
  destruct c; try discriminate Hc; cbn; auto.
Qed.

Lemma setup_quiet (pre : list event) :
  forallb setup_event pre = true -> existsb is_search pre = false.
Proof.
  induction pre as [|e pre IH]; cbn; [reflexivity|].
  intros H. apply andb_true_iff in H. destruct H as [He Hp].
  rewrite (proj1 (setup_event_kind _ He)), (IH Hp). reflexivity.
Qed.

Lemma messages_quiet (t : list event) :
  forallb message_event t = true -> existsb is_search t = false.
Proof.
  induction t as [|e t IH]; cbn; [reflexivity|].
  intros H. apply andb_true_iff in H. destruct H as [He Hp].
  rewrite (proj1 (message_event_kind _ He)), (IH Hp). reflexivity.
Qed.

Lemma scopes_follow_app (t1 t2 : list event) :
  forall seen,
    scopes_follow seen (t1 ++ t2) =
    scopes_follow seen t1 && scopes_follow (seen || existsb search_returned t1) t2.
Proof.
  induction t1 as [|[c rep] t1 IH]; intros seen; cbn.
  - rewrite orb_false_r. reflexivity.
  - destruct c; cbn; rewrite ?IH; try reflexivity.
    rewrite <- andb_assoc, orb_assoc. reflexivity.
Qed.

Lemma criteria_app (t1 t2 : list event) :
  criteria (t1 ++ t2) = criteria t1 ++ criteria t2.
Proof. unfold criteria. apply flat_map_app. Qed.

Lemma tracks_refl (st : state) : tracks st st.
Proof.
  exists []. rewrite app_nil_r. cbn. rewrite andb_true_r. auto.
Qed.

Lemma tracks_trans (a b c : state) : tracks a b -> tracks b c -> tracks a c.
Proof.
  intros (t1 & L1 & F1 & S1) (t2 & L2 & F2 & S2).
  exists (t1 ++ t2). split; [|split].
  - rewrite L2, L1, app_assoc. reflexivity.
  - rewrite F2, F1, existsb_app, negb_orb, andb_assoc. reflexivity.
  - rewrite scopes_follow_app, S1. cbn.
    rewrite F1, negb_andb, negb_involutive in S2. exact S2.
Qed.

Lemma tracks_quiet (st st' : state) (t : list event) :
  log st' = log st ++ t ->
  first_pass (self st') = first_pass (self st) ->
  existsb is_search t = false ->
  tracks st st'.
Proof.
  intros L F Q. destruct (quiet_criteria _ Q) as (_ & Q2 & Q3).
  exists t. rewrite Q2, F, Q3, andb_true_r. auto.
Qed.

Lemma sweep_tracks (scope : string) (new : list event) (r : result unit) (b : bool) :
  sweep env scope new r b ->
  existsb search_returned new = b /\
  (criteria new = [] \/ criteria new = [scope]) /\
  forall seen : bool, scope = (if seen then "UNSEEN" else "ALL") ->
               scopes_follow seen new = true.
Proof.
  assert (Hone : forall pre post rep,
             forallb setup_event pre = true ->
             existsb is_search post = false ->
             let new := pre ++ (SEARCH None scope, rep) :: post in
             existsb search_returned new = negb (raised (SEARCH None scope, rep)) /\
             (criteria new = [] \/ criteria new = [scope]) /\
             forall seen : bool, scope = (if seen then "UNSEEN" else "ALL") ->
                          scopes_follow seen new = true).
  { intros pre post rep Hpre Hpost new0. subst new0.
    destruct (quiet_criteria _ (setup_quiet _ Hpre)) as (P1 & P2 & P3).
    destruct (quiet_criteria _ Hpost) as (Q1 & Q2 & Q3).
    rewrite existsb_app, criteria_app, P1, P2. cbn. fold (criteria post).
    rewrite Q1, Q2, orb_false_r. split; [reflexivity|]. split; [auto|].
    intros [] ->; rewrite scopes_follow_app, P3, P2; cbn; rewrite Q3; reflexivity. }
  assert (Hsegs : forall ids segs, Forall2 handled ids segs ->
                                   existsb is_search (concat segs) = false).
  { intros ids segs H. apply messages_quiet. exact (segments_events _ _ H). }
  intros H.
  inversion H
    as [pre e Hpre Hesc
       |pre e Hpre
       |pre typ dat Hpre Hno
       |pre typ dat e Hpre Hyes Hids
       |pre typ dat ids segs e Hpre Hyes Hids Hhandled Hesc Hne
       |pre typ dat ids segs rep Hpre Hyes Hids Hhandled];
    subst.
  - destruct (quiet_criteria _ (setup_quiet _ Hpre)) as (P1 & P2 & P3). auto.
  - apply (Hone pre [] (Raise e)); auto.
  - apply (Hone pre [] (Resp typ dat)); auto.
  - apply (Hone pre [] (Resp typ dat)); auto.
  - apply (Hone pre (concat segs) (Resp typ dat)); eauto.
  - apply (Hone pre (concat segs ++ [(EXPUNGE, rep)]) (Resp typ dat)); auto.
    rewrite existsb_app, (Hsegs _ _ Hhandled). reflexivity.
Qed.

Lemma process_inbox_tracks (st st' : state) (r : result unit) :
  process_inbox env message_from_bytes st = (r, st') ->
  tracks st st' /\
  exists new, log st' = log st ++ new /\
              (connection (self st) = None -> new = []) /\
              (criteria new = [] \/ criteria new = [scope_of (self st)]).
Proof.
  intros Hrun. destruct (connection (self st)) as [x|] eqn:Hc.
  - assert (Hc' : connection (self st) <> None) by congruence.
    destruct (process_inbox_sweep _ _ _ Hc' Hrun) as (new & b & Hsweep & ->).
    destruct (sweep_tracks _ _ _ _ Hsweep) as (Hb & Hcrit & Hfollow).
    split.
    + exists new. cbn [log self]. split; [reflexivity|]. rewrite Hb. split.
      * destruct b, st as [[? ? ? ? ? []] ?]; reflexivity.
      * apply Hfollow. unfold scope_of. reflexivity.
    + exists new. cbn [log]. split; [reflexivity|]. split; [congruence|exact Hcrit].
  - unfold process_inbox, bind, get_self in Hrun. rewrite Hc in Hrun.
    inversion Hrun; subst. split; [apply tracks_refl|].
    exists []. rewrite app_nil_r. auto.
Qed.


Ltac quiet_run :=
  finish_run; eapply tracks_quiet; cbn;
  [ first [ repeat rewrite <- app_assoc; reflexivity
          | symmetry; apply app_nil_r ]
  | reflexivity
  | reflexivity ].

Lemma call_tracks (c : command) (st st' : state) (r : result (string * data)) :
  call env c st = (r, st') ->
  (match c with SEARCH _ _ => false | _ => true end) = true ->
  tracks st st'.
Proof.
  unfold call. intros H Hc.
  assert (L : log st' = log st ++ [(c, env (log st) c)] /\ self st' = self st).
  { destruct (env (log st) c); inversion H; subst; auto. }
  destruct L as [L S].
  apply (tracks_quiet _ _ _ L); [rewrite S; reflexivity|].
  destruct c; cbn; try reflexivity; discriminate Hc.
Qed.

Lemma connect_tracks (st st' : state) (r : result bool) :
  connect env st = (r, st') -> tracks st st'.
Proof.
  open_state st;
    unfold connect, try_except, session, call, bind, get_self, update, ret;
    cbn; answers; quiet_run.
Qed.

Lemma disconnect_tracks (st st' : state) (r : result unit) :
  disconnect env st = (r, st') -> tracks st st'.
Proof.
  open_state st;
    unfold disconnect, try_finally, session, call, bind, get_self, ret;
    cbn; answers; quiet_run.
Qed.

Lemma try_connect_tracks (st st' : state) (r : result bool) :
  try_connect env st = (r, st') -> tracks st st'.
Proof.
  unfold try_connect, bind, get_self.
  destruct (connection (self st)).
  - unfold ret. intros H; inversion H; subst. apply tracks_refl.
  - destruct (connect env st) as [[[]|e] st1] eqn:H1; unfold ret;
      intros H; inversion H; subst; exact (connect_tracks _ _ _ H1).
Qed.

Lemma try_connect_connected (st : state) :
  connection (self st) <> None -> try_connect env st = (Ret true, st).
Proof.
  intros Hc. unfold try_connect, bind, get_self.
  destruct (connection (self st)); [reflexivity|congruence].
Qed.

Lemma attempt_tracks (st st' : state) (r : result unit) :
  attempt env message_from_bytes st = (r, st') -> tracks st st'.
Proof.
  unfold attempt, bind.
  destruct (try_connect env st) as [[connected|e] st1] eqn:H1.
  all: pose proof (try_connect_tracks _ _ _ H1) as T1.
  - destruct connected.
    + intros H2. exact (tracks_trans _ _ _ T1 (proj1 (process_inbox_tracks _ _ _ H2))).
    + unfold ret. intros H; inversion H; subst. exact T1.
  - intros H; inversion H; subst. exact T1.
Qed.

(** One turn of the loop: it is left through [break] exactly when the
    attempt raised an interrupt; an exception of the sleep escapes. *)
Lemma iteration_run (check_interval : nat) (st : state) :
  iteration env message_from_bytes check_interval st =
    match attempt env message_from_bytes st with
    | (Ret _, st1) =>
        match call env (SLEEP check_interval) st1 with
        | (Ret _, st2) => (Ret true, st2)
        | (Exc e, st2) => (Exc e, st2)
        end
    | (Exc e, st1) =>
        if is_KeyboardInterrupt e then (Ret false, st1) else (Exc e, st1)
    end.
Proof.
  unfold iteration, try_except, bind at 1 2.
  destruct (attempt env message_from_bytes st) as [[[]|e] st1]; unfold ret.
  - unfold bind. destruct (call env (SLEEP check_interval) st1) as [[?|?] ?];
      reflexivity.
  - destruct (is_KeyboardInterrupt e); reflexivity.
Qed.

Lemma iteration_tracks (check_interval : nat) (st st' : state) (r : result bool) :
  iteration env message_from_bytes check_interval st = (r, st') -> tracks st st'.
Proof.
  rewrite iteration_run.
  destruct (attempt env message_from_bytes st) as [[[]|e] st1] eqn:H1.
  all: pose proof (attempt_tracks _ _ _ H1) as T1.
  - destruct (call env (SLEEP check_interval) st1) as [[?|?] st2] eqn:H2.
    all: pose proof (call_tracks _ _ _ _ H2 eq_refl) as T2.
    all: intros H; inversion H; subst; exact (tracks_trans _ _ _ T1 T2).
  - destruct (is_KeyboardInterrupt e); intros H; inversion H; subst; exact T1.
Qed.

Lemma run_continuous_tracks (check_interval turns : nat) :
  forall (st st' : state) (r : result loop),
    run_continuous env message_from_bytes turns check_interval st = (r, st') ->
    tracks st st'.
Proof.
  induction turns as [|n IH]; intros st st' r; cbn [run_continuous].
  - unfold ret. intros H; inversion H; subst. apply tracks_refl.
  - unfold bind.
    destruct (iteration env message_from_bytes check_interval st)
      as [[[]|e] st1] eqn:H1.
    all: pose proof (iteration_tracks _ _ _ _ H1) as T1.
    + intros H. exact (tracks_trans _ _ _ T1 (IH _ _ _ H)).
    + unfold ret. intros H; inversion H; subst. exact T1.
    + intros H; inversion H; subst. exact T1.
Qed.

Lemma invoke_tracks (m : method) (st : state) :
  tracks st (snd (invoke env message_from_bytes m st)).
Proof.
  destruct m; cbn [invoke].
  - unfold bind. destruct (connect env st) as [[?|?] st1] eqn:H; cbn;
      exact (connect_tracks _ _ _ H).
  - destruct (disconnect env st) as [? st1] eqn:H; cbn.
    exact (disconnect_tracks _ _ _ H).
  - destruct (process_inbox env message_from_bytes st) as [? st1] eqn:H; cbn.
    exact (proj1 (process_inbox_tracks _ _ _ H)).
  - unfold bind.
    destruct (run_continuous env message_from_bytes turns check_interval st)
      as [[?|?] st1] eqn:H; cbn; exact (run_continuous_tracks _ _ _ _ _ H).
Qed.

Lemma lifetime_tracks (ms : list method) :
  forall st, tracks st (lifetime env message_from_bytes ms st).
Proof.
  induction ms as [|m ms IH]; intros st; cbn [lifetime].
  - apply tracks_refl.
  - exact (tracks_trans _ _ _ (invoke_tracks m st) (IH _)).
Qed.

Lemma succeeded_returned (t : list event) :
  existsb search_succeeded t = true -> existsb search_returned t = true.
Proof.
  induction t as [|[c [typ dat|e]] t IH]; cbn; [discriminate| |].
  - unfold search_succeeded, search_returned. cbn.
    destruct (is_search (c, Resp typ dat)); cbn; [reflexivity|exact IH].
  - unfold search_succeeded, search_returned. cbn.
    rewrite !andb_false_r. exact IH.
Qed.

(** What holds of the first-pass flag for every store.  Along any
    sequence of method calls on one processor, starting from its
    construction: the first-pass flag is up
    as long as no search call has come back, and is down, for good, once
    a search has succeeded (connecting again does not raise it); every
    search in the log asks for ALL if no search had come back before it
    and for UNSEEN if one had succeeded before it; and one call of
    [process_inbox] issues at most one search, with the scope the flag
    gives, and none at all when there is no connection. *)
Theorem first_pass_flag (server user pass domain : string) (ms : list method) :
  let st := lifetime env message_from_bytes ms
              (mkState (init server user pass domain) []) in
  (existsb search_returned (log st) = false -> first_pass (self st) = true) /\
  (existsb search_succeeded (log st) = true -> first_pass (self st) = false) /\
  (forall before e after,
     log st = before ++ e :: after -> is_search e = true ->
     (existsb search_returned before = false -> criteria [e] = ["ALL"]) /\
     (existsb search_succeeded before = true -> criteria [e] = ["UNSEEN"])) /\
  (forall r st',
     process_inbox env message_from_bytes st = (r, st') ->
     exists new,
       log st' = log st ++ new /\
       (connection (self st) = None -> new = []) /\
       (criteria new = [] \/
        criteria new = [if first_pass (self st) then "ALL" else "UNSEEN"])).
Proof.
  intros st.
  destruct (lifetime_tracks ms (mkState (init server user pass domain) []))
    as (t & L & F & S).
  fold st in L, F, S. cbn in L, F, S. rewrite <- L in F, S.
  split; [|split; [|split]].
  - intros H. rewrite F, H. reflexivity.
  - intros H. rewrite F, (succeeded_returned _ H). reflexivity.
  - intros before e after Hlog He.
    rewrite Hlog, scopes_follow_app in S. cbn in S.
    apply andb_true_iff in S. destruct S as [_ S].
    destruct e as [[] rep]; try discriminate He. cbn in S |- *.
    apply andb_true_iff in S. destruct S as [S _].
    apply String.eqb_eq in S. subst criterion. split.
    + intros ->. reflexivity.
    + intros H. rewrite (succeeded_returned _ H). reflexivity.
  - intros r st' Hrun.
    destruct (process_inbox_tracks _ _ _ Hrun) as (_ & new & Hn & Hc & Hcrit).
    exists new. repeat split; auto.
    unfold scope_of in Hcrit. destruct (first_pass (self st)); exact Hcrit.
Qed.

(** The loop of [run_continuous] is left through [break] only when an
    attempt raised an interrupt, and whenever one does; an interrupt
    raised by the sleep is not caught. *)
Lemma interrupt_in_attempt_breaks (turns check_interval : nat) (st st1 : state) :
  attempt env message_from_bytes st = (Exc KeyboardInterrupt, st1) ->
  run_continuous env message_from_bytes (S turns) check_interval st
    = (Ret Broken, st1).
Proof.
  intros H. cbn [run_continuous]. unfold bind. rewrite iteration_run, H.
  reflexivity.
Qed.

Lemma interrupt_in_sleep_propagates (turns check_interval : nat)
      (st st1 : state) (u : unit) :
  attempt env message_from_bytes st = (Ret u, st1) ->
  env (log st1) (SLEEP check_interval) = Raise KeyboardInterrupt ->
  run_continuous env message_from_bytes (S turns) check_interval st
    = (Exc KeyboardInterrupt,
       mkState (self st1)
         (log st1 ++ [(SLEEP check_interval, Raise KeyboardInterrupt)])).
Proof.
  intros H Hs. cbn [run_continuous]. unfold bind. rewrite iteration_run, H.
  unfold call. rewrite Hs. reflexivity.
Qed.

(** X19.  The loop of [run_continuous] is left through [break] only when
    the connect-and-sweep step of some turn raised [KeyboardInterrupt]:
    whenever the loop ends broken, the state it ends in is the one an
    interrupted attempt left. *)
Lemma broken_only_by_interrupt (check_interval turns : nat) :
  forall st st',
    run_continuous env message_from_bytes turns check_interval st
      = (Ret Broken, st') ->
    exists st0, attempt env message_from_bytes st0 = (Exc KeyboardInterrupt, st').
Proof.
  induction turns as [|n IH]; intros st st'; cbn [run_continuous].
  - unfold ret. discriminate.
  - unfold bind. rewrite iteration_run.
    destruct (attempt env message_from_bytes st) as [[[]|e] st1] eqn:H1.
    + destruct (call env (SLEEP check_interval) st1) as [[?|?] st2];
        [apply IH|discriminate].
    + destruct e; cbn; try discriminate.
      unfold ret. intros H; inversion H; subst. exists st. exact H1.
Qed.

(** X17.  Through every sequence of method calls on a processor just
    constructed, the first-sweep flag is up exactly as long as no search
    call has come back with a response: the first search that returns,
    whatever its status, lowers it for good. *)
Lemma first_pass_exact (server user pass domain : string) (ms : list method) :
  let st := lifetime env message_from_bytes ms
              (mkState (init server user pass domain) []) in
  first_pass (self st) = negb (existsb search_returned (log st)).
Proof.
  intros st.
  destruct (lifetime_tracks ms (mkState (init server user pass domain) []))
    as (t & L & F & _).
  fold st in L, F. cbn in L, F. rewrite <- L in F. exact F.
Qed.

End Processor.

Lemma create_folder_reports_witness :
  create_folder Scenario.empty_store "Inbox.John" Scenario.connected
    = (Ret true,
       mkState (self Scenario.connected)
         [(CREATE "Inbox.John", Resp "OK" (Some []))]).
Proof.
  destruct (create_folder_reports Scenario.empty_store "Inbox.John"
              Scenario.connected) as [_ [H _]].
  destruct (H "imap.example.com" eq_refl) as [H1 _].
  exact (H1 "OK" (Some []) eq_refl).
Defined.

(** ** The scenarios *)

Lemma flaky_store_protocol : only_protocol_errors flaky_store.
Proof.
  intros h c e. destruct c; cbn; try discriminate.
  destruct (String.eqb message_set "2"); [discriminate|].
  destruct (String.eqb message_set "4"); [|discriminate].
  intros H. inversion H. reflexivity.
Qed.

Lemma flaky_store_bodies : fetch_has_body flaky_store.
Proof.
  intros h m parts typ dat. cbn.
  destruct (String.eqb m "2").
  - intros H. inversion H. subst. discriminate.
  - destruct (String.eqb m "4"); [discriminate|].
    intros H _. inversion H. subst. eexists. reflexivity.
Qed.

Lemma first_pass_flag_witness :
  first_pass
    (self (lifetime empty_store to_header [Connect; ProcessInbox; ProcessInbox] fresh))
  = false.
Proof.
  exact (proj1 (proj2 (first_pass_flag empty_store to_header
                         "imap.example.com" "test@example.com" "password"
                         "example.com" [Connect; ProcessInbox; ProcessInbox]))
               eq_refl).
Defined.

(** C1 at the input that separates the code from the specification.
    The store refuses the first search and accepts the later ones.  The
    first sweep asks for ALL and is answered NO: no search has succeeded,
    yet the flag is down after it, because it is lowered before the status
    is looked at.  The second sweep therefore asks for UNSEEN, where the
    flip was to be counted only once a search had succeeded. *)
Theorem refused_search_lowers_flag :
  let st1 := snd (process_inbox search_refused_once to_header connected) in
  let st2 := snd (process_inbox search_refused_once to_header st1) in
  log st1 =
    [(SELECT "INBOX", Resp "OK" (Some []));
     (LIST QUOTES "archived", Resp "OK" (Some [ENone]));
     (CREATE "archived", Resp "OK" (Some []));
     (SEARCH None "ALL", Resp "NO" (Some [EBytes "try again"]))] /\
  existsb search_succeeded (log st1) = false /\
  first_pass (self st1) = false /\
  map fst (log st2) =
    map fst (log st1) ++
    [SELECT "INBOX"; LIST QUOTES "archived"; CREATE "archived";
     SEARCH None "UNSEEN"; EXPUNGE] /\
  criteria (log st2) = ["ALL"; "UNSEEN"].
Proof. repeat split; reflexivity. Qed.

Lemma determine_folder_normalizes_witness :
  fst (determine_folder empty_store "john" "example.com" connected)
    = Ret "Inbox.John" /\
  fst (determine_folder empty_store "john" "other.com" connected)
    = Ret "Inbox.John@other_com".
Proof.
  split.
  - exact (f_equal fst
             (determine_folder_normalizes empty_store "j" "ohn" "example.com"
                connected _ ltac:(discriminate) eq_refl)).
  - exact (f_equal fst
             (determine_folder_normalizes empty_store "j" "ohn" "other.com"
                connected _ ltac:(discriminate) eq_refl)).
Defined.

Lemma determine_folder_normalizes_counterexample :
  fst (determine_folder empty_store "jOHN" "example.com" connected)
    = Ret "Inbox.John" /\
  ("Inbox." ++ capitalize_first "jOHN")%string = "Inbox.JOHN".
Proof. split; reflexivity. Qed.

Lemma ignore_folder_precedes_domain_witness :
  fst (determine_folder john_archived "john" "other.com" connected)
    = Ret "archived.John".
Proof.
  exact (f_equal fst
           (ignore_folder_precedes_domain john_archived "john" "other.com"
              connected _ ltac:(discriminate) ltac:(discriminate) eq_refl)).
Defined.

Lemma sweep_resilience_witness :
  let new := log (snd (process_inbox flaky_store to_header connected)) in
  exists pre segs rep,
    new = pre ++ (SEARCH None "ALL", Resp "OK" (Some [EBytes "1 2 3 4"]))
              :: concat segs ++ [(EXPUNGE, rep)] /\
    forallb setup_event pre = true /\
    Forall2 handled (split "1 2 3 4") segs /\
    length (filter is_expunge new) = 1.
Proof.
  intros new.
  apply (sweep_resilience flaky_store to_header connected
           (snd (process_inbox flaky_store to_header connected))
           (fst (process_inbox flaky_store to_header connected))
           new None "ALL" "OK" "1 2 3 4" []).
  - exact flaky_store_protocol.
  - exact flaky_store_bodies.
  - apply surjective_pairing.
  - reflexivity.
  - vm_compute. right; right; right; left; reflexivity.
  - reflexivity.
Defined.

Lemma create_folder_reports_counterexample :
  create_folder create_raises "Inbox.John" connected =
    (Exc IMAP4_error,
     mkState (self connected) [(CREATE "Inbox.John", Raise IMAP4_error)]).
Proof. reflexivity. Qed.

(** C9 at the input that separates the code from the specification.
    An interrupt that arrives while the loop sleeps leaves
    [run_continuous] as an exception, after one complete sweep; one that
    arrives during the sweep leaves the loop through [break]. *)
Theorem interrupt_in_sleep_escapes :
  fst (run_continuous interrupt_in_sleep to_header 3 30 connected)
    = Exc KeyboardInterrupt /\
  map fst (log (snd (run_continuous interrupt_in_sleep to_header 3 30 connected)))
    = [SELECT "INBOX"; LIST QUOTES "archived"; CREATE "archived";
       SEARCH None "ALL"; EXPUNGE; SLEEP 30] /\
  run_continuous interrupt_in_sweep to_header 3 30 connected
    = (Ret Broken,
       mkState (self connected)
         [(SELECT "INBOX", Resp "OK" (Some []));
          (LIST QUOTES "archived", Resp "OK" (Some [ENone]));
          (CREATE "archived", Resp "OK" (Some []));
          (SEARCH None "ALL", Raise KeyboardInterrupt)]).
Proof. repeat split; reflexivity. Qed.

Lemma move_email_copy_failure_witness :
  fst (move_email copy_refused "1" "Inbox.John" connected) = Ret false /\
  existsb is_store (log (snd (move_email copy_refused "1" "Inbox.John" connected)))
    = false.
Proof.
  exact (move_email_copy_failure copy_refused "1" "Inbox.John" connected _ _ _
           "NO" (Some [EBytes "copy failed"]) eq_refl eq_refl
           (or_intror (or_intror (or_introl eq_refl))) eq_refl).
Defined.

(* ================================================================== *)
(** * Further properties of the program *)
(* ================================================================== *)

Import Invariant Visits Session Cases Main Config Runs.

(** ** Composing what computations emit *)

Section Emits.

Variable env : environment.
Variable P : list event -> Prop.
Hypothesis P_nil : P [].
Hypothesis P_app : forall a b, P a -> P b -> P (a ++ b).

Lemma emits_ret {A : Type} (a : A) (Q : A -> Prop) :
  Q a -> emits (ret a) P Q.
Proof.
  intros Hq st r st' H. inversion H; subst. split.
  - exists []. rewrite app_nil_r. auto.
  - intros b Hb. inversion Hb; subst. exact Hq.
Qed.

Lemma emits_raise {A : Type} (e : exn) (Q : A -> Prop) :
  emits (raise e) P Q.
Proof.
  intros st r st' H. inversion H; subst. split.
  - exists []. rewrite app_nil_r. auto.
  - intros b Hb. discriminate Hb.
Qed.

Lemma emits_lift {A : Type} (x : result A) : emits (lift x) P anything.
Proof.
  intros st r st' H. inversion H; subst. split.
  - exists []. rewrite app_nil_r. auto.
  - intros; exact I.
Qed.

Lemma emits_update (f : MTFSSProcessor -> MTFSSProcessor) :
  emits (update f) P anything.
Proof.
  intros st r st' H. inversion H; subst. split.
  - exists []. cbn. rewrite app_nil_r. auto.
  - intros; exact I.
Qed.

Lemma emits_weaken {A : Type} (m : M A) (Q Q' : A -> Prop) :
  (forall a, Q a -> Q' a) -> emits m P Q -> emits m P Q'.
Proof.
  intros Hq Hm st r st' H. destruct (Hm _ _ _ H) as [Ht Ha]. split; auto.
Qed.

Lemma emits_bind {A B : Type} (m : M A) (k : A -> M B)
      (Q : A -> Prop) (Q' : B -> Prop) :
  emits m P Q ->
  (forall a, Q a -> emits (k a) P Q') ->
  emits (bind m k) P Q'.
Proof.
  intros Hm Hk st r st'. unfold bind.
  destruct (m st) as [[a|e] st1] eqn:H1.
  - destruct (Hm _ _ _ H1) as [(t1 & L1 & P1) Ha]. intros H2.
    destruct (Hk a (Ha a eq_refl) _ _ _ H2) as [(t2 & L2 & P2) Hb].
    split; [|exact Hb].
    exists (t1 ++ t2). rewrite L2, L1, app_assoc. auto.
  - destruct (Hm _ _ _ H1) as [Ht _]. intros H; inversion H; subst.
    split; [exact Ht|]. intros b Hb. discriminate Hb.
Qed.

Lemma emits_with_self {B : Type} (k : MTFSSProcessor -> M B) (Q : B -> Prop) :
  (forall p, emits (k p) P Q) -> emits (bind get_self k) P Q.
Proof.
  intros Hk. apply (emits_bind get_self k anything); [|intros; apply Hk].
  intros st r st' H. inversion H; subst. split.
  - exists []. rewrite app_nil_r. auto.
  - intros; exact I.
Qed.

Lemma emits_try_except {A : Type} (m handler : M A) (catches : exn -> bool)
      (Q : A -> Prop) :
  emits m P Q -> emits handler P Q -> emits (try_except m catches handler) P Q.
Proof.
  intros Hm Hh st r st'. unfold try_except.
  destruct (m st) as [[a|e] st1] eqn:H1.
  - intros H; inversion H; subst. exact (Hm _ _ _ H1).
  - destruct (Hm _ _ _ H1) as [(t1 & L1 & P1) _].
    destruct (catches e).
    + intros H2. destruct (Hh _ _ _ H2) as [(t2 & L2 & P2) Hb].
      split; [|exact Hb]. exists (t1 ++ t2). rewrite L2, L1, app_assoc. auto.
    + intros H; inversion H; subst. split; [eauto|].
      intros b Hb. discriminate Hb.
Qed.

Lemma emits_try_finally {A : Type} (m : M A)
      (f : MTFSSProcessor -> MTFSSProcessor) (Q : A -> Prop) :
  emits m P Q -> emits (try_finally m f) P Q.
Proof.
  intros Hm st r st'. unfold try_finally.
  destruct (m st) as [r1 st1] eqn:H1. intros H; inversion H; subst.
  exact (Hm _ _ _ H1).
Qed.

Lemma emits_for_each {A : Type} (body : A -> M unit) (xs : list A)
      (R : A -> Prop) :
  (forall x, R x -> emits (body x) P anything) ->
  Forall R xs ->
  emits (for_each xs body) P anything.
Proof.
  intros Hb. induction 1 as [|x xs Hx _ IH]; cbn [for_each].
  - apply emits_ret. exact I.
  - apply (emits_bind _ _ anything); [apply Hb; exact Hx|].
    intros _ _. exact IH.
Qed.

Lemma emits_call (c : command) :
  (forall r, P [(c, r)]) -> emits (call env c) P anything.
Proof.
  intros Hc st r st'. unfold call.
  assert (L : P [(c, env (log st) c)]) by apply Hc.
  destruct (env (log st) c); intros H; inversion H; subst; cbn.
  all: split; [eauto|intros; exact I].
Qed.

Lemma emits_session (c : command) :
  (forall r, P [(c, r)]) -> emits (session env c) P anything.
Proof.
  intros Hc. unfold session. apply emits_with_self. intros p.
  destruct (connection p); [apply emits_call; exact Hc|apply emits_raise].
Qed.

End Emits.

(** ** What the methods emit, from what their calls emit *)

Section EmitsMethods.

Variable env : environment.
Variable message_from_bytes : string -> Message.
Variable P : list event -> Prop.
Variable R : string -> Prop.
Hypothesis P_nil : P [].
Hypothesis P_app : forall a b, P a -> P b -> P (a ++ b).
Hypothesis P_open : forall h r, P [(OPEN h, r)].
Hypothesis P_login : forall u p r, P [(LOGIN u p, r)].
Hypothesis P_close : forall r, P [(CLOSE, r)].
Hypothesis P_logout : forall r, P [(LOGOUT, r)].
Hypothesis P_select : forall r, P [(SELECT "INBOX", r)].
Hypothesis P_search : forall s r, P [(SEARCH None s, r)].
Hypothesis P_fetch : forall m r, P [(FETCH m "(RFC822)", r)].
Hypothesis P_expunge : forall r, P [(EXPUNGE, r)].
Hypothesis P_list_archive : forall r, P [(LIST QUOTES ARCHIVE_FOLDER, r)].
Hypothesis P_create_archive : forall r, P [(CREATE ARCHIVE_FOLDER, r)].
Hypothesis P_list_ignore :
  forall x r, P [(LIST QUOTES (ARCHIVE_FOLDER ++ "." ++ x)%string, r)].
Hypothesis R_unmatched : R "unmatched".
Hypothesis R_ignore : forall x, R (ARCHIVE_FOLDER ++ "." ++ x)%string.
Hypothesis R_inbox : forall x, R ("Inbox." ++ x)%string.
Hypothesis P_move :
  forall msg_id target, R target -> emits (move_email env msg_id target) P anything.

Lemma emits_folder_exists (name : string) :
  (forall r, P [(LIST QUOTES name, r)]) ->
  emits (folder_exists env name) P anything.
Proof.
  intros Hl. unfold folder_exists. apply (emits_with_self P P_nil P_app). intros p.
  destruct (connection p); [|apply (emits_raise P P_nil)].
  apply (emits_bind P P_app _ _ anything);
    [apply (emits_session env P P_nil P_app); exact Hl|].
  intros [status folders] _. apply (emits_ret P P_nil). exact I.
Qed.

Lemma emits_create_folder (name : string) :
  (forall r, P [(CREATE name, r)]) ->
  emits (create_folder env name) P anything.
Proof.
  intros Hc. unfold create_folder. apply (emits_with_self P P_nil P_app). intros p.
  destruct (connection p); [|apply (emits_ret P P_nil); exact I].
  apply (emits_bind P P_app _ _ anything);
    [apply (emits_session env P P_nil P_app); exact Hc|].
  intros r _. destruct (OK (fst r)); apply (emits_ret P P_nil); exact I.
Qed.

Lemma emits_determine_folder (user domain : string) :
  emits (determine_folder env user domain) P R.
Proof.
  unfold determine_folder.
  destruct (_ || _); [apply (emits_ret P P_nil); exact R_unmatched|].
  cbv zeta.
  apply (emits_bind P P_app _ _ anything);
    [apply emits_folder_exists; apply P_list_ignore|].
  intros [] _; [apply (emits_ret P P_nil); apply R_ignore|].
  apply (emits_with_self P P_nil P_app). intros p.
  destruct (String.eqb domain (primary_domain p));
    apply (emits_ret P P_nil); apply R_inbox.
Qed.

Lemma emits_process_message (msg_id : string) :
  emits (process_message env message_from_bytes msg_id) P anything.
Proof.
  unfold process_message.
  apply (emits_bind P P_app _ _ anything);
    [apply (emits_session env P P_nil P_app); apply P_fetch|].
  intros [status msg_data] _.
  destruct (negb (OK status)); [apply (emits_ret P P_nil); exact I|].
  apply (emits_bind P P_app _ _ anything); [apply (emits_lift P P_nil)|].
  intros [raw|] _; [|apply (emits_ret P P_nil); exact I].
  cbv zeta. destruct (extract_recipients (message_from_bytes raw)) as [|recipient ?].
  - apply (emits_bind P P_app _ _ anything); [apply P_move; exact R_unmatched|].
    intros _ _. apply (emits_ret P P_nil). exact I.
  - destruct (parse_email_address recipient) as [user domain].
    apply (emits_bind P P_app _ _ R); [apply emits_determine_folder|].
    intros target Ht.
    apply (emits_bind P P_app _ _ anything); [apply P_move; exact Ht|].
    intros _ _. apply (emits_ret P P_nil). exact I.
Qed.

Lemma emits_handler (msg_id : string) :
  emits (handler env message_from_bytes msg_id) P anything.
Proof.
  unfold handler. apply (emits_try_except P P_app).
  - apply emits_process_message.
  - apply (emits_ret P P_nil). exact I.
Qed.

Lemma emits_process_inbox :
  emits (process_inbox env message_from_bytes) P anything.
Proof.
  unfold process_inbox. apply (emits_with_self P P_nil P_app). intros p.
  destruct (connection p); [|apply (emits_ret P P_nil); exact I].
  apply (emits_bind P P_app _ _ anything);
    [apply (emits_session env P P_nil P_app); apply P_select|]. intros _ _.
  apply (emits_bind P P_app _ _ anything);
    [apply emits_folder_exists; apply P_list_archive|]. intros present _.
  apply (emits_bind P P_app _ _ anything).
  { destruct present; [apply (emits_ret P P_nil); exact I|].
    apply emits_create_folder. apply P_create_archive. }
  intros _ _. apply (emits_with_self P P_nil P_app). intros p'. cbv zeta.
  apply (emits_bind P P_app _ _ anything);
    [apply (emits_session env P P_nil P_app); apply P_search|].
  intros [status messages] _.
  apply (emits_bind P P_app _ _ anything); [apply (emits_update P P_nil)|].
  intros _ _. destruct (negb (OK status)); [apply (emits_ret P P_nil); exact I|].
  apply (emits_bind P P_app _ _ anything); [apply (emits_lift P P_nil)|].
  intros message_ids _.
  apply (emits_bind P P_app _ _ anything).
  { apply (emits_for_each P P_nil P_app _ _ (fun _ => True)).
    - intros x _. apply emits_handler.
    - apply Forall_forall. auto. }
  intros _ _.
  apply (emits_bind P P_app _ _ anything);
    [apply (emits_session env P P_nil P_app); apply P_expunge|].
  intros _ _. apply (emits_ret P P_nil). exact I.
Qed.

Lemma emits_connect : emits (connect env) P anything.
Proof.
  unfold connect. apply (emits_try_except P P_app);
    [|apply (emits_ret P P_nil); exact I].
  apply (emits_with_self P P_nil P_app). intros p.
  apply (emits_bind P P_app _ _ anything);
    [apply (emits_call env P); apply P_open|]. intros _ _.
  apply (emits_bind P P_app _ _ anything); [apply (emits_update P P_nil)|].
  intros _ _.
  apply (emits_bind P P_app _ _ anything);
    [apply (emits_session env P P_nil P_app); apply P_login|].
  intros _ _. apply (emits_ret P P_nil). exact I.
Qed.

Lemma emits_disconnect : emits (disconnect env) P anything.
Proof.
  unfold disconnect. apply (emits_with_self P P_nil P_app). intros p.
  destruct (connection p); [|apply (emits_ret P P_nil); exact I].
  apply emits_try_finally.
  apply (emits_bind P P_app _ _ anything);
    [apply (emits_session env P P_nil P_app); apply P_close|]. intros _ _.
  apply (emits_bind P P_app _ _ anything);
    [apply (emits_session env P P_nil P_app); apply P_logout|].
  intros _ _. apply (emits_ret P P_nil). exact I.
Qed.

Lemma emits_attempt : emits (attempt env message_from_bytes) P anything.
Proof.
  unfold attempt. apply (emits_bind P P_app _ _ anything).
  - unfold try_connect. apply (emits_with_self P P_nil P_app). intros p.
    destruct (connection p); [apply (emits_ret P P_nil); exact I|].
    apply (emits_bind P P_app _ _ anything); [apply emits_connect|].
    intros [] _; apply (emits_ret P P_nil); exact I.
  - intros [] _; [apply emits_process_inbox|apply (emits_ret P P_nil); exact I].
Qed.

Hypothesis P_sleep : forall n r, P [(SLEEP n, r)].

Lemma emits_run_continuous (check_interval turns : nat) :
  emits (run_continuous env message_from_bytes turns check_interval) P anything.
Proof.
  induction turns as [|n IH]; cbn [run_continuous].
  - apply (emits_ret P P_nil). exact I.
  - apply (emits_bind P P_app _ _ anything).
    + unfold iteration. apply (emits_bind P P_app _ _ anything).
      * apply (emits_try_except P P_app);
          [|apply (emits_ret P P_nil); exact I].
        apply (emits_bind P P_app _ _ anything); [apply emits_attempt|].
        intros _ _. apply (emits_ret P P_nil). exact I.
      * intros [] _; [apply (emits_ret P P_nil); exact I|].
        apply (emits_bind P P_app _ _ anything);
          [apply (emits_call env P); apply P_sleep|].
        intros _ _. apply (emits_ret P P_nil). exact I.
    + intros [] _; [exact IH|apply (emits_ret P P_nil); exact I].
Qed.

Lemma emits_invoke (m : method) :
  emits (invoke env message_from_bytes m) P anything.
Proof.
  destruct m; cbn [invoke].
  - apply (emits_bind P P_app _ _ anything); [apply emits_connect|].
    intros _ _. apply (emits_ret P P_nil). exact I.
  - apply emits_disconnect.
  - apply emits_process_inbox.
  - apply (emits_bind P P_app _ _ anything); [apply emits_run_continuous|].
    intros _ _. apply (emits_ret P P_nil). exact I.
Qed.

Lemma lifetime_emits (ms : list method) :
  forall st, exists t,
    log (lifetime env message_from_bytes ms st) = log st ++ t /\ P t.
Proof.
  induction ms as [|m ms IH]; intros st; cbn [lifetime].
  - exists []. rewrite app_nil_r. auto.
  - destruct (invoke env message_from_bytes m st) as [r st1] eqn:H1.
    destruct (emits_invoke m _ _ _ H1) as [(t1 & L1 & P1) _].
    destruct (IH st1) as (t2 & L2 & P2). cbn [snd].
    exists (t1 ++ t2). rewrite L2, L1, app_assoc. auto.
Qed.

End EmitsMethods.

(** ** Invariants of every lifetime *)

Section Pointwise.

Variable env : environment.
Variable good : event -> bool.

Lemma pointwise_nil : forallb good [] = true.
Proof. reflexivity. Qed.

Lemma pointwise_app (a b : list event) :
  forallb good a = true -> forallb good b = true -> forallb good (a ++ b) = true.
Proof. intros Ha Hb. rewrite forallb_app, Ha, Hb. reflexivity. Qed.

Lemma pointwise_one (e : event) :
  good e = true -> forallb good [e] = true.
Proof. intros H. cbn. rewrite H. reflexivity. Qed.

(** [move_email] issues nothing but the existence check and the create
    command for its target, the copy to it and the deletion flag. *)
Lemma emits_move_email (msg_id target : string) :
  (forall r, good (LIST QUOTES target, r) = true) ->
  (forall r, good (CREATE target, r) = true) ->
  (forall r, good (COPY msg_id target, r) = true) ->
  (forall r, good (STORE msg_id "+FLAGS" "\Deleted", r) = true) ->
  emits (move_email env msg_id target) (fun t => forallb good t = true) anything.
Proof.
  intros Hl Hc Hy Hs.
  pose (P := fun t : list event => forallb good t = true).
  change (emits (move_email env msg_id target) P anything).
  assert (P_nil : P []) by reflexivity.
  assert (P_app : forall a b, P a -> P b -> P (a ++ b)) by exact pointwise_app.
  unfold move_email. apply (emits_with_self P P_nil P_app). intros p.
  destruct (connection p); [|apply (emits_raise P P_nil)].
  apply (emits_bind P P_app _ _ anything).
  { apply (emits_folder_exists env P P_nil P_app).
    intros r. apply pointwise_one, Hl. }
  intros present _.
  apply (emits_bind P P_app _ _ anything).
  { destruct present; [apply (emits_ret P P_nil); exact I|].
    apply (emits_create_folder env P P_nil P_app).
    intros r. apply pointwise_one, Hc. }
  intros _ _.
  apply (emits_bind P P_app _ _ anything).
  { apply (emits_session env P P_nil P_app). intros r. apply pointwise_one, Hy. }
  intros r _. destruct (OK (fst r)); [|apply (emits_ret P P_nil); exact I].
  apply (emits_bind P P_app _ _ anything).
  { apply (emits_session env P P_nil P_app). intros r'. apply pointwise_one, Hs. }
  intros _ _. apply (emits_ret P P_nil). exact I.
Qed.

End Pointwise.

Lemma routed_known (name : string) : routed name = true -> known_folder name = true.
Proof. unfold known_folder. intros ->. apply orb_true_r. Qed.

Lemma flags_follow_any (t : list event) :
  flags_follow_copies None t = true ->
  forall prev, flags_follow_copies prev t = true.
Proof.
  destruct t as [|e rest]; [reflexivity|]. cbn [flags_follow_copies].
  intros H prev. apply andb_true_iff in H. destruct H as [H1 H2].
  rewrite H2, andb_true_r. revert H1. unfold flag_follows_copy.
  destruct (fst e); try reflexivity. rewrite andb_false_r. discriminate.
Qed.

Lemma flags_follow_app (a b : list event) :
  flags_follow_copies None a = true -> flags_follow_copies None b = true ->
  flags_follow_copies None (a ++ b) = true.
Proof.
  intros Ha Hb. revert Ha. generalize (@None event).
  induction a as [|e a IH]; intros prev; cbn [app flags_follow_copies].
  - intros _. apply flags_follow_any, Hb.
  - intros H. apply andb_true_iff in H. destruct H as [H1 H2].
    rewrite H1, (IH _ H2). reflexivity.
Qed.

Section Lifetime.

Variable env : environment.
Variable message_from_bytes : string -> Message.

Ltac open_state st :=
  let l := fresh "l" in
  destruct st as [[? ? ? ? [?|] ?] l].

Ltac expose :=
  unfold process_message, move_email, determine_folder, folder_exists,
    create_folder, session, call, bind, get_self, ret, raise, lift, update,
    try_except;
  cbn.

Ltac answers :=
  repeat (first
    [ match goal with
      | |- context [match env ?h ?c with _ => _ end] =>
          let E := fresh "E" in destruct (env h c) as [? ?|?] eqn:E
      end
    | match goal with
      | |- context [OK ?t] =>
          let E := fresh "E" in destruct (OK t) eqn:E
      end
    | match goal with
      | |- context [if ?b then _ else _] =>
          let E := fresh "E" in destruct b eqn:E
      end ]; cbn).

Lemma move_email_flags (msg_id target : string) :
  emits (move_email env msg_id target)
        (fun t => flags_follow_copies None t = true) anything.
Proof.
  intros st r st'. open_state st; expose; answers.
  all: intros Hrun; inversion Hrun; subst; clear Hrun; cbn [log].
  all: (split; [|intros; exact I]).
  all: eexists; (split; [repeat rewrite <- app_assoc; cbn [app]; try reflexivity;
                         symmetry; apply app_nil_r|]).
  all: cbn; unfold copied_ok, copies; cbn; rewrite ?String.eqb_refl;
    repeat match goal with H : OK _ = _ |- _ => rewrite H end; reflexivity.
Qed.

(** X13.  Through every sequence of method calls, starting from any state,
    each store command the program adds to the log sets the deletion flag
    ([+FLAGS \Deleted]) on one message, and the call made just before it
    is a copy of that same message that came back OK: nothing is flagged
    for deletion that was not copied first. *)
Theorem deletion_follows_copy (ms : list method) (st : state) :
  exists t,
    log (lifetime env message_from_bytes ms st) = log st ++ t /\
    flags_follow_copies None t = true.
Proof.
  apply (lifetime_emits env message_from_bytes
           (fun t => flags_follow_copies None t = true) anything);
    try reflexivity; try exact flags_follow_app.
  intros msg_id target _. apply move_email_flags.
Qed.

(** X14.  Through every sequence of method calls, the only mailbox selected
    is INBOX, and the only folders listed, created or copied to are
    [archived], [unmatched] and those whose name starts with [archived.]
    or [Inbox.]; a copy never goes to [archived] itself. *)
Theorem only_known_folders (ms : list method) (st : state) :
  exists t,
    log (lifetime env message_from_bytes ms st) = log st ++ t /\
    forallb touches_known t = true.
Proof.
  apply (lifetime_emits env message_from_bytes
           (fun t => forallb touches_known t = true)
           (fun name => routed name = true));
    try reflexivity; try exact (pointwise_app touches_known);
    try (intros [|c x]; reflexivity).
  intros msg_id target Ht. apply emits_move_email; intros r;
    unfold touches_known; cbn [fst]; rewrite ?String.eqb_refl, ?Ht,
    ?(routed_known _ Ht); reflexivity.
Qed.

Lemma attempt_never_sleeps :
  emits (attempt env message_from_bytes) (fun t => sleeps t = []) anything.
Proof.
  assert (E : forall t, sleeps t = [] <->
                forallb (fun e => negb (is_sleep e)) t = true).
  { induction t as [|[[] ?] t IH]; cbn; try exact IH; try tauto.
    split; discriminate. }
  assert (W : forall A (m : M A),
             emits m (fun t => forallb (fun e => negb (is_sleep e)) t = true) anything ->
             emits m (fun t => sleeps t = []) anything).
  { intros A m H st r st' Hrun. destruct (H st r st' Hrun) as [(t & L & Pt) Q].
    split; [|exact Q]. exists t. split; [exact L|]. apply E, Pt. }
  apply W.
  apply (emits_attempt env message_from_bytes _ anything);
    try reflexivity; try exact (pointwise_app _).
  intros msg_id target _. apply emits_move_email; reflexivity.
Qed.

Lemma sleeps_app (a b : list event) : sleeps (a ++ b) = sleeps a ++ sleeps b.
Proof. unfold sleeps. apply flat_map_app. Qed.

(** X18.  The loop of [run_continuous] sleeps once per completed turn, for
    the interval it was given, and nowhere else: after [turns] turns that
    all went round the log holds exactly [turns] sleeps; a loop left
    through [break] or an exception slept at most once per turn begun, and
    fewer than [turns] times when it was left through [break]. *)
Theorem one_sleep_per_turn (check_interval turns : nat) :
  forall st,
    let run := run_continuous env message_from_bytes turns check_interval st in
    exists t k,
      log (snd run) = log st ++ t /\
      sleeps t = repeat check_interval k /\
      k <= turns /\
      (fst run = Ret Running -> k = turns) /\
      (fst run = Ret Broken -> k < turns).
Proof.
  induction turns as [|n IH]; intros st; cbv zeta.
  - exists [], 0. cbn. rewrite app_nil_r. repeat split; auto; discriminate.
  - assert (Hstep :
      run_continuous env message_from_bytes (S n) check_interval st =
      match iteration env message_from_bytes check_interval st with
      | (Ret true, s1) => run_continuous env message_from_bytes n check_interval s1
      | (Ret false, s1) => (Ret Broken, s1)
      | (Exc e, s1) => (Exc e, s1)
      end).
    { cbn [run_continuous]. unfold bind.
      destruct (iteration env message_from_bytes check_interval st)
        as [[[]|] ?]; reflexivity. }
    rewrite Hstep, iteration_run. clear Hstep.
    destruct (attempt env message_from_bytes st) as [ra st1] eqn:Ha.
    destruct (attempt_never_sleeps _ _ _ Ha) as [(t1 & L1 & S1) _].
    destruct ra as [[]|e].
    + unfold call.
      destruct (env (log st1) (SLEEP check_interval)) as [typ dat|e] eqn:Es.
      * match goal with
        | |- context [run_continuous _ _ n check_interval ?s] =>
            destruct (IH s) as (t2 & k & L2 & S2 & K & KR & KB)
        end.
        cbv zeta in L2, KR, KB. cbn [log] in L2.
        exists (t1 ++ (SLEEP check_interval, Resp typ dat) :: t2), (S k).
        split; [rewrite L2, L1; repeat rewrite <- app_assoc; reflexivity|].
        rewrite sleeps_app, S1. cbn [app sleeps flat_map fst].
        fold (sleeps t2). rewrite S2.
        split; [reflexivity|]. split; [lia|]. split.
        -- intros H. rewrite (KR H). reflexivity.
        -- intros H. specialize (KB H). lia.
      * cbn [fst snd log]. exists (t1 ++ [(SLEEP check_interval, Raise e)]), 1.
        split; [rewrite L1, app_assoc; reflexivity|].
        rewrite sleeps_app, S1. cbn. repeat split; try lia; discriminate.
    + exists t1, 0. destruct (is_KeyboardInterrupt e); cbn.
      all: repeat split; auto; try lia; discriminate.
Qed.

End Lifetime.

(** ** Which messages a sweep visits *)

Lemma listed_app (a b : list event) : listed (a ++ b) = listed a ++ listed b.
Proof. unfold listed. apply flat_map_app. Qed.

Lemma fetched_app (a b : list event) : fetched (a ++ b) = fetched a ++ fetched b.
Proof. unfold fetched. apply flat_map_app. Qed.

Lemma setup_unlisted (t : list event) :
  forallb setup_event t = true ->
  listed t = [] /\ fetched t = [] /\
  forall ids, forallb (about_message ids) t = true.
Proof.
  induction t as [|[c r] t IH]; [auto|]. cbn [forallb].
  intros H. apply andb_true_iff in H. destruct H as [H1 H2].
  destruct (IH H2) as (A & B & C).
  destruct c; try discriminate H1; cbn; auto.
Qed.

Lemma relocation_unlisted (ids : list string) (msg_id : string) (t : list event) :
  In msg_id ids ->
  forallb (relocation_event msg_id) t = true ->
  listed t = [] /\ fetched t = [] /\ forallb (about_message ids) t = true.
Proof.
  intros Hin. induction t as [|[c r] t IH]; [auto|]. cbn [forallb].
  intros H. apply andb_true_iff in H. destruct H as [H1 H2].
  destruct (IH H2) as (A & B & C).
  assert (Hm : forall m, String.eqb m msg_id = true ->
                         existsb (String.eqb m) ids = true).
  { intros m Hm. apply existsb_exists. exists msg_id. auto. }
  destruct c; try discriminate H1; cbn in H1 |- *; rewrite ?(Hm _ H1); auto.
Qed.

Lemma handled_visits (ids : list string) (msg_id : string) (seg : list event) :
  In msg_id ids -> handled msg_id seg ->
  listed seg = [] /\ fetched seg = [msg_id] /\
  forallb (about_message ids) seg = true.
Proof.
  intros Hin (rep & tl & -> & Hev & _).
  destruct (relocation_unlisted ids msg_id tl Hin Hev) as (A & B & C).
  change ((FETCH msg_id "(RFC822)", rep) :: tl)
    with (@app event [(FETCH msg_id "(RFC822)", rep)] tl).
  rewrite listed_app, fetched_app, forallb_app, A, B, C. cbn.
  assert (E : existsb (String.eqb msg_id) ids = true).
  { apply existsb_exists. exists msg_id. split; [exact Hin|apply String.eqb_refl]. }
  rewrite E. auto.
Qed.

Lemma segments_visit (ids xs : list string) (segs : list (list event)) :
  incl xs ids -> Forall2 handled xs segs ->
  listed (concat segs) = [] /\ fetched (concat segs) = xs /\
  forallb (about_message ids) (concat segs) = true.
Proof.
  intros Hincl H. induction H as [|x seg xs segs Hseg _ IH]; [auto|].
  destruct IH as (A & B & C); [intros y Hy; apply Hincl; right; exact Hy|].
  destruct (handled_visits ids x seg) as (A1 & B1 & C1);
    [apply Hincl; left; reflexivity|exact Hseg|].
  cbn [concat]. rewrite listed_app, fetched_app, forallb_app, A, B, C, A1, B1, C1.
  auto.
Qed.

Lemma firstn_incl {A : Type} (k : nat) (l : list A) : incl (firstn k l) l.
Proof.
  revert k. induction l as [|x l IH]; intros [|k]; cbn [firstn];
    try (intros z Hz; contradiction Hz).
  intros z [<-|Hz]; [left; reflexivity|right; exact (IH k z Hz)].
Qed.

Lemma sweep_visits (env : environment) (scope : string) (new : list event)
      (r : result unit) (b : bool) :
  sweep env scope new r b ->
  forallb (about_message (listed new)) new = true /\
  (exists k, fetched new = firstn k (listed new)) /\
  (r = Ret tt -> fetched new = listed new).
Proof.
  assert (Hone : forall typ dat,
            listed [(SEARCH None scope, Resp typ dat)] =
            if OK typ then
              match message_ids_of dat with Ret ids => ids | Exc _ => [] end
            else []).
  { intros typ dat. cbn. apply app_nil_r. }
  intros H. destruct H as
    [ pre e Hpre _ | pre e Hpre | pre typ dat Hpre Hno
    | pre typ dat e Hpre Hok Hids | pre typ dat ids segs e Hpre Hok Hids Hsegs _ _
    | pre typ dat ids segs rep Hpre Hok Hids Hsegs ].
  - destruct (setup_unlisted pre Hpre) as (A & B & C).
    rewrite A, B. split; [apply C|]. split; [exists 0; reflexivity|reflexivity].
  - destruct (setup_unlisted pre Hpre) as (A & B & C).
    rewrite listed_app, fetched_app, forallb_app, A, B, C. cbn.
    split; [reflexivity|]. split; [exists 0; reflexivity|reflexivity].
  - destruct (setup_unlisted pre Hpre) as (A & B & C).
    rewrite listed_app, fetched_app, forallb_app, A, B, Hone, Hno, C. cbn.
    split; [reflexivity|]. split; [exists 0; reflexivity|reflexivity].
  - destruct (setup_unlisted pre Hpre) as (A & B & C).
    rewrite listed_app, fetched_app, forallb_app, A, B, Hone, Hok, Hids, C. cbn.
    split; [reflexivity|]. split; [exists 0; reflexivity|reflexivity].
  - destruct (setup_unlisted pre Hpre) as (A & B & C).
    destruct (segments_visit ids _ segs (firstn_incl _ ids) Hsegs) as (A1 & B1 & C1).
    change ((SEARCH None scope, Resp typ dat) :: concat segs)
      with (@app event [(SEARCH None scope, Resp typ dat)] (concat segs)).
    rewrite !listed_app, !fetched_app, A, B, A1, B1, Hone, Hok, Hids.
    cbn [app fetched flat_map fst]. rewrite app_nil_r.
    rewrite !forallb_app, C. cbn. rewrite ?forallb_app, C1. cbn.
    split; [reflexivity|]. split; [eexists; reflexivity|discriminate].
  - destruct (setup_unlisted pre Hpre) as (A & B & C).
    destruct (segments_visit ids ids segs (incl_refl ids) Hsegs) as (A1 & B1 & C1).
    change ((SEARCH None scope, Resp typ dat) :: concat segs ++ [(EXPUNGE, rep)])
      with (@app event [(SEARCH None scope, Resp typ dat)]
                  (concat segs ++ [(EXPUNGE, rep)])).
    rewrite !listed_app, !fetched_app, A, B, A1, B1, Hone, Hok, Hids.
    cbn [app listed fetched flat_map fst]. rewrite !app_nil_r.
    rewrite !forallb_app, C. cbn. rewrite ?forallb_app, C1. cbn.
    split; [reflexivity|]. split; [|reflexivity].
    exists (length ids). symmetry. apply firstn_all.
Qed.

Section Sweep.

Variable env : environment.
Variable message_from_bytes : string -> Message.

Lemma process_inbox_new (st : state) :
  exists new b,
    log (snd (process_inbox env message_from_bytes st)) = log st ++ new /\
    (new = [] /\ fst (process_inbox env message_from_bytes st) = Ret tt \/
     sweep env (scope_of (self st)) new
           (fst (process_inbox env message_from_bytes st)) b).
Proof.
  destruct (connection (self st)) as [x|] eqn:Hc.
  - destruct (process_inbox env message_from_bytes st) as [r st'] eqn:Hrun.
    destruct (process_inbox_sweep env message_from_bytes st st' r) as (new & b & Hs & ->);
      [congruence|exact Hrun|].
    exists new, b. cbn. auto.
  - exists [], false. unfold process_inbox, bind, get_self. rewrite Hc. cbn.
    rewrite app_nil_r. auto.
Qed.

(** X15.  A sweep touches only messages its own search listed: every
    message number that [process_inbox] fetches, copies or flags is one of
    the numbers in the response of the search of that same call; when the
    search is refused, raises, or is never reached, the call fetches,
    copies and flags nothing. *)
Theorem sweep_touches_listed (st : state) :
  exists new,
    log (snd (process_inbox env message_from_bytes st)) = log st ++ new /\
    forallb (about_message (listed new)) new = true.
Proof.
  destruct (process_inbox_new st) as (new & b & L & [[-> _]|Hs]).
  - exists []. auto.
  - exists new. split; [exact L|]. exact (proj1 (sweep_visits _ _ _ _ _ Hs)).
Qed.

(** X16.  A sweep fetches the listed messages in the order of the search
    response, one fetch for each entry: the numbers fetched are an
    initial part of the numbers listed, and all of them when the call
    returns. *)
Theorem sweep_visits_in_order (st : state) :
  exists new,
    log (snd (process_inbox env message_from_bytes st)) = log st ++ new /\
    (exists k, fetched new = firstn k (listed new)) /\
    (fst (process_inbox env message_from_bytes st) = Ret tt ->
     fetched new = listed new).
Proof.
  destruct (process_inbox_new st) as (new & b & L & [[-> _]|Hs]).
  - exists []. split; [exact L|]. split; [exists 0|]; reflexivity.
  - exists new. split; [exact L|]. exact (proj2 (sweep_visits _ _ _ _ _ Hs)).
Qed.

End Sweep.

(** ** The gateway methods one by one *)

Section Gateway.

Variable env : environment.
Variable message_from_bytes : string -> Message.

Ltac read_log H :=
  repeat rewrite <- app_assoc in H;
  lazymatch type of H with
  | ?l = ?l ++ _ => rewrite <- (app_nil_r l) in H at 1
  | _ => idtac
  end;
  apply app_inv_head in H; simpl in H.

Ltac open_state st :=
  let l := fresh "l" in
  destruct st as [[? ? ? ? [?|] ?] l].

Ltac expose :=
  unfold process_message, move_email, determine_folder, folder_exists,
    create_folder, session, call, bind, get_self, ret, raise, lift, update,
    try_except;
  cbn.

Ltac answers :=
  repeat (first
    [ match goal with
      | |- context [match env ?h ?c with _ => _ end] =>
          let E := fresh "E" in destruct (env h c) as [? ?|?] eqn:E
      end
    | match goal with
      | |- context [OK ?t] =>
          let E := fresh "E" in destruct (OK t) eqn:E
      end
    | match goal with
      | |- context [if ?b then _ else _] =>
          let E := fresh "E" in destruct b eqn:E
      end ]; cbn).

Ltac finish_run :=
  let H := fresh "Hrun" in
  intros H; inversion H; subst; clear H; cbn.

(** X7.  Without a connection none of the methods that use the session
    issues a call or changes the processor: [folder_exists] and
    [move_email] raise [ValueError] (which their [except IMAP4.error]
    does not catch), [determine_folder] raises it through
    [folder_exists] when user and domain are non-empty, and
    [process_inbox] and [disconnect] return at once. *)
Theorem no_connection_no_call (st : state) (name msg_id target user domain : string) :
  connection (self st) = None ->
  folder_exists env name st = (Exc ValueError, st) /\
  move_email env msg_id target st = (Exc ValueError, st) /\
  (user <> EmptyString -> domain <> EmptyString ->
   determine_folder env user domain st = (Exc ValueError, st)) /\
  process_inbox env message_from_bytes st = (Ret tt, st) /\
  disconnect env st = (Ret tt, st).
Proof.
  intros Hc.
  unfold folder_exists, move_email, determine_folder, process_inbox, disconnect,
    folder_exists, bind, get_self, raise, ret.
  rewrite Hc. repeat split.
  intros Hu Hd. apply String.eqb_neq in Hu. apply String.eqb_neq in Hd.
  rewrite Hu, Hd. cbn [orb]. cbv zeta. rewrite Hc. reflexivity.
Qed.

(** X6.  On a connected processor [folder_exists] answers true exactly
    when the list command comes back with status OK and a listing whose
    first entry is not [None]; an OK response that lists nothing
    ([[None]], an empty list, or no list) counts as absent, and so does
    any other status. *)
Theorem folder_exists_true_iff (name : string) (st : state) (x : string) :
  connection (self st) = Some x ->
  (fst (folder_exists env name st) = Ret true <->
   exists status first rest,
     env (log st) (LIST QUOTES name) = Resp status (Some (first :: rest)) /\
     OK status = true /\ first <> ENone).
Proof.
  intros Hc. rewrite (folder_exists_run env name st x Hc). cbn [fst].
  destruct (env (log st) (LIST QUOTES name)) as [status [[|first rest]|]|e].
  - rewrite andb_false_r. split; [discriminate|].
    intros (? & ? & ? & H & _). discriminate H.
  - split.
    + intros H. exists status, first, rest. split; [reflexivity|].
      assert (H' : OK status && match first with ENone => false | _ => true end
                   = true) by (destruct first; congruence).
      apply andb_true_iff in H'. destruct H' as [H1 H2].
      split; [exact H1|]. intros ->. discriminate H2.
    + intros (s & f & r & H & Hok & Hf). inversion H; subst.
      rewrite Hok. destruct f; try reflexivity. contradiction Hf. reflexivity.
  - rewrite andb_false_r. split; [discriminate|].
    intros (? & ? & ? & H & _). discriminate H.
  - split; [discriminate|]. intros (? & ? & ? & H & _). discriminate H.
Qed.

(** X8.  What [connect] can do.  It answers true only after the session
    was opened to the configured server and the login with the configured
    credentials came back, and then holds the session.  It answers false
    only when one of the two raised a protocol error: the opening, and
    then the processor is unchanged, or the login, and then the session
    just opened stays in [self.connection].  It never raises a protocol
    error; any other exception is the one raised by its last call. *)
Theorem connect_outcomes (st : state) :
  let run := connect env st in
  let p := self st in
  let opening := OPEN (imap_server p) in
  let login := LOGIN (username p) (password p) in
  match fst run with
  | Ret true =>
      self (snd run) = with_connection (Some (imap_server p)) p /\
      exists t1 d1 t2 d2,
        log (snd run) = log st ++ [(opening, Resp t1 d1); (login, Resp t2 d2)]
  | Ret false =>
      (self (snd run) = p /\
       log (snd run) = log st ++ [(opening, Raise IMAP4_error)]) \/
      (self (snd run) = with_connection (Some (imap_server p)) p /\
       exists t1 d1,
         log (snd run) =
           log st ++ [(opening, Resp t1 d1); (login, Raise IMAP4_error)])
  | Exc e =>
      is_IMAP4_error e = false /\
      exists pre c, log (snd run) = log st ++ pre ++ [(c, Raise e)]
  end.
Proof.
  cbv zeta. unfold connect, try_except, session, call, bind, get_self, update,
    ret, raise. cbn.
  destruct (env (log st) (OPEN (imap_server (self st)))) as [t1 d1|e1] eqn:E1; cbn.
  - match goal with
    | |- context [env ?h (LOGIN ?u ?p)] =>
        destruct (env h (LOGIN u p)) as [t2 d2|e2] eqn:E2; cbn
    end.
    + split; [reflexivity|]. exists t1, d1, t2, d2.
      rewrite <- app_assoc. reflexivity.
    + destruct e2; cbn.
      1: right; split; [reflexivity|]; exists t1, d1;
           rewrite <- app_assoc; reflexivity.
      all: split; [reflexivity|];
        eexists [_], _; rewrite <- app_assoc; reflexivity.
  - destruct e1; cbn.
    1: left; split; [destruct st as [[] ?]; reflexivity|reflexivity].
    all: split; [reflexivity|]; eexists [], _; reflexivity.
Qed.

(** X9.  A rejected login leaves the session object behind.  When the
    server accepts the connection and the login raises a protocol error,
    [connect] answers false but [self.connection] holds the session; the
    next turn of the loop therefore does not connect again ([try_connect]
    answers true without a call) and sweeps on the session that never
    logged in. *)
Theorem failed_login_keeps_session (st : state) (typ : string) (dat : data) :
  env (log st) (OPEN (imap_server (self st))) = Resp typ dat ->
  env (log st ++ [(OPEN (imap_server (self st)), Resp typ dat)])
      (LOGIN (username (self st)) (password (self st))) = Raise IMAP4_error ->
  exists st',
    connect env st = (Ret false, st') /\
    connection (self st') = Some (imap_server (self st)) /\
    try_connect env st' = (Ret true, st') /\
    attempt env message_from_bytes st' = process_inbox env message_from_bytes st'.
Proof.
  intros Ho Hl.
  exists (mkState (with_connection (Some (imap_server (self st))) (self st))
            ((log st ++ [(OPEN (imap_server (self st)), Resp typ dat)]) ++
             [(LOGIN (username (self st)) (password (self st)),
               Raise IMAP4_error)])).
  split.
  { unfold connect, try_except, session, call, bind, get_self, update, ret, raise.
    cbn. rewrite Ho. cbn. rewrite Hl. cbn. reflexivity. }
  split; [reflexivity|]. split.
  - apply try_connect_connected. cbn. discriminate.
  - unfold attempt, bind. rewrite try_connect_connected; [reflexivity|].
    cbn. discriminate.
Qed.

(** X10.  [disconnect] always leaves the processor without a connection
    and leaves the first-sweep flag alone.  With a session it issues
    close and then logout; when close raises, logout is skipped, the
    exception is raised to the caller, and the session is dropped all the
    same. *)
Theorem disconnect_outcomes (st : state) :
  let run := disconnect env st in
  connection (self (snd run)) = None /\
  first_pass (self (snd run)) = first_pass (self st) /\
  match connection (self st) with
  | None => run = (Ret tt, st)
  | Some _ =>
      match env (log st) CLOSE with
      | Raise e =>
          fst run = Exc e /\ log (snd run) = log st ++ [(CLOSE, Raise e)]
      | Resp typ dat =>
          exists r,
            log (snd run) = log st ++ [(CLOSE, Resp typ dat); (LOGOUT, r)] /\
            fst run = match r with Raise e => Exc e | Resp _ _ => Ret tt end
      end
  end.
Proof.
  cbv zeta. open_state st;
    unfold disconnect, try_finally, session, call, bind, get_self, ret, raise;
    cbn; [|auto].
  destruct (env l CLOSE) as [typ dat|e] eqn:E1; cbn; [|auto].
  match goal with
  | |- context [env ?h LOGOUT] => destruct (env h LOGOUT) as [t2 d2|e2] eqn:E2; cbn
  end.
  all: split; [reflexivity|]; split; [reflexivity|]; eexists;
    rewrite <- app_assoc; split; reflexivity.
Qed.

(** X11.  [move_email] answers true exactly when the store command that
    sets the deletion flag came back, with whatever status: the response
    to the store command is not examined. *)
Theorem move_email_true_iff_flagged (msg_id target : string) (st st' : state)
        (r : result bool) (new : list event) :
  move_email env msg_id target st = (r, st') ->
  log st' = log st ++ new ->
  (r = Ret true <->
   exists typ dat, In (STORE msg_id "+FLAGS" "\Deleted", Resp typ dat) new).
Proof.
  open_state st; expose; answers; finish_run; intros Hlog; read_log Hlog;
    subst new.
  all: split;
    [ intros H; try discriminate H; do 2 eexists; cbn;
      repeat (first [left; reflexivity | right])
    | intros (t & d & Hin); cbn in Hin;
      repeat (destruct Hin as [Hin|Hin]; try discriminate Hin);
      try contradiction; try reflexivity ].
Qed.

(** X12.  [move_email] creates the target folder only after the existence
    check reported it absent, and does not examine what [create_folder]
    answers: whenever the create command comes back, with whatever
    status, the copy is attempted. *)
Theorem create_only_when_absent (msg_id target name : string) (st st' : state)
        (r : result bool) (new : list event) (rc : reply) :
  move_email env msg_id target st = (r, st') ->
  log st' = log st ++ new ->
  In (CREATE name, rc) new ->
  name = target /\
  (exists rl, In (LIST QUOTES target, rl) new /\ lists_folder rl = false) /\
  (raised (CREATE name, rc) = false ->
   exists ry, In (COPY msg_id target, ry) new).
Proof.
  open_state st; expose; answers; finish_run; intros Hlog; read_log Hlog;
    subst new; cbn; intros Hin.
  all: repeat (destruct Hin as [Hin|Hin]; try discriminate Hin);
    try contradiction.
  all: inversion Hin; subst; clear Hin.
  all: split; [reflexivity|]; split;
    [ eexists; split; [left; reflexivity|];
      unfold lists_folder; try discriminate;
      repeat match goal with
        | H : OK _ = _ |- _ => rewrite H; clear H
        end;
      try reflexivity;
      try match goal with
        | |- match ?d with _ => _ end = false =>
            destruct d as [[|[] ?]|]; first [reflexivity | discriminate]
        end
    | cbn; intros H; try discriminate H; eexists;
      repeat (first [left; reflexivity | right]) ].
Qed.

(** X4.  [determine_folder] never changes the processor and makes at most
    one call, the existence check of the ignore folder
    ["archived.<User>"]; it makes none, and answers ["unmatched"], when
    user or domain is empty.  Whatever it answers is ["unmatched"] or a
    name under [archived.] or [Inbox.]. *)
Theorem determine_folder_shape (user domain : string) (st : state) :
  let run := determine_folder env user domain st in
  self (snd run) = self st /\
  (log (snd run) = log st \/
   exists r,
     log (snd run) =
       log st ++ [(LIST QUOTES (ARCHIVE_FOLDER ++ "." ++ capitalize user)%string, r)]) /\
  (forall name, fst run = Ret name -> routed name = true) /\
  (String.eqb user EmptyString || String.eqb domain EmptyString = true ->
   run = (Ret "unmatched", st)).
Proof.
  cbv zeta. unfold determine_folder.
  destruct (String.eqb user EmptyString || String.eqb domain EmptyString).
  - unfold ret. cbn. repeat split; auto.
    intros name H. inversion H. reflexivity.
  - cbv zeta. open_state st; unfold folder_exists, session, call, bind, get_self,
      ret, raise; cbn.
    + answers.
      all: repeat split; try discriminate; eauto.
      all: intros name H; inversion H; subst; clear H; unfold routed; cbn;
        destruct (capitalize user); reflexivity.
    + repeat split; try discriminate; auto.
Qed.

(** X20.  The loop outlives a server that refuses the session.  If opening it
    always raises a protocol error and the sleep always returns,
    [run_continuous] goes round for as many turns as it is given: each
    turn tries to open the session once and sleeps once, nothing else is
    called, and the processor stays as it was, without a connection. *)
Theorem unreachable_server_retries (turns check_interval : nat) :
  forall st,
    connection (self st) = None ->
    (forall h host, env h (OPEN host) = Raise IMAP4_error) ->
    (forall h n, exists typ dat, env h (SLEEP n) = Resp typ dat) ->
    let run := run_continuous env message_from_bytes turns check_interval st in
    fst run = Ret Running /\
    self (snd run) = self st /\
    exists t,
      log (snd run) = log st ++ t /\
      map fst t =
        concat (repeat [OPEN (imap_server (self st)); SLEEP check_interval] turns).
Proof.
  induction turns as [|n IH]; intros st Hc Ho Hs; cbv zeta.
  - cbn. repeat split. exists []. rewrite app_nil_r. auto.
  - assert (Ha : attempt env message_from_bytes st =
                 (Ret tt, mkState (self st)
                            (log st ++ [(OPEN (imap_server (self st)),
                                         Raise IMAP4_error)]))).
    { unfold attempt, try_connect, connect, try_except, call, bind, get_self, ret.
      rewrite Hc. cbn. rewrite Ho. reflexivity. }
    assert (Hstep :
      run_continuous env message_from_bytes (S n) check_interval st =
      match iteration env message_from_bytes check_interval st with
      | (Ret true, s1) => run_continuous env message_from_bytes n check_interval s1
      | (Ret false, s1) => (Ret Broken, s1)
      | (Exc e, s1) => (Exc e, s1)
      end).
    { cbn [run_continuous]. unfold bind.
      destruct (iteration env message_from_bytes check_interval st)
        as [[[]|] ?]; reflexivity. }
    rewrite Hstep, iteration_run, Ha. clear Hstep. unfold call. cbn [log self].
    match goal with
    | |- context [env ?h (SLEEP check_interval)] =>
        destruct (Hs h check_interval) as (typ & dat & E); rewrite E
    end.
    match goal with
    | |- context [run_continuous _ _ n check_interval ?s] =>
        destruct (IH s Hc Ho Hs) as (R1 & R2 & t & L & F)
    end.
    cbv zeta in R1, R2, L. cbn [self log] in R2, L, F.
    split; [exact R1|]. split; [exact R2|].
    eexists. split; [rewrite L; repeat rewrite <- app_assoc; reflexivity|].
    cbn [app map fst repeat concat]. rewrite F. reflexivity.
Qed.

End Gateway.

Lemma upper_of_lower (c : ascii) : upper_char (lower_char c) = upper_char c.
Proof. destruct c as [[] [] [] [] [] [] [] []]; vm_compute; reflexivity. Qed.

(** X5.  Routing does not look at the letter case of the user part: two
    users that differ only in case are capitalized to the same folder
    name, so [determine_folder] runs the same for both (while the domain
    is compared with the primary domain as it stands). *)
Theorem determine_folder_ignores_user_case (env : environment)
        (user1 user2 domain : string) (st : state) :
  lower user1 = lower user2 ->
  determine_folder env user1 domain st = determine_folder env user2 domain st.
Proof.
  intros H. unfold determine_folder.
  destruct user1 as [|c1 r1], user2 as [|c2 r2]; try discriminate H;
    [reflexivity|].
  cbn in H. inversion H as [[Hc Hr]].
  cbn [capitalize String.eqb orb]. cbv zeta.
  rewrite <- (upper_of_lower c1), <- (upper_of_lower c2), Hc.
  unfold lower. rewrite Hr. reflexivity.
Qed.

(** ** From the header to the routing key *)

Lemma lstrip_plain (s : string) :
  match s with EmptyString => True | String c _ => is_space c = false end ->
  lstrip s = s.
Proof. destruct s as [|c r]; [reflexivity|]. cbn. intros ->. reflexivity. Qed.

Lemma rstrip_plain (s : string) :
  all_chars (fun c => negb (is_space c)) s = true -> rstrip s = s.
Proof.
  induction s as [|c r IH]; [reflexivity|]. cbn [all_chars rstrip].
  intros H. apply andb_true_iff in H. destruct H as [Hc Hr].
  rewrite (IH Hr). apply negb_true_iff in Hc. rewrite Hc.
  destruct r; reflexivity.
Qed.

Lemma strip_plain (s : string) :
  all_chars (fun c => negb (is_space c)) s = true -> strip s = s.
Proof.
  intros H. unfold strip. rewrite lstrip_plain; [apply rstrip_plain, H|].
  destruct s as [|c r]; [exact I|]. cbn in H.
  apply andb_true_iff in H. destruct H as [Hc _].
  apply negb_true_iff in Hc. exact Hc.
Qed.

Lemma address_chars_plain (c : ascii) :
  local_char c || domain_char c || tld_char c ||
  Ascii.eqb c "@" || Ascii.eqb c "." = true ->
  is_space c = false /\ Ascii.eqb c LF = false.
Proof.
  destruct c as [[] [] [] [] [] [] [] []]; vm_compute; intros H;
    first [discriminate H | split; reflexivity].
Qed.

Lemma local_char_not_at (c : ascii) :
  local_char c = true -> negb (Ascii.eqb c "@") = true.
Proof.
  destruct c as [[] [] [] [] [] [] [] []]; vm_compute; intros H;
    first [discriminate H | reflexivity].
Qed.

Lemma extracted_is_match (msg : Message) (m : string) :
  In m (extract_recipients msg) ->
  exists prev s pieces rest,
    match_here ADDRESS prev s = Some (pieces, rest) /\ m = whole pieces.
Proof.
  rewrite extract_recipients_order. cbv zeta. intros H.
  assert (Hm : exists v, In m (findall ADDRESS v)).
  { repeat (apply in_app_or in H; destruct H as [H|H]).
    all: match type of H with
         | In _ (match get ?mm ?h with _ => _ end) =>
             destruct (get mm h) as [v|]; [|destruct H];
             destruct (String.eqb v EmptyString); [destruct H|eauto]
         end. }
  destruct Hm as [v Hv]. unfold findall in Hv.
  exact (findall_from_matches _ _ _ _ _ Hv).
Qed.

(** X2.  Every address that [extract_recipients] returns is one that
    [parse_email_address] can split: it has no surrounding whitespace, its
    part before the first [@] and its part after it are both non-empty,
    and the two parts put back around an [@] give the address.  So the
    first recipient of a message always yields a user and a domain, and
    the empty pair arises only for strings that did not come from
    [extract_recipients]. *)
Theorem extracted_recipient_parses (msg : Message) (m : string) :
  In m (extract_recipients msg) ->
  exists user domain,
    parse_email_address m = (user, domain) /\
    user <> EmptyString /\ domain <> EmptyString /\
    m = (user ++ "@" ++ domain)%string.
Proof.
  intros H.
  destruct (extracted_is_match _ _ H) as (prev & s & pieces & rest & Hp & ->).
  destruct (address_matched _ _ _ _ Hp)
    as (l & d & t & -> & Hl & Cl & Hd & Cd & Ht & Ct).
  exists l, (d ++ "." ++ t)%string.
  assert (Nl : l <> EmptyString) by (destruct l; [cbn in Hl; lia|discriminate]).
  assert (Nd : (d ++ "." ++ t)%string <> EmptyString)
    by (destruct d; [cbn in Hd; lia|discriminate]).
  assert (W : forall (p : ascii -> bool) x,
            (forall c, p c = true ->
               local_char c || domain_char c || tld_char c ||
               Ascii.eqb c "@" || Ascii.eqb c "." = true) ->
            all_chars p x = true ->
            all_chars (fun c => negb (is_space c)) x = true /\
            all_chars (fun c => negb (Ascii.eqb c LF)) x = true).
  { intros p x Hp' Hx. split; apply (all_chars_weaken p); try exact Hx;
      intros c Hc; destruct (address_chars_plain c (Hp' c Hc)) as [A B];
      [rewrite A|rewrite B]; reflexivity. }
  destruct (W local_char l) as [Sl _];
    [intros c ->; reflexivity|exact Cl|].
  destruct (W domain_char d) as [Sd Ld];
    [intros c ->; rewrite orb_true_r; reflexivity|exact Cd|].
  destruct (W tld_char t) as [St Lt];
    [intros c ->; rewrite !orb_true_r; reflexivity|exact Ct|].
  assert (Estrip : strip (l ++ "@" ++ d ++ "." ++ t) = (l ++ "@" ++ d ++ "." ++ t)%string).
  { apply strip_plain.
    rewrite all_chars_append, Sl. cbn [append all_chars andb].
    rewrite all_chars_append, Sd. cbn [append all_chars andb].
    rewrite St. reflexivity. }
  assert (Hat : contains "@" l = false).
  { apply contains_none. apply (all_chars_weaken local_char); [|exact Cl].
    exact local_char_not_at. }
  assert (Hlf : contains LF (d ++ "." ++ t) = false).
  { apply contains_none. rewrite all_chars_append, Ld.
    cbn [append all_chars andb]. rewrite Lt. reflexivity. }
  split; [|auto].
  unfold parse_email_address. rewrite Estrip.
  rewrite (split_matches l (d ++ "." ++ t)%string Nl Nd Hat Hlf). reflexivity.
Qed.

Lemma lstrip_padding (p x : string) :
  all_chars is_space p = true -> lstrip (p ++ x) = lstrip x.
Proof.
  induction p as [|c p IH]; [reflexivity|]. cbn [all_chars append lstrip].
  intros H. apply andb_true_iff in H. destruct H as [-> Hp]. exact (IH Hp).
Qed.

Lemma rstrip_blank (q : string) : all_chars is_space q = true -> rstrip q = EmptyString.
Proof.
  induction q as [|c q IH]; [reflexivity|]. cbn [all_chars rstrip].
  intros H. apply andb_true_iff in H. destruct H as [-> Hq].
  rewrite (IH Hq). reflexivity.
Qed.

Lemma rstrip_padding (x q : string) :
  all_chars is_space q = true -> rstrip (x ++ q) = rstrip x.
Proof.
  intros Hq. induction x as [|c x IH]; cbn [append rstrip].
  - apply rstrip_blank, Hq.
  - rewrite IH. reflexivity.
Qed.

Lemma strip_padding (p q s : string) :
  all_chars is_space p = true -> all_chars is_space q = true ->
  strip (p ++ s ++ q) = strip s.
Proof.
  intros Hp Hq. unfold strip. rewrite (lstrip_padding _ _ Hp).
  induction s as [|c s IH]; cbn [append lstrip].
  - rewrite <- (append_empty q) at 1. rewrite (lstrip_padding _ _ Hq). reflexivity.
  - destruct (is_space c); [exact IH|].
    exact (rstrip_padding (String c s) q Hq).
Qed.

(** X3.  [parse_email_address] does not see whitespace around its
    argument: an address and the same address with blanks, tabs or line
    ends put before and after it are split alike. *)
Theorem parse_email_address_ignores_padding (before after email_addr : string) :
  all_chars is_space before = true ->
  all_chars is_space after = true ->
  parse_email_address (before ++ email_addr ++ after)
    = parse_email_address email_addr.
Proof.
  intros Hb Ha. unfold parse_email_address.
  rewrite (strip_padding _ _ _ Hb Ha). reflexivity.
Qed.

(** ** The entry point *)

Section Entry.

Variable getenv : string -> option string.
Variable env : environment.
Variable message_from_bytes : string -> Message.
Variable state_of : list event -> string.

Lemma pointwise_emits {A : Type} (m : M A) (good : event -> bool)
      (st st' : state) (r : result A) :
  emits m (fun t => forallb good t = true) anything ->
  m st = (r, st') ->
  forallb good (log st) = true -> forallb good (log st') = true.
Proof.
  intros H Hrun Hst. destruct (H _ _ _ Hrun) as [(t & -> & Ht) _].
  rewrite forallb_app, Hst, Ht. reflexivity.
Qed.

Lemma serve_never_closes (args : Args) (turns : nat) :
  emits (serve env message_from_bytes args turns)
        (fun t => forallb (fun e => negb (is_close e)) t = true) anything.
Proof.
  pose (P := fun t : list event => forallb (fun e => negb (is_close e)) t = true).
  assert (P_nil : P []) by reflexivity.
  assert (P_app : forall a b, P a -> P b -> P (a ++ b)) by exact (pointwise_app _).
  assert (P_move : forall msg_id target, anything target ->
            emits (move_email env msg_id target) P anything).
  { intros msg_id target _. apply emits_move_email; reflexivity. }
  unfold serve. destruct (arg_once args).
  - apply (emits_bind P P_app _ _ anything).
    + apply (emits_process_inbox env message_from_bytes P anything);
        try reflexivity; assumption.
    + intros _ _. apply (emits_ret P P_nil). exact I.
  - apply (emits_bind P P_app _ _ anything).
    + apply (emits_run_continuous env message_from_bytes P anything);
        try reflexivity; assumption.
    + intros l _. apply (emits_ret P P_nil). exact I.
Qed.

Lemma connect_handshake (st st' : state) (r : result bool) :
  connect env st = (r, st') ->
  exists t, log st' = log st ++ t /\ forallb is_handshake t = true /\
            (r = Ret true -> connection (self st') <> None).
Proof.
  unfold connect, try_except, session, call, bind, get_self, update, ret, raise.
  cbn.
  destruct (env (log st) (OPEN (imap_server (self st)))) as [t1 d1|e1]; cbn.
  - match goal with
    | |- context [env ?h (LOGIN ?u ?p)] =>
        destruct (env h (LOGIN u p)) as [t2 d2|e2]; cbn
    end.
    + intros H; inversion H; subst; cbn. eexists. rewrite <- app_assoc.
      split; [reflexivity|]. split; [reflexivity|]. intros _. discriminate.
    + destruct (is_IMAP4_error e2); intros H; inversion H; subst; cbn;
        eexists; rewrite <- app_assoc; (split; [reflexivity|]);
        split; [reflexivity|discriminate|reflexivity|discriminate].
  - destruct (is_IMAP4_error e1); intros H; inversion H; subst; cbn;
      eexists; (split; [reflexivity|]);
      split; [reflexivity|discriminate|reflexivity|discriminate].
Qed.

Lemma disconnect_grows (st st' : state) (r : result unit) :
  disconnect env st = (r, st') -> exists t, log st' = log st ++ t.
Proof.
  intros H.
  destruct (emits_disconnect env (fun _ => True) I (fun _ _ _ _ => I)
              (fun _ => I) (fun _ => I) st r st' H) as [(t & L & _) _].
  exists t. exact L.
Qed.

Lemma connect_true_log (st st' : state) :
  connect env st = (Ret true, st') ->
  exists t1 d1 t2 d2,
    log st' = log st ++ [(OPEN (imap_server (self st)), Resp t1 d1);
                         (LOGIN (username (self st)) (password (self st)),
                          Resp t2 d2)].
Proof.
  unfold connect, try_except, session, call, bind, get_self, update, ret, raise.
  cbn.
  destruct (env (log st) (OPEN (imap_server (self st)))) as [t1 d1|e1]; cbn.
  - match goal with
    | |- context [env ?h (LOGIN ?u ?p)] =>
        destruct (env h (LOGIN u p)) as [t2 d2|e2]; cbn
    end.
    + intros H; inversion H; subst; cbn. exists t1, d1, t2, d2.
      rewrite <- app_assoc. reflexivity.
    + destruct (is_IMAP4_error e2); discriminate.
  - destruct (is_IMAP4_error e1); discriminate.
Qed.

Lemma process_inbox_keeps_connection (st st' : state) (r : result unit) :
  process_inbox env message_from_bytes st = (r, st') ->
  connection (self st') = connection (self st).
Proof.
  destruct (connection (self st)) as [x|] eqn:Hx.
  - intros H.
    destruct (process_inbox_sweep env message_from_bytes st st' r) as (new & b & _ & ->);
      [congruence|exact H|].
    destruct b; cbn; exact Hx.
  - unfold process_inbox, bind, get_self. rewrite Hx. unfold ret.
    intros H. inversion H; subst. exact Hx.
Qed.

Lemma loop_keeps_connection (check_interval turns : nat) :
  forall st st' r,
    connection (self st) <> None ->
    run_continuous env message_from_bytes turns check_interval st = (r, st') ->
    connection (self st') = connection (self st).
Proof.
  induction turns as [|n IH]; intros st st' r Hc; cbn [run_continuous].
  - unfold ret. intros H. inversion H. reflexivity.
  - unfold bind. rewrite iteration_run.
    assert (Ha : attempt env message_from_bytes st
                 = process_inbox env message_from_bytes st).
    { unfold attempt, bind. rewrite (try_connect_connected env st Hc).
      reflexivity. }
    rewrite Ha. clear Ha.
    destruct (process_inbox env message_from_bytes st) as [ra st1] eqn:Hp.
    pose proof (process_inbox_keeps_connection _ _ _ Hp) as K1.
    destruct ra as [[]|e].
    + unfold call.
      destruct (env (log st1) (SLEEP check_interval)) as [typ dat|e].
      * intros H. apply IH in H; [|cbn [self]; rewrite K1; exact Hc].
        cbn [self] in H. rewrite H. exact K1.
      * intros H. inversion H; subst. exact K1.
    + destruct (is_KeyboardInterrupt e); unfold ret; intros H; inversion H; subst;
        exact K1.
Qed.

Lemma serve_keeps_connection (args : Args) (turns : nat) (st st' : state)
      (r : result (option loop)) :
  connection (self st) <> None ->
  serve env message_from_bytes args turns st = (r, st') ->
  connection (self st') = connection (self st).
Proof.
  intros Hc. unfold serve, bind. destruct (arg_once args).
  - destruct (process_inbox env message_from_bytes st) as [[[]|e] st1] eqn:Hp;
      unfold ret; intros H; inversion H; subst;
      exact (process_inbox_keeps_connection _ _ _ Hp).
  - destruct (run_continuous env message_from_bytes turns (arg_interval args) st)
      as [[l|e] st1] eqn:Hl;
      unfold ret; intros H; inversion H; subst;
      exact (loop_keeps_connection _ _ _ _ _ Hc Hl).
Qed.

Lemma no_close_in_handshake (t : list event) :
  forallb is_handshake t = true -> existsb is_close t = false.
Proof.
  induction t as [|[[] ?] t IH]; cbn in *; try discriminate; auto.
Qed.

Lemma no_close_at_all (t : list event) :
  forallb (fun e => negb (is_close e)) t = true -> existsb is_close t = false.
Proof.
  induction t as [|e t IH]; [reflexivity|]. cbn. intros F.
  apply andb_true_iff in F. destruct F as [F1 F2].
  apply negb_true_iff in F1. rewrite F1. exact (IH F2).
Qed.

Lemma process_arg_chosen (arg_value : option string) (env_var arg_name v : string) :
  process_arg getenv arg_value env_var arg_name = Value v ->
  v = chosen getenv arg_value env_var /\ v <> EmptyString.
Proof.
  unfold process_arg, chosen. destruct arg_value as [[|c r]|].
  2: intros H; inversion H; split; [reflexivity|discriminate].
  all: destruct (getenv env_var) as [[|c r]|]; intros H; inversion H;
    split; [reflexivity|discriminate].
Qed.

(** X24.  [main] exits with a status only before its first sweep.  When
    [parse_args] exits, [main] exits with it: with status 2 after a usage
    error and 0 after the help, no processor exists and nothing was
    called.  After the command line was parsed the status is 1: either one
    of username, password, domain and server is empty or absent in the
    namespace and unset or empty in the environment, and again no
    processor exists and nothing was called; or [connect] answered false,
    and then the only calls made are those of the handshake, and the
    session is not closed. *)
Theorem main_exits_before_sweep (parsed : parse_result) (turns code : nat) :
  fst (main getenv env message_from_bytes state_of parsed turns) = Exit code ->
  match snd (main getenv env message_from_bytes state_of parsed turns) with
  | None =>
      match parsed with
      | UsageError => code = 2
      | Help => code = 0
      | Namespace args =>
          code = 1 /\
          (truthy (Some (arg_username args)) || truthy (getenv "IMAP_USERNAME")) &&
          (truthy (arg_password args) || truthy (getenv "IMAP_PASSWORD")) &&
          (truthy (Some (arg_domain args)) || truthy (getenv "PRIMARY_DOMAIN")) &&
          (truthy (Some (arg_server args)) || truthy (getenv "IMAP_SERVER")) = false
      end
  | Some st =>
      code = 1 /\ (exists args, parsed = Namespace args) /\
      forallb is_handshake (log st) = true /\ existsb is_close (log st) = false
  end.
Proof.
  destruct parsed as [args| |]; cbn [main fst snd];
    [|intros H; inversion H; reflexivity|intros H; inversion H; reflexivity].
  unfold process_arg.
  destruct (arg_username args) as [|c1 r1]; cbn [truthy orb andb].
  1: destruct (getenv "IMAP_USERNAME") as [[|? ?]|]; cbn [truthy orb andb fst snd];
       try (intros H; inversion H; split; reflexivity).
  all: destruct (arg_password args) as [[|c2 r2]|]; cbn [truthy orb andb].
  all: try (destruct (getenv "IMAP_PASSWORD") as [[|? ?]|];
            cbn [truthy orb andb fst snd];
            try (intros H; inversion H; split; reflexivity)).
  all: destruct (arg_domain args) as [|c3 r3]; cbn [truthy orb andb].
  all: try (destruct (getenv "PRIMARY_DOMAIN") as [[|? ?]|];
            cbn [truthy orb andb fst snd];
            try (intros H; inversion H; split; reflexivity)).
  all: destruct (arg_server args) as [|c4 r4]; cbn [truthy orb andb].
  all: try (destruct (getenv "IMAP_SERVER") as [[|? ?]|];
            cbn [truthy orb andb fst snd];
            try (intros H; inversion H; split; reflexivity)).
  all: cbv zeta;
    match goal with
    | |- context [connect env ?s] =>
        destruct (connect env s) as [[[]|e] st] eqn:Hc
    end;
    try (cbn [fst snd]; discriminate).
  all: try (cbn [fst snd]; intros H; inversion H; split; [reflexivity|];
            split; [eexists; reflexivity|];
            destruct (connect_handshake _ _ _ Hc) as (t & L & F & _);
            rewrite L; split; [exact F|exact (no_close_in_handshake _ F)]).
  all: destruct (serve env message_from_bytes args turns st) as [[[[]|]|e] st1];
    try (cbn [fst snd]; discriminate);
    destruct (cleanup env state_of st1) as [[[]|e'] st2];
    cbn [fst snd]; discriminate.
Qed.

(** X25.  The clean-up of [main] disconnects exactly when the state of
    the session object, read at the clean-up, is [LOGOUT].  Take a run
    whose [connect] answered true and whose sweep or loop has ended, and
    let [at_cleanup] be the processor and the log at that point.  The
    processor then still holds its session and no close or logout has
    been issued; and [main] ends in the state [disconnect] leaves from
    there if the state of the session reads [LOGOUT] after that log, and
    in [at_cleanup] itself, with the session left open, in every other
    state. *)
Theorem main_closes_only_logged_out (args : Args) (turns : nat) (st : state) :
  let processor :=
    mkState (init (chosen getenv (Some (arg_server args)) "IMAP_SERVER")
                  (chosen getenv (Some (arg_username args)) "IMAP_USERNAME")
                  (chosen getenv (arg_password args) "IMAP_PASSWORD")
                  (chosen getenv (Some (arg_domain args)) "PRIMARY_DOMAIN")) [] in
  let served :=
    serve env message_from_bytes args turns (snd (connect env processor)) in
  let at_cleanup := snd served in
  snd (main getenv env message_from_bytes state_of (Namespace args) turns)
    = Some st ->
  fst (connect env processor) = Ret true ->
  fst served <> Ret (Some Running) ->
  connection (self at_cleanup) <> None /\
  existsb is_close (log at_cleanup) = false /\
  st = (if String.eqb (state_of (log at_cleanup)) "LOGOUT"
        then snd (disconnect env at_cleanup)
        else at_cleanup).
Proof.
  cbv zeta. cbn [main].
  destruct (process_arg getenv (Some (arg_username args)) _ _) as [u|?] eqn:Eu;
    [|discriminate].
  destruct (process_arg getenv (arg_password args) _ _) as [p|?] eqn:Ep;
    [|discriminate].
  destruct (process_arg getenv (Some (arg_domain args)) _ _) as [d|?] eqn:Ed;
    [|discriminate].
  destruct (process_arg getenv (Some (arg_server args)) _ _) as [s|?] eqn:Es;
    [|discriminate].
  destruct (process_arg_chosen _ _ _ _ Eu) as [<- _].
  destruct (process_arg_chosen _ _ _ _ Ep) as [<- _].
  destruct (process_arg_chosen _ _ _ _ Ed) as [<- _].
  destruct (process_arg_chosen _ _ _ _ Es) as [<- _].
  cbv zeta.
  destruct (connect env (mkState (init s u p d) [])) as [rc st0] eqn:Hc.
  cbn [fst snd]. intros H Hrc. subst rc.
  destruct (connect_handshake _ _ _ Hc) as (t0 & L0 & F0 & C0).
  specialize (C0 eq_refl). cbn [log app] in L0.
  destruct (serve env message_from_bytes args turns st0) as [r st1] eqn:Hs.
  cbn [fst snd]. intros Hr.
  assert (C1 : connection (self st1) <> None).
  { rewrite (serve_keeps_connection _ _ _ _ _ C0 Hs). exact C0. }
  assert (Q1 : existsb is_close (log st1) = false).
  { destruct (serve_never_closes args turns _ _ _ Hs) as [(t & L & F) _].
    rewrite L, existsb_app, L0, (no_close_in_handshake _ F0),
      (no_close_at_all _ F). reflexivity. }
  split; [exact C1|]. split; [exact Q1|].
  assert (Hcl : cleanup env state_of st1 =
                if String.eqb (state_of (log st1)) "LOGOUT"
                then disconnect env st1 else (Ret tt, st1)).
  { unfold cleanup. destruct (connection (self st1)); [reflexivity|].
    contradiction C1. reflexivity. }
  rewrite Hcl in H.
  destruct (String.eqb (state_of (log st1)) "LOGOUT").
  - destruct (disconnect env st1) as [[[]|?] st2];
      destruct r as [[[]|]|?]; try (contradiction Hr; reflexivity);
      inversion H; reflexivity.
  - destruct r as [[[]|]|?]; try (contradiction Hr; reflexivity);
      inversion H; reflexivity.
Qed.

Lemma next_state_live (s : string) (e : event) :
  is_close e = false -> String.eqb s "LOGOUT" = false ->
  String.eqb (next_state s e) "LOGOUT" = false.
Proof.
  destruct e as [[] [typ dat|ex]]; cbn; intros Hc Hs;
    try discriminate Hc; try exact Hs; try reflexivity.
  - destruct (String.eqb typ "PREAUTH"); reflexivity.
  - destruct (OK typ); reflexivity.
Qed.

Lemma state_stays_live (t : list event) :
  forall s, String.eqb s "LOGOUT" = false ->
            existsb is_close t = false ->
            String.eqb (fold_left next_state t s) "LOGOUT" = false.
Proof.
  induction t as [|e t IH]; intros s Hs; cbn [fold_left existsb]; [auto|].
  intros H. apply orb_false_iff in H. destruct H as [H1 H2].
  apply IH; [apply next_state_live; assumption|exact H2].
Qed.

(** X26.  With a session object of [imaplib] the clean-up of [main] never
    disconnects.  The state of a session that was opened reads [LOGOUT]
    only from a logout on, and nothing before the clean-up logs out; so
    when the state of the session follows [imaplib], no run of [main]
    issues a close or a logout, and every run ends with the session it
    opened left open. *)
Theorem main_never_disconnects (parsed : parse_result) (turns : nat) :
  match snd (main getenv env message_from_bytes imaplib_state parsed turns) with
  | None => True
  | Some st => existsb is_close (log st) = false
  end.
Proof.
  destruct parsed as [args| |]; cbn [main snd]; [|exact I|exact I].
  destruct (process_arg getenv (Some (arg_username args)) _ _) as [u|?];
    [|exact I].
  destruct (process_arg getenv (arg_password args) _ _) as [p|?]; [|exact I].
  destruct (process_arg getenv (Some (arg_domain args)) _ _) as [d|?];
    [|exact I].
  destruct (process_arg getenv (Some (arg_server args)) _ _) as [s|?];
    [|exact I].
  cbv zeta.
  destruct (connect env (mkState (init s u p d) [])) as [rc st0] eqn:Hc.
  destruct (connect_handshake _ _ _ Hc) as (t0 & L0 & F0 & C0).
  cbn [log app] in L0.
  assert (Q0 : existsb is_close (log st0) = false)
    by (rewrite L0; exact (no_close_in_handshake _ F0)).
  destruct rc as [[]|e]; [|exact Q0|exact Q0].
  specialize (C0 eq_refl).
  destruct (connect_true_log _ _ Hc) as (t1 & d1 & t2 & d2 & Lc).
  cbn [log app self] in Lc.
  destruct (serve env message_from_bytes args turns st0) as [r st1] eqn:Hs.
  destruct (serve_never_closes args turns _ _ _ Hs) as [(t & L & F) _].
  pose proof (no_close_at_all _ F) as Qt.
  assert (Q1 : existsb is_close (log st1) = false)
    by (rewrite L, existsb_app, Q0, Qt; reflexivity).
  assert (Hl : String.eqb (imaplib_state (log st1)) "LOGOUT" = false).
  { rewrite L, Lc. unfold imaplib_state. rewrite fold_left_app.
    apply state_stays_live; [|exact Qt]. cbn. reflexivity. }
  assert (Hcl : cleanup env imaplib_state st1 = (Ret tt, st1)).
  { unfold cleanup. rewrite Hl. destruct (connection (self st1)); reflexivity. }
  rewrite Hcl.
  destruct r as [[[]|]|?]; exact Q1.
Qed.

End Entry.

(** ** What the configuration is and stays *)

Lemma same_config_refl (p : MTFSSProcessor) : same_config p p.
Proof. repeat split. Qed.

Lemma same_config_trans (p q r : MTFSSProcessor) :
  same_config p q -> same_config q r -> same_config p r.
Proof.
  intros (A1 & A2 & A3 & A4) (B1 & B2 & B3 & B4).
  repeat split; congruence.
Qed.

Section Keeps.

Variable env : environment.
Variable message_from_bytes : string -> Message.

Lemma keeps_ret {A : Type} (a : A) : keeps (ret a).
Proof. intros st r st' H. inversion H. apply same_config_refl. Qed.

Lemma keeps_raise {A : Type} (e : exn) : keeps (@raise A e).
Proof. intros st r st' H. inversion H. apply same_config_refl. Qed.

Lemma keeps_lift {A : Type} (x : result A) : keeps (lift x).
Proof. intros st r st' H. inversion H. apply same_config_refl. Qed.

Lemma keeps_update (f : MTFSSProcessor -> MTFSSProcessor) :
  (forall p, same_config p (f p)) -> keeps (update f).
Proof. intros Hf st r st' H. inversion H. apply Hf. Qed.

Lemma keeps_call (c : command) : keeps (call env c).
Proof.
  intros st r st'. unfold call. destruct (env (log st) c);
    intros H; inversion H; apply same_config_refl.
Qed.

Lemma keeps_bind {A B : Type} (m : M A) (k : A -> M B) :
  keeps m -> (forall a, keeps (k a)) -> keeps (bind m k).
Proof.
  intros Hm Hk st r st'. unfold bind.
  destruct (m st) as [[a|e] st1] eqn:E1.
  - intros H. exact (same_config_trans _ _ _ (Hm _ _ _ E1) (Hk a _ _ _ H)).
  - intros H. inversion H; subst. exact (Hm _ _ _ E1).
Qed.

Lemma keeps_with_self {B : Type} (k : MTFSSProcessor -> M B) :
  (forall p, keeps (k p)) -> keeps (bind get_self k).
Proof. intros Hk st r st'. unfold bind, get_self. apply Hk. Qed.

Lemma keeps_try_except {A : Type} (m handler : M A) (catches : exn -> bool) :
  keeps m -> keeps handler -> keeps (try_except m catches handler).
Proof.
  intros Hm Hh st r st'. unfold try_except.
  destruct (m st) as [[a|e] st1] eqn:E1.
  - intros H. inversion H; subst. exact (Hm _ _ _ E1).
  - destruct (catches e).
    + intros H. exact (same_config_trans _ _ _ (Hm _ _ _ E1) (Hh _ _ _ H)).
    + intros H. inversion H; subst. exact (Hm _ _ _ E1).
Qed.

Lemma keeps_try_finally {A : Type} (m : M A)
      (f : MTFSSProcessor -> MTFSSProcessor) :
  keeps m -> (forall p, same_config p (f p)) -> keeps (try_finally m f).
Proof.
  intros Hm Hf st r st'. unfold try_finally.
  destruct (m st) as [r1 st1] eqn:E1. intros H. inversion H; subst. cbn.
  exact (same_config_trans _ _ _ (Hm _ _ _ E1) (Hf _)).
Qed.

Lemma keeps_for_each {A : Type} (body : A -> M unit) (xs : list A) :
  (forall x, keeps (body x)) -> keeps (for_each xs body).
Proof.
  intros Hb. induction xs as [|x xs IH]; cbn [for_each].
  - apply keeps_ret.
  - apply keeps_bind; [apply Hb|intros _; exact IH].
Qed.

Lemma with_connection_config (c : option string) (p : MTFSSProcessor) :
  same_config p (with_connection c p).
Proof. repeat split. Qed.

Lemma with_first_pass_config (b : bool) (p : MTFSSProcessor) :
  same_config p (with_first_pass b p).
Proof. repeat split. Qed.

(** Take a method apart into the steps above. *)
Ltac keep :=
  repeat first
    [ match goal with H : _ |- _ => apply H end
    | apply keeps_ret | apply keeps_raise | apply keeps_lift | apply keeps_call
    | apply keeps_update; first [apply with_connection_config
                                | apply with_first_pass_config]
    | apply keeps_with_self; intros ?
    | apply keeps_bind; [|intros ?]
    | apply keeps_try_except
    | apply keeps_try_finally; [|apply with_connection_config]
    | apply keeps_for_each; intros ?
    | match goal with
      | |- keeps (match ?x with _ => _ end) => destruct x
      | |- keeps (if ?b then _ else _) => destruct b
      end ].

Lemma keeps_session (c : command) : keeps (session env c).
Proof. unfold session. keep. Qed.

Lemma keeps_folder_exists (name : string) : keeps (folder_exists env name).
Proof. pose proof keeps_session. unfold folder_exists. keep. Qed.

Lemma keeps_create_folder (name : string) : keeps (create_folder env name).
Proof. pose proof keeps_session. unfold create_folder. keep. Qed.

Lemma keeps_determine_folder (user domain : string) :
  keeps (determine_folder env user domain).
Proof. pose proof keeps_folder_exists. unfold determine_folder. cbv zeta. keep. Qed.

Lemma keeps_move_email (msg_id target : string) :
  keeps (move_email env msg_id target).
Proof.
  pose proof keeps_session. pose proof keeps_folder_exists.
  pose proof keeps_create_folder. unfold move_email. keep.
Qed.

Lemma keeps_handler (msg_id : string) :
  keeps (handler env message_from_bytes msg_id).
Proof.
  pose proof keeps_session. pose proof keeps_determine_folder.
  pose proof keeps_move_email.
  unfold handler, process_message. cbv zeta. keep.
Qed.

Lemma keeps_process_inbox : keeps (process_inbox env message_from_bytes).
Proof.
  pose proof keeps_session. pose proof keeps_folder_exists.
  pose proof keeps_create_folder. pose proof keeps_handler.
  unfold process_inbox. cbv zeta. keep.
Qed.

Lemma keeps_connect : keeps (connect env).
Proof. pose proof keeps_session. unfold connect. keep. Qed.

Lemma keeps_disconnect : keeps (disconnect env).
Proof. pose proof keeps_session. unfold disconnect. keep. Qed.

Lemma keeps_run_continuous (turns check_interval : nat) :
  keeps (run_continuous env message_from_bytes turns check_interval).
Proof.
  pose proof keeps_connect. pose proof keeps_process_inbox.
  induction turns as [|n IH]; cbn [run_continuous];
    unfold iteration, attempt, try_connect; keep.
Qed.

Lemma keeps_invoke (m : method) : keeps (invoke env message_from_bytes m).
Proof.
  pose proof keeps_connect. pose proof keeps_disconnect.
  pose proof keeps_process_inbox. pose proof keeps_run_continuous.
  destruct m; cbn [invoke]; keep.
Qed.

(** X22.  No method ever changes the server name, the user name, the
    password or the primary domain a processor was constructed with:
    after any sequence of method calls the four attributes are what they
    were, whatever the store answered. *)
Theorem configuration_is_constant (ms : list method) (st : state) :
  same_config (self st) (self (lifetime env message_from_bytes ms st)).
Proof.
  revert st. induction ms as [|m ms IH]; intros st; cbn [lifetime].
  - apply same_config_refl.
  - destruct (invoke env message_from_bytes m st) as [r st1] eqn:H1. cbn [snd].
    exact (same_config_trans _ _ _ (keeps_invoke m _ _ _ H1) (IH st1)).
Qed.

Variable getenv : string -> option string.
Variable state_of : list event -> string.

(** X23.  Whenever [main] gets as far as constructing a processor, the
    processor works, to the end of the run, with the values
    [process_arg] settled on: for each of server, user name, password and
    primary domain the command-line value when that is non-empty, and the
    value of the environment variable otherwise; none of the four is
    empty. *)
Theorem main_configuration (args : Args) (turns : nat) (st : state) :
  snd (main getenv env message_from_bytes state_of (Namespace args) turns)
    = Some st ->
  same_config
    (init (chosen getenv (Some (arg_server args)) "IMAP_SERVER")
          (chosen getenv (Some (arg_username args)) "IMAP_USERNAME")
          (chosen getenv (arg_password args) "IMAP_PASSWORD")
          (chosen getenv (Some (arg_domain args)) "PRIMARY_DOMAIN"))
    (self st) /\
  imap_server (self st) <> EmptyString /\ username (self st) <> EmptyString /\
  password (self st) <> EmptyString /\ primary_domain (self st) <> EmptyString.
Proof.
  cbn [main].
  destruct (process_arg getenv (Some (arg_username args)) _ _) as [u|?] eqn:Eu;
    [|discriminate].
  destruct (process_arg getenv (arg_password args) _ _) as [p|?] eqn:Ep;
    [|discriminate].
  destruct (process_arg getenv (Some (arg_domain args)) _ _) as [d|?] eqn:Ed;
    [|discriminate].
  destruct (process_arg getenv (Some (arg_server args)) _ _) as [s|?] eqn:Es;
    [|discriminate].
  destruct (process_arg_chosen getenv _ _ _ _ Eu) as [<- Nu].
  destruct (process_arg_chosen getenv _ _ _ _ Ep) as [<- Np].
  destruct (process_arg_chosen getenv _ _ _ _ Ed) as [<- Nd].
  destruct (process_arg_chosen getenv _ _ _ _ Es) as [<- Ns].
  cbv zeta. intros H.
  assert (K : same_config (init s u p d) (self st)).
  { destruct (connect env (mkState (init s u p d) [])) as [rc st0] eqn:Hc.
    pose proof (keeps_connect _ _ _ Hc) as K0. cbn [self] in K0.
    destruct rc as [[]|e]; try (inversion H; subst; exact K0).
    destruct (serve env message_from_bytes args turns st0) as [r st1] eqn:Hs.
    assert (K1 : same_config (self st0) (self st1)).
    { assert (Ks : keeps (serve env message_from_bytes args turns)).
      { unfold serve. pose proof keeps_process_inbox.
        pose proof keeps_run_continuous. destruct (arg_once args); keep. }
      exact (Ks _ _ _ Hs). }
    assert (K2 : forall rf st2, cleanup env state_of st1 = (rf, st2) ->
                                same_config (self st1) (self st2)).
    { intros rf st2. unfold cleanup. destruct (connection (self st1)).
      - destruct (String.eqb _ _); [apply keeps_disconnect|].
        intros E; inversion E; apply same_config_refl.
      - intros E; inversion E; apply same_config_refl. }
    pose proof (same_config_trans _ _ _ K0 K1) as K01.
    destruct r as [[[]|]|e].
    2: inversion H; subst; exact K01.
    all: destruct (cleanup env state_of st1) as [[[]|?] st2] eqn:Hcl;
      inversion H; subst;
      exact (same_config_trans _ _ _ K01 (K2 _ _ eq_refl)). }
  split; [exact K|]. destruct K as (K1 & K2 & K3 & K4). cbn in K1, K2, K3, K4.
  rewrite K1, K2, K3, K4. auto.
Qed.

End Keeps.

(** ** A loop that is connected *)

Section Connected.

Variable env : environment.
Variable message_from_bytes : string -> Message.

Lemma process_inbox_no_handshake :
  emits (process_inbox env message_from_bytes)
        (fun t => forallb (fun e => negb (is_handshake e)) t = true) anything.
Proof.
  apply (emits_process_inbox env message_from_bytes _ anything);
    try reflexivity; try exact (pointwise_app _).
  intros msg_id target _. apply emits_move_email; reflexivity.
Qed.

Lemma no_handshake (t : list event) :
  forallb (fun e => negb (is_handshake e)) t = true ->
  existsb is_handshake t = false.
Proof.
  induction t as [|e t IH]; [reflexivity|]. cbn. intros H.
  apply andb_true_iff in H. destruct H as [H1 H2].
  apply negb_true_iff in H1. rewrite H1. exact (IH H2).
Qed.

(** X21.  The loop never replaces a session it holds.  Started on a
    processor that has a connection, [run_continuous] opens no session and
    sends no login in any turn, whatever the store answers or raises, and
    the processor ends with the connection it started with: nothing in
    the loop drops or renews a session. *)
Theorem connected_loop_never_reconnects (check_interval turns : nat) :
  forall st,
    connection (self st) <> None ->
    let run := run_continuous env message_from_bytes turns check_interval st in
    connection (self (snd run)) = connection (self st) /\
    exists t, log (snd run) = log st ++ t /\ existsb is_handshake t = false.
Proof.
  induction turns as [|n IH]; intros st Hc; cbv zeta.
  - cbn. split; [reflexivity|]. exists []. rewrite app_nil_r. auto.
  - assert (Hstep :
      run_continuous env message_from_bytes (S n) check_interval st =
      match iteration env message_from_bytes check_interval st with
      | (Ret true, s1) => run_continuous env message_from_bytes n check_interval s1
      | (Ret false, s1) => (Ret Broken, s1)
      | (Exc e, s1) => (Exc e, s1)
      end).
    { cbn [run_continuous]. unfold bind.
      destruct (iteration env message_from_bytes check_interval st)
        as [[[]|] ?]; reflexivity. }
    rewrite Hstep, iteration_run. clear Hstep.
    assert (Ha : attempt env message_from_bytes st
                 = process_inbox env message_from_bytes st).
    { unfold attempt, bind. rewrite (try_connect_connected env st Hc).
      reflexivity. }
    rewrite Ha. clear Ha.
    destruct (process_inbox env message_from_bytes st) as [r st1] eqn:Hp.
    destruct (process_inbox_no_handshake _ _ _ Hp) as [(t1 & L1 & F1) _].
    apply no_handshake in F1.
    assert (C1 : connection (self st1) = connection (self st)).
    { destruct (process_inbox_sweep env message_from_bytes st st1 r Hc Hp)
        as (new & b & _ & ->). destruct b; reflexivity. }
    destruct r as [[]|e].
    + unfold call.
      destruct (env (log st1) (SLEEP check_interval)) as [typ dat|e].
      * match goal with
        | |- context [run_continuous _ _ n check_interval ?s] =>
            destruct (IH s) as (C2 & t2 & L2 & F2);
              [cbn [self]; rewrite C1; exact Hc|]
        end.
        cbv zeta in C2, L2. cbn [self log] in C2, L2.
        split; [rewrite C2; exact C1|].
        exists (t1 ++ (SLEEP check_interval, Resp typ dat) :: t2).
        split; [rewrite L2, L1; repeat rewrite <- app_assoc; reflexivity|].
        rewrite existsb_app, F1. cbn. exact F2.
      * cbn [fst snd self log]. split; [exact C1|].
        exists (t1 ++ [(SLEEP check_interval, Raise e)]).
        split; [rewrite L1, app_assoc; reflexivity|].
        rewrite existsb_app, F1. reflexivity.
    + destruct (is_KeyboardInterrupt e); cbn [fst snd]; (split; [exact C1|]);
        exists t1; auto.
Qed.

End Connected.

Lemma connected_loop_never_reconnects_witness :
  let run := run_continuous empty_store to_header 2 30 connected in
  connection (self (snd run)) = connection (self connected) /\
  exists t, log (snd run) = log connected ++ t /\ existsb is_handshake t = false.
Proof.
  apply (connected_loop_never_reconnects empty_store to_header 30 2 connected).
  discriminate.
Defined.

(** ** The properties above at concrete runs *)

Lemma extract_recipients_syntax_witness :
  exists l d t,
    "john@example.com" = (l ++ "@" ++ d ++ "." ++ t)%string /\
    1 <= String.length l /\ all_chars local_char l = true /\
    1 <= String.length d /\ all_chars domain_char d = true /\
    2 <= String.length t /\ all_chars tld_char t = true.
Proof.
  apply (extract_recipients_syntax [("To", "John <john@example.com>")]
                                   "john@example.com").
  vm_compute. left. reflexivity.
Defined.

Lemma extracted_recipient_parses_witness :
  exists user domain,
    parse_email_address "john@example.com" = (user, domain) /\
    user <> EmptyString /\ domain <> EmptyString /\
    "john@example.com" = (user ++ "@" ++ domain)%string.
Proof.
  apply (extracted_recipient_parses [("To", "John <john@example.com>")]
                                    "john@example.com").
  vm_compute. left. reflexivity.
Defined.

Lemma parse_email_address_ignores_padding_witness :
  parse_email_address ("  " ++ "john@example.com" ++ String LF EmptyString)
    = parse_email_address "john@example.com".
Proof.
  apply (parse_email_address_ignores_padding "  " (String LF EmptyString)
                                             "john@example.com");
    reflexivity.
Defined.

Lemma determine_folder_ignores_user_case_witness :
  determine_folder empty_store "JOHN" "example.com" connected
    = determine_folder empty_store "john" "example.com" connected.
Proof.
  apply (determine_folder_ignores_user_case empty_store "JOHN" "john"
                                            "example.com" connected).
  reflexivity.
Defined.

Lemma no_connection_no_call_witness :
  folder_exists empty_store "INBOX" fresh = (Exc ValueError, fresh) /\
  move_email empty_store "1" "Inbox.John" fresh = (Exc ValueError, fresh) /\
  ("john" <> EmptyString -> "example.com" <> EmptyString ->
   determine_folder empty_store "john" "example.com" fresh
     = (Exc ValueError, fresh)) /\
  process_inbox empty_store to_header fresh = (Ret tt, fresh) /\
  disconnect empty_store fresh = (Ret tt, fresh).
Proof.
  apply (no_connection_no_call empty_store to_header fresh "INBOX" "1"
                               "Inbox.John" "john" "example.com").
  reflexivity.
Defined.

Lemma folder_exists_true_iff_witness :
  fst (folder_exists john_archived "archived.John" connected) = Ret true <->
  exists status first rest,
    john_archived (log connected) (LIST QUOTES "archived.John")
      = Resp status (Some (first :: rest)) /\
    OK status = true /\ first <> ENone.
Proof.
  apply (folder_exists_true_iff john_archived "archived.John" connected
                                "imap.example.com").
  reflexivity.
Defined.

Lemma failed_login_keeps_session_witness :
  exists st',
    connect login_refused fresh = (Ret false, st') /\
    connection (self st') = Some (imap_server (self fresh)) /\
    try_connect login_refused st' = (Ret true, st') /\
    attempt login_refused to_header st' = process_inbox login_refused to_header st'.
Proof.
  apply (failed_login_keeps_session login_refused to_header fresh
                                    "OK" (Some [])); reflexivity.
Defined.

Lemma move_email_true_iff_flagged_witness :
  fst (move_email store_refused "1" "Inbox.John" connected) = Ret true <->
  exists typ dat,
    In (STORE "1" "+FLAGS" "\Deleted", Resp typ dat)
       (log (snd (move_email store_refused "1" "Inbox.John" connected))).
Proof.
  apply (move_email_true_iff_flagged store_refused "1" "Inbox.John" connected
           (snd (move_email store_refused "1" "Inbox.John" connected))
           (fst (move_email store_refused "1" "Inbox.John" connected))
           (log (snd (move_email store_refused "1" "Inbox.John" connected)))).
  - apply surjective_pairing.
  - reflexivity.
Defined.

Lemma create_only_when_absent_witness :
  "Inbox.John" = "Inbox.John" /\
  (exists rl,
     In (LIST QUOTES "Inbox.John", rl)
        (log (snd (move_email create_refused "1" "Inbox.John" connected))) /\
     lists_folder rl = false) /\
  (raised (CREATE "Inbox.John", Resp "NO" (Some [EBytes "quota exceeded"])) = false ->
   exists ry,
     In (COPY "1" "Inbox.John", ry)
        (log (snd (move_email create_refused "1" "Inbox.John" connected)))).
Proof.
  apply (create_only_when_absent create_refused "1" "Inbox.John" "Inbox.John"
           connected
           (snd (move_email create_refused "1" "Inbox.John" connected))
           (fst (move_email create_refused "1" "Inbox.John" connected))
           (log (snd (move_email create_refused "1" "Inbox.John" connected)))
           (Resp "NO" (Some [EBytes "quota exceeded"]))).
  - apply surjective_pairing.
  - reflexivity.
  - vm_compute. right. left. reflexivity.
Defined.

Lemma unreachable_server_retries_witness :
  let run := run_continuous unreachable to_header 3 30 fresh in
  fst run = Ret Running /\
  self (snd run) = self fresh /\
  exists t,
    log (snd run) = log fresh ++ t /\
    map fst t = concat (repeat [OPEN (imap_server (self fresh)); SLEEP 30] 3).
Proof.
  apply (unreachable_server_retries unreachable to_header 3 30 fresh).
  - reflexivity.
  - intros h host. reflexivity.
  - intros h n. exists "OK", (Some []). reflexivity.
Defined.

Lemma broken_only_by_interrupt_witness :
  exists st0,
    attempt interrupt_in_sweep to_header st0
      = (Exc KeyboardInterrupt,
         snd (run_continuous interrupt_in_sweep to_header 2 30 connected)).
Proof.
  apply (broken_only_by_interrupt interrupt_in_sweep to_header 30 2 connected
           (snd (run_continuous interrupt_in_sweep to_header 2 30 connected))).
  vm_compute. reflexivity.
Defined.

Lemma main_exits_before_sweep_witness :
  match snd (main no_variables empty_store to_header imaplib_state
                  (Namespace once_without_password) 3) with
  | None =>
      1 = 1 /\
      (truthy (Some (arg_username once_without_password))
       || truthy (no_variables "IMAP_USERNAME")) &&
      (truthy (arg_password once_without_password)
       || truthy (no_variables "IMAP_PASSWORD")) &&
      (truthy (Some (arg_domain once_without_password))
       || truthy (no_variables "PRIMARY_DOMAIN")) &&
      (truthy (Some (arg_server once_without_password))
       || truthy (no_variables "IMAP_SERVER")) = false
  | Some st =>
      1 = 1 /\ (exists args, Namespace once_without_password = Namespace args) /\
      forallb is_handshake (log st) = true /\ existsb is_close (log st) = false
  end.
Proof.
  apply (main_exits_before_sweep no_variables empty_store to_header imaplib_state
                                 (Namespace once_without_password) 3 1).
  reflexivity.
Defined.

Lemma main_closes_only_logged_out_witness :
  let at_cleanup :=
    snd (process_inbox empty_store to_header
           (snd (connect empty_store
                   (mkState (init "imap.example.com" "test@example.com"
                                  "secret" "example.com") [])))) in
  imaplib_state (log at_cleanup) = "SELECTED" /\
  connection (self at_cleanup) <> None /\
  existsb is_close (log at_cleanup) = false /\
  snd (main password_variable empty_store to_header imaplib_state
            (Namespace once_without_password) 3) = Some at_cleanup.
Proof.
  intros at_cleanup.
  destruct (main_closes_only_logged_out password_variable empty_store to_header
              imaplib_state once_without_password 3 at_cleanup)
    as (C & Q & _).
  - vm_compute. reflexivity.
  - vm_compute. reflexivity.
  - vm_compute. discriminate.
  - split; [vm_compute; reflexivity|]. split; [exact C|]. split; [exact Q|].
    vm_compute. reflexivity.
Defined.

Lemma main_configuration_witness :
  same_config
    (init "imap.example.com" "test@example.com" "secret" "example.com")
    (self (snd (process_inbox empty_store to_header
             (snd (connect empty_store
                     (mkState (init "imap.example.com" "test@example.com"
                                    "secret" "example.com") [])))))) /\
  imap_server (self (snd (process_inbox empty_store to_header
             (snd (connect empty_store
                     (mkState (init "imap.example.com" "test@example.com"
                                    "secret" "example.com") []))))))
    <> EmptyString.
Proof.
  destruct (main_configuration empty_store to_header password_variable
              imaplib_state once_without_password 3
              (snd (process_inbox empty_store to_header
                 (snd (connect empty_store
                         (mkState (init "imap.example.com" "test@example.com"
                                        "secret" "example.com") []))))))
    as (K & N & _).
  - vm_compute. reflexivity.
  - split; [exact K|exact N].
Defined.

(* ================================================================== *)
(** * Where a sweep is cut short *)
(* ================================================================== *)

(** C6 at the input that separates the code from the specification.
    The search lists three messages and the fetch of the second comes
    back OK without data, as [[None]].  Message 1 is relocated; on
    message 2 the subscript [msg_data[0][1]] raises [TypeError] before the
    payload is looked at, the handler of the loop does not catch it, and
    it leaves [process_inbox]: message 3 is never fetched and no expunge
    runs. *)
Theorem missing_payload_aborts_sweep :
  let run := process_inbox missing_payload to_header connected in
  fst run = Exc TypeError /\
  map fst (log (snd run)) =
    [SELECT "INBOX"; LIST QUOTES "archived"; CREATE "archived";
     SEARCH None "ALL";
     FETCH "1" "(RFC822)"; LIST QUOTES "archived.John";
     LIST QUOTES "Inbox.John"; CREATE "Inbox.John";
     COPY "1" "Inbox.John"; STORE "1" "+FLAGS" "\Deleted";
     FETCH "2" "(RFC822)"] /\
  In (FETCH "2" "(RFC822)", Resp "OK" (Some [ENone])) (log (snd run)) /\
  listed (log (snd run)) = ["1"; "2"; "3"] /\
  fetched (log (snd run)) = ["1"; "2"] /\
  existsb is_expunge (log (snd run)) = false.
Proof.
  repeat split; try reflexivity.
  vm_compute. do 10 right. left. reflexivity.
Qed.

(** ** A select that fails *)

Lemma behind_session_obeys (server : environment) :
  imaplib_session (behind_session server).
Proof. intros h c H. unfold behind_session. rewrite H. reflexivity. Qed.

Section SelectFailure.

Variable env : environment.
Variable message_from_bytes : string -> Message.

Lemma failed_sweep_ends_loop (st st' : state) (e : exn) :
  connection (self st) <> None ->
  process_inbox env message_from_bytes st = (Exc e, st') ->
  forall turns check_interval,
    run_continuous env message_from_bytes (S turns) check_interval st =
    (if is_KeyboardInterrupt e then Ret Broken else Exc e, st').
Proof.
  intros Hc Hrun turns check_interval.
  cbn [run_continuous]. unfold bind at 1. rewrite iteration_run.
  assert (Ha : attempt env message_from_bytes st = (Exc e, st')).
  { unfold attempt, bind. rewrite (try_connect_connected _ _ Hc). exact Hrun. }
  rewrite Ha. destruct (is_KeyboardInterrupt e); reflexivity.
Qed.

Lemma raised_select_aborts (st : state) (e : exn) :
  connection (self st) <> None ->
  env (log st) (SELECT "INBOX") = Raise e ->
  process_inbox env message_from_bytes st =
    (Exc e, mkState (self st) (log st ++ [(SELECT "INBOX", Raise e)])).
Proof.
  intros Hc He. revert Hc He.
  destruct st as [[? ? ? ? [?|] ?] l]; cbn; [intros _ He|congruence].
  unfold process_inbox, session, call, bind, get_self. cbn.
  rewrite He. reflexivity.
Qed.

Lemma refused_select_aborts (st : state) (typ : string) (dat : data) :
  connection (self st) <> None ->
  imaplib_session env ->
  env (log st) (SELECT "INBOX") = Resp typ dat ->
  OK typ = false ->
  exists e rest,
    process_inbox env message_from_bytes st =
      (Exc e,
       mkState (self st) (log st ++ (SELECT "INBOX", Resp typ dat) :: rest)) /\
    forallb before_messages rest = true /\
    existsb search_returned rest = false.
Proof.
  intros Hc Hs He Hno. revert Hc He.
  destruct st as [[? ? ? ? [?|] first_pass0] l]; cbn; [intros _ He|congruence].
  unfold process_inbox, folder_exists, create_folder, session, call, bind,
    get_self, ret, raise, lift, update; cbn.
  rewrite He; cbn.
  destruct first_pass0; cbn.
  all: repeat (first
    [ match goal with
      | |- context [env ?h (SEARCH ?a ?b)] =>
          rewrite (Hs h (SEARCH a b))
            by (unfold imaplib_state; rewrite !fold_left_app; cbn;
                rewrite Hno; reflexivity)
      end
    | match goal with
      | |- context [match env ?h ?c with _ => _ end] =>
          let E := fresh "E" in destruct (env h c) as [? ?|?] eqn:E
      end
    | match goal with
      | |- context [OK ?t] =>
          let E := fresh "E" in destruct (OK t) eqn:E
      end
    | match goal with
      | |- context [if ?b then _ else _] =>
          let E := fresh "E" in destruct b eqn:E
      end ]; cbn).
  all: do 2 eexists; split;
    [ apply f_equal; apply (f_equal (mkState _));
      repeat rewrite <- app_assoc; reflexivity
    | split; reflexivity ].
Qed.

(** C7, as the code has it.  On a connected processor a select that
    fails ends the sweep and the polling loop with it.  If the select call
    raises, it is the only call of the sweep.  If it comes back with a
    status other than OK, the session is no longer in the selected state:
    the sweep goes on to the check of the archive folder and, unless a
    call raises before, to the search, which the session object refuses
    with a protocol error; no search comes back, no message is fetched or
    relocated, and no expunge runs.  Either way the exception leaves
    [process_inbox], and the loop of [run_continuous] does not go on to
    the next tick: it is left through [break] for an interrupt and by the
    exception for anything else, without sleeping. *)
Theorem select_failure (st : state) :
  connection (self st) <> None ->
  (forall e,
     env (log st) (SELECT "INBOX") = Raise e ->
     let st' := mkState (self st) (log st ++ [(SELECT "INBOX", Raise e)]) in
     process_inbox env message_from_bytes st = (Exc e, st') /\
     forall turns check_interval,
       run_continuous env message_from_bytes (S turns) check_interval st =
       (if is_KeyboardInterrupt e then Ret Broken else Exc e, st')) /\
  (forall typ dat,
     imaplib_session env ->
     env (log st) (SELECT "INBOX") = Resp typ dat ->
     OK typ = false ->
     exists e rest,
       let st' :=
         mkState (self st) (log st ++ (SELECT "INBOX", Resp typ dat) :: rest) in
       process_inbox env message_from_bytes st = (Exc e, st') /\
       forallb before_messages rest = true /\
       existsb search_returned rest = false /\
       forall turns check_interval,
         run_continuous env message_from_bytes (S turns) check_interval st =
         (if is_KeyboardInterrupt e then Ret Broken else Exc e, st')).
Proof.
  intros Hc. split.
  - intros e He st'. pose proof (raised_select_aborts st e Hc He) as Hrun.
    split; [exact Hrun|]. exact (failed_sweep_ends_loop _ _ _ Hc Hrun).
  - intros typ dat Hs He Hno.
    destruct (refused_select_aborts st typ dat Hc Hs He Hno)
      as (e & rest & Hrun & Hb & Hq).
    exists e, rest. cbv zeta. split; [exact Hrun|]. split; [exact Hb|].
    split; [exact Hq|]. exact (failed_sweep_ends_loop _ _ _ Hc Hrun).
Qed.

End SelectFailure.

Lemma select_failure_witness :
  exists e rest,
    let st' :=
      mkState (self logged_in)
        (log logged_in ++
         (SELECT "INBOX", Resp "NO" (Some [EBytes "Mailbox does not exist"]))
         :: rest) in
    process_inbox (behind_session inbox_missing) to_header logged_in
      = (Exc e, st') /\
    forallb before_messages rest = true /\
    existsb search_returned rest = false /\
    forall turns check_interval,
      run_continuous (behind_session inbox_missing) to_header
                     (S turns) check_interval logged_in =
      (if is_KeyboardInterrupt e then Ret Broken else Exc e, st').
Proof.
  destruct (select_failure (behind_session inbox_missing) to_header logged_in)
    as [_ H].
  - discriminate.
  - exact (H "NO" (Some [EBytes "Mailbox does not exist"])
             (behind_session_obeys inbox_missing) eq_refl eq_refl).
Defined.

Lemma select_failure_counterexample :
  let run := run_continuous (behind_session inbox_missing) to_header 3 30 fresh in
  fst run = Exc IMAP4_error /\
  log (snd run) =
    [(OPEN "imap.example.com", Resp "OK" (Some []));
     (LOGIN "test@example.com" "password", Resp "OK" (Some []));
     (SELECT "INBOX", Resp "NO" (Some [EBytes "Mailbox does not exist"]));
     (LIST QUOTES "archived", Resp "OK" (Some [ENone]));
     (CREATE "archived", Resp "OK" (Some []));
     (SEARCH None "ALL", Raise IMAP4_error)] /\
  sleeps (log (snd run)) = [] /\
  run_continuous select_raises to_header 3 30 connected =
    (Exc IMAP4_error,
     mkState (self connected) [(SELECT "INBOX", Raise IMAP4_error)]).
Proof. repeat split; reflexivity. Qed.
